(** * MeetingSync: the transcript analysis pipeline

    A shallow embedding of [src/services/meeting-processor.js]
    (class [MeetingProcessor]) and of the parts of
    [src/services/TextProcessor.js] that the specification talks about.

    Modelling conventions.
    - A JavaScript string is the list of its code units; code units are
      taken in the range 0..255 (the [ascii] type read as Latin-1), which
      covers the ASCII / Latin-script transcripts the system is written for.
    - Lengths, indexes and counts are natural numbers.  The scores by
      which the two summaries rank their sentences, and the products that
      their position tests compare an index with, are doubles: they are
      computed as IEEE 754 binary64 computes them ([Double], over the
      Standard Library's [SpecFloat]), since there the rounding decides
      which sentence wins (0.3 - 0.1 is below 0.2, and 90 * 0.7 below 63).
      A confidence and the sentiment are exact rationals ([Q]): the sources
      add a few steps to a base, divide and clamp, and the doubles they
      get differ from the rationals by rounding in the last place only,
      which changes no comparison the sources make with them (a confidence
      grows with the number of its steps in doubles as in [Q]).
    - A regular expression literal is a value of type [regex], interpreted by
      a backtracking matcher that follows the ECMAScript matching rules for
      the constructs the sources use (character classes, quantified classes,
      greedy and lazy, alternation, capture groups, [\b], [^], [$], the
      [i] and [g] flags).
    - The two libraries the sources import are parameters: the fuzzy search
      of fuse.js ([fuse_search]) and the sentence segmentation of
      nlp-compromise ([nlp_sentences]).
    - A run of [processMeeting] carries the list of the methods it called,
      so that "no extractor ran" can be said; output to the console is not
      modelled. *)

From Stdlib Require Import Ascii String QArith Qminmax Qround Lqa SpecFloat.
From stdpp Require Import base list strings gmap sorting.

Local Open Scope string_scope.
Local Open Scope list_scope.
Local Open Scope nat_scope.

(* ===================================================================== *)
(** * JavaScript strings *)
(* ===================================================================== *)

Module JStr.

(** A string value: its code units, first to last. *)
Abbreviation t := (list ascii).

(** A string literal of the source. *)
Fixpoint str (s : string) : t :=
  match s with
  | EmptyString => []
  | String c s' => c :: str s'
  end.

Definition code (c : ascii) : N := N_of_ascii c.

Definition in_range (lo hi : N) (c : ascii) : bool :=
  ((lo <=? code c) && (code c <=? hi))%N.

Definition is_upper (c : ascii) : bool := in_range 65 90 c.
Definition is_lower (c : ascii) : bool := in_range 97 122 c.
Definition is_letter (c : ascii) : bool := is_upper c || is_lower c.
Definition is_digit (c : ascii) : bool := in_range 48 57 c.

(** [\w]: letters, digits and the underscore. *)
Definition is_word (c : ascii) : bool :=
  is_letter c || is_digit c || (code c =? 95)%N.

(** [\s] and [String.prototype.trim]: TAB, LF, VT, FF, CR, space and the
    no-break space (the white space and line terminators below 256). *)
Definition is_space (c : ascii) : bool :=
  in_range 9 13 c || (code c =? 32)%N || (code c =? 160)%N.

(** Line terminators, which [.] does not match. *)
Definition is_line_terminator (c : ascii) : bool :=
  (code c =? 10)%N || (code c =? 13)%N.

(** [toLowerCase] and [toUpperCase] on one code unit.  Latin-1 capitals
    other than the multiplication sign have their small letter 32 above;
    the upper-case forms of 181, 223 and 255 lie outside the range and are
    left alone. *)
Definition lower (c : ascii) : ascii :=
  if is_upper c || (in_range 192 222 c && negb (code c =? 215)%N)
  then ascii_of_N (code c + 32) else c.

Definition upper (c : ascii) : ascii :=
  if is_lower c || (in_range 224 254 c && negb (code c =? 247)%N)
  then ascii_of_N (code c - 32) else c.

Definition toLowerCase (s : t) : t := map lower s.
Definition toUpperCase (s : t) : t := map upper s.

(** [s.trim()] *)
Fixpoint trimStart (s : t) : t :=
  match s with
  | c :: s' => if is_space c then trimStart s' else s
  | [] => []
  end.

Definition trimEnd (s : t) : t := reverse (trimStart (reverse s)).
Definition trim (s : t) : t := trimEnd (trimStart s).

(** [s.substring(a, b)] for [a <= b]; both ends are clamped to the
    length, as [take] and [drop] do. *)
Definition substring (a b : nat) (s : t) : t := take (b - a) (drop a s).

(** [s.startsWith(p)] at the head of [s]. *)
Fixpoint prefix_here (p s : t) : bool :=
  match p, s with
  | [], _ => true
  | a :: p', b :: s' => if decide (a = b) then prefix_here p' s' else false
  | _ :: _, [] => false
  end.

(** [s.includes(p)] *)
Fixpoint includes (p s : t) : bool :=
  prefix_here p s ||
  match s with
  | [] => false
  | _ :: s' => includes p s'
  end.

(** [parts.join(sep)] *)
Fixpoint join (sep : t) (parts : list t) : t :=
  match parts with
  | [] => []
  | [p] => p
  | p :: ps => p ++ sep ++ join sep ps
  end.

(** [s.split(' ')]: the pieces between single spaces; always at least
    one piece. *)
Fixpoint split_on (d : ascii) (cur : t) (s : t) : list t :=
  match s with
  | [] => [reverse cur]
  | c :: s' =>
      if decide (c = d) then reverse cur :: split_on d [] s'
      else split_on d (c :: cur) s'
  end.

Definition split_space (s : t) : list t := split_on " "%char [] s.

End JStr.

Import JStr.

(* ===================================================================== *)
(** * Regular expressions *)
(* ===================================================================== *)

Module RegExp.

(** Character sets: the atoms and bracket classes of the sources. *)
Inductive cset : Type :=
| CChar (c : ascii)            (* a literal character *)
| CRange (lo hi : ascii)       (* [lo-hi] *)
| CDigit                       (* \d *)
| CSpace                       (* \s *)
| CDot                         (* . *)
| COr (a b : cset)             (* union inside brackets *)
| CNot (a : cset).             (* [^...] *)

Inductive regex : Type :=
| REmpty
| RSet (cs : cset)
| RRep (cs : cset) (lo : nat) (hi : option nat) (greedy : bool)
| RSeq (r1 r2 : regex)
| RAlt (r1 r2 : regex)
| RGroup (i : nat) (r : regex)   (* the i-th capturing parenthesis *)
| RWordB                         (* \b *)
| RBol                           (* ^ *)
| REol.                          (* $ *)

(** The [i] flag. The [g] flag does not change what matches; it decides
    where [exec] starts, which is explicit below. *)
Record flags : Type := { ignoreCase : bool }.

Definition fl_plain : flags := {| ignoreCase := false |}.
Definition fl_i : flags := {| ignoreCase := true |}.

(** Membership of a code unit in a set, case-sensitively. *)
Fixpoint cs_mem (cs : cset) (c : ascii) : bool :=
  match cs with
  | CChar a => bool_decide (a = c)
  | CRange lo hi => in_range (code lo) (code hi) c
  | CDigit => is_digit c
  | CSpace => is_space c
  | CDot => negb (is_line_terminator c)
  | COr a b => cs_mem a c || cs_mem b c
  | CNot a => negb (cs_mem a c)
  end.

(** With the [i] flag a set matches [c] when one of its members has the
    same canonical (upper-case) form as [c]; a negated class inverts the
    outcome afterwards. *)
Fixpoint cs_mem_ci (cs : cset) (c : ascii) : bool :=
  match cs with
  | CChar _ | CRange _ _ => cs_mem cs (upper c) || cs_mem cs (lower c)
  | CDigit | CSpace | CDot => cs_mem cs c
  | COr a b => cs_mem_ci a c || cs_mem_ci b c
  | CNot a => negb (cs_mem_ci a c)
  end.

Definition cs_match (fl : flags) (cs : cset) (c : ascii) : bool :=
  if ignoreCase fl then cs_mem_ci cs c else cs_mem cs c.

(** The matcher state: the input split at the current position (the part
    before it reversed) and the captures made so far. *)
Record mstate : Type := MState {
  m_before : list ascii;
  m_after : list ascii;
  m_caps : list (nat * JStr.t)
}.

Definition pos (st : mstate) : nat := length (m_before st).

Definition set_cap (i : nat) (v : JStr.t) (st : mstate) : mstate :=
  MState (m_before st) (m_after st) ((i, v) :: m_caps st).

Fixpoint assoc (i : nat) (l : list (nat * JStr.t)) : option JStr.t :=
  match l with
  | [] => None
  | (j, v) :: l' => if decide (i = j) then Some v else assoc i l'
  end.

(** The text between two states of one run. *)
Definition consumed (st st' : mstate) : JStr.t :=
  take (pos st' - pos st) (m_after st).

Definition at_word_boundary (st : mstate) : bool :=
  let a := match m_before st with c :: _ => is_word c | [] => false end in
  let b := match m_after st with c :: _ => is_word c | [] => false end in
  xorb a b.

Section Matcher.
Variable fl : flags.

(** A quantified class, greedy: take as many as allowed, give back one
    at a time. [n] counts the characters taken so far. *)
Fixpoint rep_greedy (cs : cset) (lo : nat) (hi : option nat) (n : nat)
    (before after : list ascii) (caps : list (nat * JStr.t))
    (k : mstate -> option mstate) : option mstate :=
  let stop := if (lo <=? n)%nat then k (MState before after caps) else None in
  if match hi with Some h => (n <? h)%nat | None => true end then
    match after with
    | c :: rest =>
        if cs_match fl cs c then
          match rep_greedy cs lo hi (S n) (c :: before) rest caps k with
          | Some r => Some r
          | None => stop
          end
        else stop
    | [] => stop
    end
  else stop.

(** A quantified class, lazy: take as few as allowed, one more on
    failure. *)
Fixpoint rep_lazy (cs : cset) (lo : nat) (hi : option nat) (n : nat)
    (before after : list ascii) (caps : list (nat * JStr.t))
    (k : mstate -> option mstate) : option mstate :=
  let more :=
    if match hi with Some h => (n <? h)%nat | None => true end then
      match after with
      | c :: rest =>
          if cs_match fl cs c
          then rep_lazy cs lo hi (S n) (c :: before) rest caps k
          else None
      | [] => None
      end
    else None in
  if (lo <=? n)%nat then
    match k (MState before after caps) with
    | Some r => Some r
    | None => more
    end
  else more.

(** The backtracking matcher, in continuation-passing style. *)
Fixpoint rmatch (r : regex) (st : mstate)
    (k : mstate -> option mstate) : option mstate :=
  match r with
  | REmpty => k st
  | RSet cs =>
      match m_after st with
      | c :: rest =>
          if cs_match fl cs c
          then k (MState (c :: m_before st) rest (m_caps st))
          else None
      | [] => None
      end
  | RRep cs lo hi true =>
      rep_greedy cs lo hi 0 (m_before st) (m_after st) (m_caps st) k
  | RRep cs lo hi false =>
      rep_lazy cs lo hi 0 (m_before st) (m_after st) (m_caps st) k
  | RSeq r1 r2 => rmatch r1 st (fun st1 => rmatch r2 st1 k)
  | RAlt r1 r2 =>
      match rmatch r1 st k with
      | Some res => Some res
      | None => rmatch r2 st k
      end
  | RGroup i r1 =>
      rmatch r1 st (fun st1 => k (set_cap i (consumed st st1) st1))
  | RWordB => if at_word_boundary st then k st else None
  | RBol => match m_before st with [] => k st | _ => None end
  | REol => match m_after st with [] => k st | _ => None end
  end.

(** What [exec] returns: [match.index], the end of the match (the new
    [lastIndex] of a global expression), [match[0]] and the groups. *)
Record result : Type := Result {
  index : nat;
  last : nat;
  whole : JStr.t;
  groups : list (nat * JStr.t)
}.

Definition group (i : nat) (m : result) : option JStr.t :=
  assoc i (groups m).

(** The leftmost match starting at or after the current position. *)
Fixpoint search (r : regex) (before after : list ascii) : option result :=
  let st := MState before after [] in
  match rmatch r st Some with
  | Some st' =>
      Some (Result (pos st) (pos st') (consumed st st') (m_caps st'))
  | None =>
      match after with
      | [] => None
      | c :: rest => search r (c :: before) rest
      end
  end.

(** [r.exec(s)] with [r.lastIndex = i]. *)
Definition exec (r : regex) (s : JStr.t) (i : nat) : option result :=
  if (length s <? i)%nat then None
  else search r (reverse (take i s)) (drop i s).

(** [r.test(s)] on an expression without the [g] flag. *)
Definition test (r : regex) (s : JStr.t) : bool :=
  bool_decide (is_Some (exec r s 0)).

(** The matches seen by [while ((m = r.exec(s)) !== null) ...] on a
    global expression: each call resumes at the end of the match
    before. *)
Fixpoint exec_loop (fuel : nat) (r : regex) (s : JStr.t) (i : nat)
    : list result :=
  match fuel with
  | 0 => []
  | S fuel' =>
      match exec r s i with
      | None => []
      | Some m => m :: exec_loop fuel' r s (last m)
      end
  end.

Definition exec_all (r : regex) (s : JStr.t) : list result :=
  exec_loop (S (length s)) r s 0.

End Matcher.

(** Building blocks for writing the literals of the source. *)
Fixpoint lit_chars (s : string) : regex :=
  match s with
  | EmptyString => REmpty
  | String c EmptyString => RSet (CChar c)
  | String c s' => RSeq (RSet (CChar c)) (lit_chars s')
  end.

Fixpoint alt (rs : list regex) : regex :=
  match rs with
  | [] => REmpty
  | [r] => r
  | r :: rs' => RAlt r (alt rs')
  end.

Fixpoint seq (rs : list regex) : regex :=
  match rs with
  | [] => REmpty
  | [r] => r
  | r :: rs' => RSeq r (seq rs')
  end.

Definition words (ws : list string) : regex := alt (map lit_chars ws).

Definition plus (cs : cset) : regex := RRep cs 1 None true.
Definition star (cs : cset) : regex := RRep cs 0 None true.
Definition star_lazy (cs : cset) : regex := RRep cs 0 None false.

Definition AZ : cset := CRange "A" "Z".
Definition az : cset := CRange "a" "z".

End RegExp.

Import RegExp.

(** A regular expression literal with its flags. *)
Record pattern : Type := Pattern { p_flags : flags; p_re : regex }.

Definition p_exec_all (p : pattern) (s : JStr.t) : list result :=
  exec_all (p_flags p) (p_re p) s.

Definition p_exec (p : pattern) (s : JStr.t) : option result :=
  exec (p_flags p) (p_re p) s 0.

Definition p_test (p : pattern) (s : JStr.t) : bool :=
  test (p_flags p) (p_re p) s.

(** [s.replace(p, rep)] for a global pattern whose matches are not empty:
    the text between the matches, with [rep] in place of each match. *)
Fixpoint splice (s : JStr.t) (cur : nat) (ms : list result) (rep : JStr.t)
    : JStr.t :=
  match ms with
  | [] => drop cur s
  | m :: ms' => substring cur (index m) s ++ rep ++ splice s (last m) ms' rep
  end.

Definition replace_all (p : pattern) (rep : JStr.t) (s : JStr.t) : JStr.t :=
  splice s 0 (p_exec_all p s) rep.

(** [s.split(p)] for a pattern whose matches are not empty: the pieces
    between the matches, the empty ones at both ends included. *)
Fixpoint pieces (s : JStr.t) (cur : nat) (ms : list result) : list JStr.t :=
  match ms with
  | [] => [drop cur s]
  | m :: ms' => substring cur (index m) s :: pieces s (last m) ms'
  end.

Definition split_re (p : pattern) (s : JStr.t) : list JStr.t :=
  pieces s 0 (p_exec_all p s).

(** Truthiness of a possibly undefined string. *)
Definition truthy (o : option JStr.t) : bool :=
  match o with
  | Some (_ :: _) => true
  | _ => false
  end.

(* ===================================================================== *)
(** * Arrays *)
(* ===================================================================== *)

Module Arr.

(** [a.sort(cmp)], which is stable; [before x y] stands for
    [cmp(x, y) <= 0]. *)
Section Sort.
Context {A : Type} (before : A -> A -> bool).

Fixpoint insert (x : A) (l : list A) : list A :=
  match l with
  | [] => [x]
  | y :: l' => if before x y then x :: l else y :: insert x l'
  end.

Definition sort (l : list A) : list A := foldr insert [] l.

End Sort.

(** [a.map((x, i) => f x i)] *)
Definition mapi {A B : Type} (f : A -> nat -> B) (l : list A) : list B :=
  imap (fun i x => f x i) l.

(** A [Set] of strings in insertion order, as [Array.from] lists it. *)
Definition set_add (x : JStr.t) (s : list JStr.t) : list JStr.t :=
  if decide (x ∈ s) then s else s ++ [x].

End Arr.

(* ===================================================================== *)
(** * Numbers *)
(* ===================================================================== *)

Definition Qnat (n : nat) : Q := inject_Z (Z.of_nat n).

(** [a < b] and [a > b] on numbers. *)
Definition Qltb (a b : Q) : bool := negb (Qle_bool b a).

(** [Math.ceil] of a number that is not negative. *)
Definition ceil_nat (q : Q) : nat := Z.to_nat (Qceiling q).

(** [Math.round]: the nearest integer, a half going up. *)
Definition round (q : Q) : Z := Qfloor (q + 0.5)%Q.

(** ** Doubles *)

(** IEEE 754 binary64, rounding to nearest, ties to even. *)
Module Double.

Definition t : Type := spec_float.

Definition prec : Z := 53.
Definition emax : Z := 1024.

Definition zero : t := S754_zero false.

(** An integer as a number; exact below 2^53. *)
Definition of_Z (z : Z) : t := binary_normalize prec emax z 0 false.
Definition of_nat (n : nat) : t := of_Z (Z.of_nat n).

Definition add : t -> t -> t := SFadd prec emax.
Definition sub : t -> t -> t := SFsub prec emax.
Definition mul : t -> t -> t := SFmul prec emax.
Definition div : t -> t -> t := SFdiv prec emax.

(** A decimal literal of the source, [0.3] as [decimal 3 10]: the double
    nearest to the fraction, which is what the division of the two
    integers rounds to. *)
Definition decimal (p q : Z) : t := div (of_Z p) (of_Z q).

(** [a < b] and [a <= b]. *)
Definition ltb : t -> t -> bool := SFltb.
Definition leb : t -> t -> bool := SFleb.

End Double.

(* ===================================================================== *)
(** * src/services/meeting-processor.js *)
(* ===================================================================== *)

Module MeetingProcessor.

(** ** Values, outcomes, configuration *)

(** The values a caller can pass for the transcript. *)
Inductive value : Type :=
| VUndefined
| VNull
| VBoolean (b : bool)
| VNumber (q : Q)
| VString (s : JStr.t)
| VObject.

(** How a call ends: normally, or with [throw new Error(message)]. *)
Inductive outcome (A : Type) : Type :=
| Return (a : A)
| Throw (message : JStr.t).
Arguments Return {A} a.
Arguments Throw {A} message.

(** One tier of [this.config]. *)
Record tier_config : Type := TierConfig {
  useAI : bool;
  maxTranscriptLength : nat;
  summaryLength : nat
}.

Definition config_basic : tier_config := TierConfig false 50000 500.
Definition config_ai : tier_config := TierConfig true 100000 1000.

(** The own properties of [this.config]. *)
Definition config : gmap JStr.t tier_config :=
  {[ str "basic" := config_basic; str "ai" := config_ai ]}.

(** [this.config] is an ordinary object: besides its own two keys it
    answers to the names it inherits from [Object.prototype]. *)
Definition object_prototype_names : list JStr.t :=
  map str ["constructor"; "hasOwnProperty"; "isPrototypeOf";
           "propertyIsEnumerable"; "toLocaleString"; "toString"; "valueOf";
           "__proto__"; "__defineGetter__"; "__defineSetter__";
           "__lookupGetter__"; "__lookupSetter__"].

(** What [this.config[tier] || this.config.basic] evaluates to. *)
Inductive config_value : Type :=
| OwnTier (c : tier_config)
| Inherited.   (* a function or object, truthy, without the two lengths *)

(** [this.config[key]]; [None] is [undefined]. *)
Definition config_get (key : JStr.t) : option config_value :=
  match config !! key with
  | Some c => Some (OwnTier c)
  | None =>
      if decide (key ∈ object_prototype_names) then Some Inherited else None
  end.

Definition config_for (tier : JStr.t) : config_value :=
  match config_get tier with
  | Some v => v
  | None => OwnTier config_basic
  end.

(** [config.maxTranscriptLength] and [config.summaryLength]; [None] is
    [undefined]. *)
Definition cfg_maxTranscriptLength (c : config_value) : option nat :=
  match c with OwnTier t => Some (maxTranscriptLength t) | Inherited => None end.

Definition cfg_summaryLength (c : config_value) : option nat :=
  match c with OwnTier t => Some (summaryLength t) | Inherited => None end.

(** [n > limit] where [limit] may be [undefined] (the comparison is then
    false). *)
Definition exceeds (n : nat) (limit : option nat) : bool :=
  match limit with
  | Some m => (m <? n)%nat
  | None => false
  end.

(** ** cleanTranscript *)

Definition whitespace_run : pattern := Pattern fl_plain (plus CSpace).

Definition normalize (s : JStr.t) : JStr.t :=
  trim (replace_all whitespace_run (str " ") s).

Definition truncation_marker : JStr.t := str "...".

(** [!v] *)
Definition falsy (v : value) : bool :=
  match v with
  | VUndefined | VNull => true
  | VBoolean b => negb b
  | VNumber q => Qeq_bool q 0
  | VString s => bool_decide (s = [])
  | VObject => false
  end.

Definition cleanTranscript (transcript : value) (maxLength : option nat)
    : outcome JStr.t :=
  match transcript with
  | VString s =>
      if falsy transcript then Throw (str "Invalid transcript provided")
      else
        let cleaned := normalize s in
        Return
          (if exceeds (length cleaned) maxLength
           then substring 0 (default 0 maxLength) cleaned ++ truncation_marker
           else cleaned)
  | _ => Throw (str "Invalid transcript provided")
  end.

(** ** extractTicketMentions *)

Record mention : Type := Mention {
  ticketId : JStr.t;
  m_context : JStr.t;
  position : nat;
  m_confidence : Q
}.

Definition project_key : regex := RRep AZ 2 (Some 10) true.

Definition key_dash_number : regex :=
  seq [project_key; RSet (CChar "-"); plus CDigit].

Definition ticket_patterns : list pattern :=
  [ Pattern fl_plain (seq [RWordB; RGroup 1 key_dash_number; RWordB]);
    Pattern fl_i
      (seq [RWordB; lit_chars "ticket"; plus CSpace; RGroup 1 key_dash_number]);
    Pattern fl_i
      (seq [RWordB; lit_chars "issue"; plus CSpace; RGroup 1 key_dash_number]);
    Pattern fl_plain
      (seq [RWordB; RGroup 1 project_key; plus CSpace;
            RGroup 2 (plus CDigit); RWordB]) ].

Definition extractMentionContext (transcript : JStr.t) (position : nat)
    (ticketId : JStr.t) : JStr.t :=
  let contextRadius := 150 in
  let start := position - contextRadius in
  let stop := min (length transcript) (position + length ticketId + contextRadius) in
  trim (substring start stop transcript).

(** [/\b(w1|w2|...)\b/i] *)
Definition indicator (ws : list string) : pattern :=
  Pattern fl_i (seq [RWordB; RGroup 1 (words ws); RWordB]).

Definition mention_indicators : list pattern :=
  [ indicator ["fix"; "close"; "resolve"; "complete"; "implement"; "work on";
               "update"; "review"];
    indicator ["bug"; "issue"; "task"; "story"; "epic"];
    indicator ["jira"; "ticket"; "card"];
    indicator ["assigned"; "responsible"; "owner"] ].

(** The shared shape of the three confidence functions: start at [base],
    add [step] for every indicator that tests true, cap at 1. *)
Definition confidence_of (base step : Q) (indicators : list pattern)
    (text : JStr.t) : Q :=
  Qmin
    (foldl (fun confidence indicator =>
              if p_test indicator text then (confidence + step)%Q else confidence)
       base indicators)
    1.

Definition calculateMentionConfidence (context ticketId : JStr.t) : Q :=
  confidence_of 0.5 0.1 mention_indicators context.

(** [ticketId] as the loop body computes it from a match. *)
Definition match_ticketId (m : result) : option JStr.t :=
  match group 1 m, group 2 m with
  | Some (a :: k), Some (b :: n) => Some ((a :: k) ++ str "-" ++ (b :: n))
  | g1, _ => g1
  end.

(** The body of the [while] loop. The state is the set [mentions] and the
    array [mentionDetails]. *)
Definition mention_step (transcript : JStr.t)
    (st : gset JStr.t * list mention) (m : result)
    : gset JStr.t * list mention :=
  let '(mentions, mentionDetails) := st in
  match match_ticketId m with
  | Some (c :: id) =>
      let ticketId := c :: id in
      if decide (ticketId ∈ mentions) then st
      else
        let context := extractMentionContext transcript (index m) ticketId in
        ({[ ticketId ]} ∪ mentions,
         mentionDetails ++
           [Mention ticketId context (index m)
              (calculateMentionConfidence context ticketId)])
  | _ => st
  end.

Definition mention_loop (transcript : JStr.t) (patterns : list pattern)
    : gset JStr.t * list mention :=
  foldl (fun st p => foldl (mention_step transcript) st (p_exec_all p transcript))
    (∅, []) patterns.

Definition extractTicketMentions (transcript : JStr.t) : list mention :=
  snd (mention_loop transcript ticket_patterns).

(** ** generateBasicSummary *)

Definition sentence_end : pattern :=
  Pattern fl_plain (plus (COr (CChar ".") (COr (CChar "!") (CChar "?")))).

(** [transcript.split(/[.!?]+/).filter(s => s.trim().length > 10)] *)
Definition summary_sentences (transcript : JStr.t) : list JStr.t :=
  filter (fun s => 10 < length (trim s)) (split_re sentence_end transcript).

Record scored : Type := Scored {
  s_sentence : JStr.t;
  s_score : Double.t;
  s_index : nat
}.

Definition summary_keywords : list JStr.t :=
  map str ["decided"; "agreed"; "will"; "should"; "must"; "important";
           "action"; "next"; "follow"; "issue"; "problem"; "solution"].

(** The callback of [sentences.map]; [n] is [sentences.length]. *)
Definition score_sentence (n : nat) (sentence : JStr.t) (index : nat) : scored :=
  let score := Double.zero in
  let score :=
    if Double.ltb (Double.of_nat index)
         (Double.mul (Double.of_nat n) (Double.decimal 3 10))
    then Double.add score (Double.decimal 3 10) else score in
  let score :=
    if Double.ltb (Double.mul (Double.of_nat n) (Double.decimal 7 10))
         (Double.of_nat index)
    then Double.add score (Double.decimal 2 10) else score in
  let score :=
    foldl (fun score keyword =>
             if includes keyword (toLowerCase sentence)
             then Double.add score (Double.decimal 1 10) else score)
      score summary_keywords in
  let score :=
    if (length sentence <? 20) || (200 <? length sentence)
    then Double.sub score (Double.decimal 1 10) else score in
  Scored (trim sentence) score index.

(** [(a, b) => b.score - a.score] and [(a, b) => a.index - b.index], as
    "the difference is not positive". *)
Definition by_score_desc (a b : scored) : bool :=
  Double.leb (Double.sub (s_score b) (s_score a)) Double.zero.

Definition by_index (a b : scored) : bool :=
  (Z.of_nat (s_index a) - Z.of_nat (s_index b) <=? 0)%Z.

(** The number of sentences kept, [Math.ceil(sentences.length * 0.3)], is
    written in exact arithmetic, where it is the same as in doubles: the
    double product is within one rounding of [0.3 * n], which is either
    an integer, and then the product itself, or 0.1 or more away from the
    nearest integer. *)
Definition topSentences (sentences : list JStr.t) : list scored :=
  let n := length sentences in
  let scoredSentences := Arr.mapi (score_sentence n) sentences in
  Arr.sort by_index
    (take (min 5 (ceil_nat (Qnat n * 0.3)))
       (Arr.sort by_score_desc scoredSentences)).

Definition ellipsis : JStr.t := str "...".

Definition generateBasicSummary (transcript : JStr.t) (maxLength : option nat)
    : JStr.t :=
  if bool_decide (transcript = []) || (length transcript <? 50) then
    str "Meeting transcript too short to summarize."
  else
    let sentences := summary_sentences transcript in
    if length sentences <=? 3 then
      trim (join (str ". ") sentences) ++ str "."
    else
      let summary := join (str ". ") (map s_sentence (topSentences sentences)) in
      let summary :=
        if exceeds (length summary) maxLength
        then substring 0 (default 0 maxLength - 3) summary ++ ellipsis
        else summary in
      match summary with
      | [] => str "Unable to generate meaningful summary."
      | _ => summary
      end.

(** The AI summary is a placeholder that falls back to the basic one. *)
Definition generateAISummary (transcript : JStr.t) (maxLength : option nat)
    : JStr.t :=
  generateBasicSummary transcript maxLength.

(** ** Confidence of action items and decisions *)

Definition action_indicators : list pattern :=
  [ indicator ["will"; "must"; "should"; "need to"; "have to"];
    indicator ["by"; "due"; "deadline"; "before"];
    indicator ["assign"; "responsible"; "owner"];
    indicator ["action"; "task"; "todo"; "follow up"] ].

Definition calculateActionConfidence (action : JStr.t) : Q :=
  confidence_of 0.3 0.15 action_indicators action.

Definition decision_indicators : list pattern :=
  [ indicator ["decided"; "agreed"; "concluded"; "determined"];
    indicator ["final"; "final decision"; "consensus"];
    indicator ["approved"; "accepted"; "chosen"; "selected"];
    indicator ["going with"; "moving forward"] ].

Definition calculateDecisionConfidence (decision : JStr.t) : Q :=
  confidence_of 0.4 0.1 decision_indicators decision.

(** ** Contexts and the responsible person *)

Definition extractActionContext (transcript : JStr.t) (position : nat) : JStr.t :=
  let contextRadius := 100 in
  let start := position - contextRadius in
  let stop := min (length transcript) (position + contextRadius) in
  trim (substring start stop transcript).

Definition extractDecisionContext (transcript : JStr.t) (position : nat) : JStr.t :=
  let contextRadius := 100 in
  let start := position - contextRadius in
  let stop := min (length transcript) (position + contextRadius) in
  trim (substring start stop transcript).

(** [([A-Z][a-z]+)] as group [i]. *)
Definition capitalized (i : nat) : regex :=
  RGroup i (RSeq (RSet AZ) (plus az)).

Definition responsible_patterns : list pattern :=
  [ Pattern fl_i
      (seq [RWordB; capitalized 1; plus CSpace;
            alt [lit_chars "will"; lit_chars "should"; lit_chars "must";
                 seq [lit_chars "need"; RRep (CChar "s") 0 (Some 1) true;
                      lit_chars " to"]]]);
    Pattern fl_i
      (seq [words ["assign"; "assigned to"; "responsible"; "owner"];
            plus CSpace; capitalized 1]);
    Pattern fl_i
      (seq [RWordB; capitalized 1; plus CSpace; words ["is"; "was"];
            plus CSpace; words ["responsible"; "assigned"]]) ].

(** The first pattern that matches with a non-empty group decides;
    [None] is [null]. *)
Fixpoint first_group (patterns : list pattern) (text : JStr.t)
    : option JStr.t :=
  match patterns with
  | [] => None
  | p :: ps =>
      match p_exec p text with
      | Some m =>
          if truthy (group 1 m) then group 1 m else first_group ps text
      | None => first_group ps text
      end
  end.

Definition extractResponsiblePerson (actionText : JStr.t) : option JStr.t :=
  first_group responsible_patterns actionText.

(** ** Candidates for action items and decisions *)

(** [(?:^|\.|;)\s*([^.;]*(?:w1|w2|...).*?)(?:\.|;|$)] with the flags
    [gi]. *)
Definition clause_with (ws : list string) : pattern :=
  Pattern fl_i
    (seq [alt [RBol; RSet (CChar "."); RSet (CChar ";")];
          star CSpace;
          RGroup 1
            (seq [star (CNot (COr (CChar ".") (CChar ";")));
                  words ws;
                  star_lazy CDot]);
          alt [RSet (CChar "."); RSet (CChar ";"); REol]]).

Definition actionPatterns : list pattern :=
  [ clause_with ["will"; "should"; "must"; "need to"; "have to"; "going to";
                 "action"; "todo"; "task"];
    clause_with ["follow up"; "follow-up"; "next step"; "action item"];
    clause_with ["assign"; "responsible"; "owner"; "due"] ].

Definition decisionPatterns : list pattern :=
  [ clause_with ["decided"; "agreed"; "concluded"; "determined"; "resolved"];
    clause_with ["decision"; "choice"; "option"; "approach"; "solution"];
    clause_with ["we will"; "team will"; "going with"; "chosen"; "selected"] ].

Record action_item : Type := ActionItem {
  action : JStr.t;
  responsible : option JStr.t;
  a_confidence : Q;
  a_context : JStr.t
}.

Record decision_item : Type := DecisionItem {
  decision : JStr.t;
  d_confidence : Q;
  d_context : JStr.t
}.

(** [match[1].trim()]; group 1 takes part in every match of the clause
    patterns. *)
Definition clause_text (m : result) : JStr.t := trim (default [] (group 1 m)).

(** The [for]/[while] loops that fill [actions]. *)
Definition action_candidates (transcript : JStr.t) : list action_item :=
  foldl (fun actions p =>
           foldl (fun actions m =>
                    let action := clause_text m in
                    if (10 <? length action) && (length action <? 300) then
                      actions ++
                        [ActionItem action
                           (extractResponsiblePerson action)
                           (calculateActionConfidence action)
                           (extractActionContext transcript (index m))]
                    else actions)
             actions (p_exec_all p transcript))
    [] actionPatterns.

Definition decision_candidates (transcript : JStr.t) : list decision_item :=
  foldl (fun decisions p =>
           foldl (fun decisions m =>
                    let decision := clause_text m in
                    if (10 <? length decision) && (length decision <? 300) then
                      decisions ++
                        [DecisionItem decision
                           (calculateDecisionConfidence decision)
                           (extractDecisionContext transcript (index m))]
                    else decisions)
             decisions (p_exec_all p transcript))
    [] decisionPatterns.

(** ** identifyParticipants *)

Definition namePatterns : list pattern :=
  [ Pattern fl_i
      (seq [RWordB; capitalized 1; plus CSpace;
            words ["said"; "mentioned"; "asked"; "suggested"; "noted";
                   "stated"]]);
    Pattern fl_plain (seq [RWordB; capitalized 1; RSet (CChar ":"); RSet CSpace]);
    Pattern fl_i
      (seq [words ["thanks"; "thank you"]; plus CSpace; capitalized 1]) ].

(** The body of the [while] loop; group 1 takes part in every match of
    the name patterns. *)
Definition participant_step (participants : list JStr.t) (m : result)
    : list JStr.t :=
  let name := default [] (group 1 m) in
  if (2 <? length name) && (length name <? 20)
  then Arr.set_add name participants
  else participants.

Definition participant_set (transcript : JStr.t) : list JStr.t :=
  foldl (fun participants p =>
           foldl participant_step participants (p_exec_all p transcript))
    [] namePatterns.

Definition identifyParticipants (transcript : JStr.t) : list JStr.t :=
  take 10 (participant_set transcript).

(** ** Removing duplicates, and the two extractors built on it *)

Section Fuse.

(** The fuzzy search of the fuse.js library: [fuse_search key threshold
    items query] is the list of [result.item] of
    [new Fuse(items, {keys: [key], threshold}).search(query)], in result
    order. *)
Variable fuse_search :
  forall A : Type, (A -> JStr.t) -> Q -> list A -> JStr.t -> list A.

Section RemoveDuplicates.
Context {A : Type} (key : A -> JStr.t) (confidence : A -> Q).

(** The inner loop: the best of the similar items, and the keys marked as
    processed. *)
Definition best_of (similar : list A) (item : A) (processed : gset JStr.t)
    : A * gset JStr.t :=
  foldl (fun '(bestItem, processed) r =>
           ((if Qltb (confidence bestItem) (confidence r) then r else bestItem),
            {[ key r ]} ∪ processed))
    (item, processed) similar.

(** The outer loop over [items]. *)
Definition unique_step (items : list A) (st : gset JStr.t * list A) (item : A)
    : gset JStr.t * list A :=
  let '(processed, unique) := st in
  if decide (key item ∈ processed) then st
  else
    let similar := fuse_search A key 0.3 items (key item) in
    let '(bestItem, processed) := best_of similar item processed in
    (processed, unique ++ [bestItem]).

Definition removeDuplicates (items : list A) : list A :=
  if length items <=? 1 then items
  else
    Arr.sort (fun a b => Qle_bool (confidence b - confidence a) 0)
      (snd (foldl (unique_step items) (∅, []) items)).

End RemoveDuplicates.

Definition removeDuplicateActions (actionItems : list action_item)
    : list action_item :=
  removeDuplicates action a_confidence actionItems.

Definition removeDuplicateDecisions (decisions : list decision_item)
    : list decision_item :=
  removeDuplicates decision d_confidence decisions.

Definition extractActionItems (transcript : JStr.t) : list action_item :=
  take 10
    (filter (fun a => Qltb 0.3 (a_confidence a))
       (removeDuplicateActions (action_candidates transcript))).

Definition extractKeyDecisions (transcript : JStr.t) : list decision_item :=
  take 8
    (filter (fun d => Qltb 0.4 (d_confidence d))
       (removeDuplicateDecisions (decision_candidates transcript))).

(** ** processMeeting *)

Record analysis : Type := Analysis {
  transcript : JStr.t;
  ticketMentions : list mention;
  summary : JStr.t;
  actionItems : list action_item;
  keyDecisions : list decision_item;
  participants : list JStr.t;
  processingTier : JStr.t;
  processedAt : JStr.t;
  wordCount : nat
}.

(** A run of [processMeeting]: the methods it called, in call order, and
    how it ended. *)
Definition run (A : Type) : Type := (list string * outcome A)%type.

#[local] Instance run_ret : MRet run := fun A a => ([], Return a).

#[local] Instance run_bind : MBind run := fun A B f m =>
  match m with
  | (calls, Return a) => let '(calls', r) := f a in (calls ++ calls', r)
  | (calls, Throw e) => (calls, Throw e)
  end.

Definition call {A} (method : string) (o : outcome A) : run A := ([method], o).

(** [try { m } catch (error) { handler error.message }] *)
Definition try_catch {A} (m : run A) (handler : JStr.t -> run A) : run A :=
  match m with
  | (calls, Throw e) => let '(calls', r) := handler e in (calls ++ calls', r)
  | _ => m
  end.

(** [tier] is a string, as the JSDoc has it, or [None] when the argument is
    left out or [undefined]; the default parameter value then applies.
    [now] is what [new Date().toISOString()] gives. *)
Definition processMeeting (now : JStr.t) (transcript : value)
    (tier : option JStr.t) : run analysis :=
  let tier := default (str "basic") tier in
  try_catch
    (let config := config_for tier in
     cleanTranscript ←
       call "cleanTranscript"
         (cleanTranscript transcript (cfg_maxTranscriptLength config));
     ticketMentions ←
       call "extractTicketMentions"
         (Return (extractTicketMentions cleanTranscript));
     summary ←
       (if decide (tier = str "ai") then
          _ ← call "generateAISummary" (Return tt);
          call "generateBasicSummary"
            (Return (generateAISummary cleanTranscript
                       (cfg_summaryLength config)))
        else
          call "generateBasicSummary"
            (Return (generateBasicSummary cleanTranscript
                       (cfg_summaryLength config))));
     actionItems ←
       call "extractActionItems" (Return (extractActionItems cleanTranscript));
     keyDecisions ←
       call "extractKeyDecisions" (Return (extractKeyDecisions cleanTranscript));
     participants ←
       call "identifyParticipants"
         (Return (identifyParticipants cleanTranscript));
     mret (Analysis cleanTranscript ticketMentions summary actionItems
            keyDecisions participants tier now
            (length (split_space cleanTranscript))))
    (fun message =>
       (([], Throw (str "Meeting processing failed: " ++ message)) : run analysis)).

End Fuse.

(** ** validateProcessedData, getProcessingStats, formatForDisplay *)

(** The argument [data] of the three methods: an object whose properties,
    where present, have the types [processMeeting] gives them.  [None] is
    a property that is missing or [undefined]; for the three arrays that
    are tested with [Array.isArray] it is any value that is not an array. *)
Record meeting_data : Type := MeetingData {
  data_transcript : option JStr.t;
  data_summary : option JStr.t;
  data_ticketMentions : option (list mention);
  data_actionItems : option (list action_item);
  data_keyDecisions : option (list decision_item);
  data_participants : option (list JStr.t);
  data_processingTier : option JStr.t;
  data_processedAt : option JStr.t;
  data_wordCount : option nat
}.

(** [!text || text.length < n] *)
Definition too_short (text : option JStr.t) (n : nat) : bool :=
  negb (truthy text) || (length (default [] text) <? n).

(** The array [errors] when the five tests are done. *)
Definition validation_errors (data : meeting_data) : list JStr.t :=
  let errors := [] in
  let errors :=
    if too_short (data_transcript data) 10
    then errors ++ [str "Transcript is too short or missing"] else errors in
  let errors :=
    if too_short (data_summary data) 20
    then errors ++ [str "Summary is too short or missing"] else errors in
  let errors :=
    if negb (bool_decide (is_Some (data_ticketMentions data)))
    then errors ++ [str "Ticket mentions must be an array"] else errors in
  let errors :=
    if negb (bool_decide (is_Some (data_actionItems data)))
    then errors ++ [str "Action items must be an array"] else errors in
  let errors :=
    if negb (bool_decide (is_Some (data_keyDecisions data)))
    then errors ++ [str "Key decisions must be an array"] else errors in
  errors.

Definition validateProcessedData (data : meeting_data) : outcome bool :=
  let errors := validation_errors data in
  if 0 <? length errors
  then Throw (str "Validation failed: " ++ join (str ", ") errors)
  else Return true.

Record processing_stats : Type := ProcessingStats {
  transcriptLength : nat;
  stats_wordCount : nat;
  ticketMentionsCount : nat;
  actionItemsCount : nat;
  keyDecisionsCount : nat;
  participantsCount : nat;
  stats_processingTier : JStr.t;
  stats_processedAt : option JStr.t
}.

(** [x?.length || 0] *)
Definition length_or_0 {A} (x : option (list A)) : nat :=
  default 0 (length <$> x).

Definition getProcessingStats (data : meeting_data) : processing_stats :=
  ProcessingStats
    (length_or_0 (data_transcript data))
    (default 0 (data_wordCount data))
    (length_or_0 (data_ticketMentions data))
    (length_or_0 (data_actionItems data))
    (length_or_0 (data_keyDecisions data))
    (length_or_0 (data_participants data))
    (if truthy (data_processingTier data)
     then default [] (data_processingTier data) else str "unknown")
    (data_processedAt data).

Record display_mention : Type := DisplayMention {
  dm_ticketId : JStr.t;
  dm_context : JStr.t;
  dm_confidence : Z
}.

Record display_action : Type := DisplayAction {
  da_action : JStr.t;
  da_responsible : JStr.t;
  da_confidence : Z
}.

Record display_decision : Type := DisplayDecision {
  dd_decision : JStr.t;
  dd_confidence : Z
}.

Record display : Type := Display {
  dp_summary : option JStr.t;
  dp_ticketMentions : list display_mention;
  dp_actionItems : list display_action;
  dp_keyDecisions : list display_decision;
  dp_participants : option (list JStr.t);
  dp_stats : processing_stats
}.

(** The three callbacks of [map]. *)
Definition format_mention (mention : mention) : display_mention :=
  DisplayMention (ticketId mention)
    (if 100 <? length (m_context mention)
     then substring 0 100 (m_context mention) ++ str "..."
     else m_context mention)
    (round (m_confidence mention * 100)).

Definition format_action (item : action_item) : display_action :=
  DisplayAction (action item)
    (if truthy (responsible item)
     then default [] (responsible item) else str "Unassigned")
    (round (a_confidence item * 100)).

Definition format_decision (decision : decision_item) : display_decision :=
  DisplayDecision (MeetingProcessor.decision decision)
    (round (d_confidence decision * 100)).

(** The [catch] clause throws the error of the validation again.  Past
    the validation the three arrays are there. *)
Definition formatForDisplay (data : meeting_data) : outcome display :=
  match validateProcessedData data with
  | Throw message => Throw message
  | Return _ =>
      Return
        (Display (data_summary data)
           (map format_mention (default [] (data_ticketMentions data)))
           (map format_action (default [] (data_actionItems data)))
           (map format_decision (default [] (data_keyDecisions data)))
           (data_participants data)
           (getProcessingStats data))
  end.

(** ** processForTicketContext *)

Record ticket_specific : Type := TicketSpecific {
  relevant : bool;
  ts_summary : JStr.t;
  ts_mentions : list mention;
  ts_actionItems : list action_item;
  ts_keyDecisions : list decision_item
}.

(** The transcript is passed and not looked at. *)
Definition generateTicketSpecificSummary (transcript : value)
    (ticketId : JStr.t) (mentions : list mention) : JStr.t :=
  let contexts := join (str " ") (map m_context mentions) in
  let ticketSummary := generateBasicSummary contexts (Some 300) in
  str "Discussion about " ++ ticketId ++ str ": " ++ ticketSummary.

(** The test shared by the two filters. *)
Definition about_ticket (ticketId text : JStr.t) : bool :=
  includes (toLowerCase ticketId) (toLowerCase text) ||
  includes (str "ticket") (toLowerCase text) ||
  includes (str "issue") (toLowerCase text).

Definition filterTicketSpecificActions (actionItems : list action_item)
    (ticketId : JStr.t) : list action_item :=
  List.filter (fun item => about_ticket ticketId (action item)) actionItems.

Definition filterTicketSpecificDecisions (decisions : list decision_item)
    (ticketId : JStr.t) : list decision_item :=
  List.filter (fun decision =>
                 about_ticket ticketId (MeetingProcessor.decision decision))
    decisions.

Section TicketContext.

Variable fuse_search :
  forall A : Type, (A -> JStr.t) -> Q -> list A -> JStr.t -> list A.

#[local] Existing Instance run_ret.
#[local] Existing Instance run_bind.

(** [ticketId] is a string.  The outcome is the record of [processMeeting]
    with the property [ticketSpecific] beside it; an error of
    [processMeeting] is thrown again as it is. *)
Definition processForTicketContext (now : JStr.t) (transcript : value)
    (ticketId : JStr.t) (tier : option JStr.t)
    : run (analysis * ticket_specific) :=
  generalProcessing ← processMeeting fuse_search now transcript tier;
  let relevantMentions :=
    List.filter (fun mention =>
                   bool_decide (MeetingProcessor.ticketId mention = ticketId))
      (ticketMentions generalProcessing) in
  if length relevantMentions =? 0 then
    mret (generalProcessing,
          TicketSpecific false
            (str "This meeting does not appear to discuss the specified ticket.")
            [] [] [])
  else
    let ticketSpecificSummary :=
      generateTicketSpecificSummary transcript ticketId relevantMentions in
    let ticketSpecificActions :=
      filterTicketSpecificActions (actionItems generalProcessing) ticketId in
    let ticketSpecificDecisions :=
      filterTicketSpecificDecisions (keyDecisions generalProcessing) ticketId in
    mret (generalProcessing,
          TicketSpecific true ticketSpecificSummary relevantMentions
            ticketSpecificActions ticketSpecificDecisions).

End TicketContext.

End MeetingProcessor.

(* ===================================================================== *)
(** * src/services/meeting-processor.js, class JiraService *)
(* ===================================================================== *)

Module JiraService.

(** [/^[A-Z]{2,10}-\d+$/] *)
Definition issue_key_pattern : pattern :=
  Pattern fl_plain
    (seq [RBol; RRep AZ 2 (Some 10) true; RSet (CChar "-"); plus CDigit; REol]).

Definition validateIssueKey (issueKey : JStr.t) : bool :=
  p_test issue_key_pattern issueKey.

End JiraService.

(* ===================================================================== *)
(** * src/services/TextProcessor.js *)
(* ===================================================================== *)

Module TextProcessor.

(** ** analyzeSentiment *)

Definition positiveWords : list string :=
  ["good"; "great"; "excellent"; "positive"; "success"; "complete"; "done";
   "resolved"].

Definition negativeWords : list string :=
  ["bad"; "problem"; "issue"; "fail"; "block"; "stuck"; "difficult";
   "concern"].

(** [(lowerText.match(new RegExp(word, 'g')) || []).length] *)
Definition matches (word : string) (lowerText : JStr.t) : nat :=
  length (p_exec_all (Pattern fl_plain (lit_chars word)) lowerText).

(** The value of [score] after the two loops. *)
Definition raw_score (text : JStr.t) : Z :=
  let lowerText := toLowerCase text in
  let score := 0%Z in
  let score :=
    foldl (fun score word => (score + Z.of_nat (matches word lowerText) * 1)%Z)
      score positiveWords in
  let score :=
    foldl (fun score word => (score - Z.of_nat (matches word lowerText) * 1)%Z)
      score negativeWords in
  score.

Definition analyzeSentiment (text : JStr.t) : Q :=
  let score := raw_score text in
  let wordCount := length (split_space text) in
  Qmax (-1) (Qmin 1 (inject_Z score / Qmax (Qnat wordCount * 0.1) 1)).

(** ** generateSummary *)

(** [this.ticketPattern], a global expression kept in the object: its
    [lastIndex] survives from one [test] to the next. *)
Definition ticketPattern : pattern :=
  Pattern fl_plain
    (seq [RWordB;
          RGroup 1
            (seq [RSet AZ; star (COr AZ (CRange "0" "9")); RSet (CChar "-");
                  plus CDigit]);
          RWordB]).

(** [p.test(s)] on a global expression whose [lastIndex] is [i]: the
    outcome and the new [lastIndex]. *)
Definition test_global (p : pattern) (s : JStr.t) (i : nat) : bool * nat :=
  match exec (p_flags p) (p_re p) s i with
  | Some m => (true, last m)
  | None => (false, 0)
  end.

Definition actionWords : list JStr.t :=
  map str ["will"; "should"; "need to"; "must"; "todo"; "action"; "assign";
           "follow up"].

Definition decisionWords : list JStr.t :=
  map str ["decided"; "agreed"; "conclusion"; "final"; "resolved";
           "determined"].

(** [words.some(word => text.includes(word))] *)
Definition some_included (ws : list JStr.t) (text : JStr.t) : bool :=
  existsb (fun word => includes word text) ws.

Record scored_item : Type :=
  ScoredItem { i_sentence : JStr.t; i_score : Double.t }.

(** The callback of [sentences.map], threading [ticketPattern.lastIndex]. *)
Definition score_item (n : nat) (lastIndex : nat) (sentence : JStr.t)
    (index : nat) : scored_item * nat :=
  let plus (score : Double.t) (k : Z) := Double.add score (Double.of_Z k) in
  let score := Double.zero in
  let score :=
    if Double.ltb (Double.of_nat index)
         (Double.mul (Double.of_nat n) (Double.decimal 3 10))
    then plus score 2%Z else score in
  let score :=
    if Double.ltb (Double.mul (Double.of_nat n) (Double.decimal 7 10))
         (Double.of_nat index)
    then plus score 1%Z else score in
  let text := toLowerCase sentence in
  let score := if some_included actionWords text then plus score 3%Z else score in
  let score := if some_included decisionWords text then plus score 3%Z else score in
  let '(hit, lastIndex) := test_global ticketPattern sentence lastIndex in
  let score := if hit then plus score 2%Z else score in
  let wordCount := length (split_space sentence) in
  let score :=
    if (10 <=? wordCount) && (wordCount <=? 30) then plus score 1%Z else score in
  (ScoredItem sentence score, lastIndex).

Fixpoint score_all (n : nat) (lastIndex : nat) (index : nat)
    (sentences : list JStr.t) : list scored_item * nat :=
  match sentences with
  | [] => ([], lastIndex)
  | s :: rest =>
      let '(x, lastIndex) := score_item n lastIndex s index in
      let '(xs, lastIndex) := score_all n lastIndex (S index) rest in
      (x :: xs, lastIndex)
  end.

Definition by_item_score (a b : scored_item) : bool :=
  Double.leb (Double.sub (i_score b) (i_score a)) Double.zero.

(** ** calculateConfidence *)

Definition calculateConfidence (context : JStr.t) : Q :=
  let wordCount := length (split_space context) in
  let hasActionWords := some_included actionWords (toLowerCase context) in
  let confidence := Qmin (Qnat wordCount / 20) 1 in
  let confidence := if hasActionWords then (confidence + 0.2)%Q else confidence in
  Qmin confidence 1.

(** ** extractTicketContext, extractTicketMentions *)

(** [/[.!?]+/] *)
Definition sentence_break : pattern :=
  Pattern fl_plain (plus (COr (CChar ".") (COr (CChar "!") (CChar "?")))).

(** The callback of [sentences.forEach]: what it pushes for the sentence
    at [index]. *)
Definition context_of_sentence (sentences : list JStr.t) (ticketId : JStr.t)
    (sentence : JStr.t) (index : nat) : list JStr.t :=
  if includes ticketId sentence then
    (if 0 <? index then [default [] (sentences !! (index - 1))] else []) ++
    [sentence] ++
    (if index <? length sentences - 1
     then [default [] (sentences !! (index + 1))] else [])
  else [].

Definition extractTicketContext (transcript ticketId : JStr.t) : JStr.t :=
  let sentences := split_re sentence_break transcript in
  let contextSentences :=
    concat (Arr.mapi (context_of_sentence sentences ticketId) sentences) in
  trim (join (str ". ") contextSentences).

Record ticket_mention : Type := TicketMention {
  t_ticketId : JStr.t;
  t_context : JStr.t;
  t_confidence : Q;
  t_sentiment : Q
}.

(** [[...new Set(items)]]: the items in the order of their first
    occurrence. *)
Definition unique (items : list JStr.t) : list JStr.t :=
  foldl (fun seen item => Arr.set_add item seen) [] items.

(** [transcript.match(this.ticketPattern) || []] starts at the beginning
    of the text whatever [lastIndex] was. *)
Definition extractTicketMentions (transcript : JStr.t) : list ticket_mention :=
  let matches := map whole (p_exec_all ticketPattern transcript) in
  let uniqueTickets := unique matches in
  map (fun ticket =>
         let context := extractTicketContext transcript ticket in
         TicketMention ticket context (calculateConfidence context)
           (analyzeSentiment context))
    uniqueTickets.

(** ** extractKeyDecisions *)

Definition extractKeyDecisions (transcript : JStr.t) : list JStr.t :=
  let sentences := split_re sentence_break transcript in
  let decisions :=
    foldl (fun decisions sentence =>
             let lowerSentence := toLowerCase sentence in
             if some_included decisionWords lowerSentence
             then decisions ++ [trim sentence] else decisions)
      [] sentences in
  take 5 (List.filter (fun item => 10 <? length item) (unique decisions)).

(** ** extractActionItems *)

Section NlpVerbs.

(** The verbs the nlp-compromise library finds in a sentence:
    [nlp(sentence).verbs().data().length]. *)
Variable nlp_verbs : JStr.t -> nat.

Definition extractActionItems (transcript : JStr.t) : list JStr.t :=
  let sentences := split_re sentence_break transcript in
  let actionItems :=
    foldl (fun actionItems sentence =>
             let lowerSentence := toLowerCase sentence in
             if some_included actionWords lowerSentence then
               if 0 <? nlp_verbs sentence
               then actionItems ++ [trim sentence] else actionItems
             else actionItems)
      [] sentences in
  take 10 (List.filter (fun item => 10 <? length item) (unique actionItems)).

End NlpVerbs.

Section Nlp.

(** The sentence segmentation of the nlp-compromise library:
    [nlp(transcript).sentences().data()], each entry by its [text].  The
    library is taken not to throw, so that the fallback of the [catch]
    clause is never reached. *)
Variable nlp_sentences : JStr.t -> list JStr.t.

(** [scoredSentences.sort(...).slice(0, 3)], and the [lastIndex] left in
    [ticketPattern]. *)
Definition top_three (transcript : JStr.t) (lastIndex : nat)
    : list scored_item * nat :=
  let sentences := nlp_sentences transcript in
  let '(scoredSentences, lastIndex) :=
    score_all (length sentences) lastIndex 0 sentences in
  (take 3 (Arr.sort by_item_score scoredSentences), lastIndex).

Definition generateSummary (transcript : JStr.t) (lastIndex : nat)
    : JStr.t * nat :=
  let '(topSentences, lastIndex) := top_three transcript lastIndex in
  (join (str " ") (map i_sentence topSentences), lastIndex).

End Nlp.

End TextProcessor.

(* ===================================================================== *)
(** * What a match looks like *)
(* ===================================================================== *)

Module RegExpSpec.

Section Accepts.
Variable fl : flags.

(** [accepts r w caps]: the expression can consume the text [w], recording
    the captures [caps] (the latest first) on the way.  Assertions are left
    aside. *)
Fixpoint accepts (r : regex) (w : JStr.t) (caps : list (nat * JStr.t)) : Prop :=
  match r with
  | REmpty | RWordB | RBol | REol => w = [] /\ caps = []
  | RSet cs => (exists c, w = [c] /\ cs_match fl cs c = true) /\ caps = []
  | RRep cs lo hi _ =>
      (Forall (fun c => cs_match fl cs c = true) w /\ lo <= length w /\
       match hi with Some h => length w <= h | None => True end) /\ caps = []
  | RSeq r1 r2 =>
      exists w1 w2 c1 c2,
        w = w1 ++ w2 /\ caps = c2 ++ c1 /\ accepts r1 w1 c1 /\ accepts r2 w2 c2
  | RAlt r1 r2 => accepts r1 w caps \/ accepts r2 w caps
  | RGroup i r1 => exists c1, caps = (i, w) :: c1 /\ accepts r1 w c1
  end.

End Accepts.

(** The least number of characters a match consumes. *)
Fixpoint minlen (r : regex) : nat :=
  match r with
  | RSet _ => 1
  | RRep _ lo _ _ => lo
  | RSeq r1 r2 => minlen r1 + minlen r2
  | RAlt r1 r2 => min (minlen r1) (minlen r2)
  | RGroup _ r1 => minlen r1
  | _ => 0
  end.

(** Group [i] lies on every path through the expression. *)
Fixpoint always_captures (i : nat) (r : regex) : bool :=
  match r with
  | RGroup j r1 => bool_decide (i = j) || always_captures i r1
  | RSeq r1 r2 => always_captures i r1 || always_captures i r2
  | RAlt r1 r2 => always_captures i r1 && always_captures i r2
  | _ => false
  end.

End RegExpSpec.

Import RegExpSpec.

(* ===================================================================== *)
(** * Vocabulary of the statements *)
(* ===================================================================== *)

Import MeetingProcessor.

(** ** Ticket mentions *)

(** A project key of 2 to 10 letters, a dash, one digit or more. *)
Definition ticket_shape (id : JStr.t) : Prop :=
  exists key num,
    id = key ++ str "-" ++ num /\
    2 <= length key <= 10 /\ Forall (fun c => is_letter c = true) key /\
    1 <= length num /\ Forall (fun c => is_digit c = true) num.

(** The loop keeps [mentions] equal to the set of ids in
    [mentionDetails], and never stores an id twice. *)
Definition mentions_inv (st : gset JStr.t * list mention) : Prop :=
  (forall id, id ∈ st.1 <-> id ∈ map ticketId st.2) /\
  NoDup (map ticketId st.2).

(** Where the entries come from. *)
Definition from_match (ms : list result) (x : mention) : Prop :=
  exists m, m ∈ ms /\ match_ticketId m = Some (ticketId x) /\
            position x = index m.


(** The matches in the order the loops visit them. *)
Definition scan (transcript : JStr.t) (patterns : list pattern) : list result :=
  concat (map (fun p => p_exec_all p transcript) patterns).


(** ** Participants *)


(** ** Confidence *)

(** How many of the indicators test true on a text. *)
Definition hits (indicators : list pattern) (text : JStr.t) : nat :=
  length (List.filter (fun p => p_test p text) indicators).

(** Between 0 and 1, both included. *)
Definition unit_interval (q : Q) : Prop := (0 <= q <= 1)%Q.

(** A search returns items of the collection it was built on. *)
Definition fuse_returns_items
    (fuse_search : forall A : Type, (A -> JStr.t) -> Q -> list A -> JStr.t -> list A)
    : Prop :=
  forall (A : Type) (key : A -> JStr.t) (threshold : Q) (items : list A)
         (query : JStr.t) (x : A),
    x ∈ fuse_search A key threshold items query -> x ∈ items.

(** A search to run examples with: the items whose key is the query. *)
Definition exact_search :
    forall A : Type, (A -> JStr.t) -> Q -> list A -> JStr.t -> list A :=
  fun A key _ items query =>
    List.filter (fun x => bool_decide (key x = query)) items.

(** ** The pipeline *)

(** The record [processMeeting] assembles from the cleaned text. *)
Definition analysis_of
    (fuse_search : forall A : Type, (A -> JStr.t) -> Q -> list A -> JStr.t -> list A)
    (now tier cleaned : JStr.t) (summaryLength : option nat) : analysis :=
  Analysis cleaned
    (extractTicketMentions cleaned)
    (generateBasicSummary cleaned summaryLength)
    (extractActionItems fuse_search cleaned)
    (extractKeyDecisions fuse_search cleaned)
    (identifyParticipants cleaned)
    tier now (length (split_space cleaned)).

(** The methods called on a run that gets past [cleanTranscript]. *)
Definition calls_of (tier : JStr.t) : list string :=
  ["cleanTranscript"; "extractTicketMentions"] ++
  (if decide (tier = str "ai")
   then ["generateAISummary"; "generateBasicSummary"]
   else ["generateBasicSummary"]) ++
  ["extractActionItems"; "extractKeyDecisions"; "identifyParticipants"].

(** A run with the [processingTier] of its record replaced. *)
Definition with_tier (tier : JStr.t) (r : run analysis) : run analysis :=
  (r.1,
   match r.2 with
   | Return a =>
       Return (Analysis (transcript a) (ticketMentions a) (summary a)
                 (actionItems a) (keyDecisions a) (participants a)
                 tier (processedAt a) (wordCount a))
   | Throw e => Throw e
   end).

(** ** The summary *)

(** Earlier in the transcript. *)
Definition earlier (a b : scored) : Prop := s_index a < s_index b.

(** The array [scoredSentences] of [generateBasicSummary]. *)
Definition scored_of (sentences : list JStr.t) : list scored :=
  Arr.mapi (score_sentence (length sentences)) sentences.

(** ** White space, in the words of the specification *)

Module Whitespace.

(** The white space characters: TAB, LF, VT, FF, CR, the space and the
    no-break space. *)
Definition blank (c : ascii) : bool :=
  bool_decide (nat_of_ascii c ∈ [9; 10; 11; 12; 13; 32; 160]).

(** The text with its runs of white space collapsed: the characters that
    are not white space are copied, and one space is written between two
    of them that white space separates.  [written] says that a character
    has been copied already, [gap] that white space was passed since. *)
Fixpoint collapse_from (written gap : bool) (s : JStr.t) : JStr.t :=
  match s with
  | [] => []
  | c :: s' =>
      if blank c then collapse_from written true s'
      else
        (if written && gap then [" "%char] else []) ++
        c :: collapse_from true false s'
  end.

Definition collapse (s : JStr.t) : JStr.t := collapse_from false false s.

End Whitespace.

Import Whitespace.

(** A space written ahead of what follows, when something follows. *)
Definition spaced (s : JStr.t) : JStr.t :=
  match s with [] => [] | _ => " "%char :: s end.

(** ** Sentences in the order of the text *)

(** The texts are found in the text one after the other, from left to
    right and without overlap. *)
Fixpoint in_text_order (parts : list JStr.t) (text : JStr.t) : Prop :=
  match parts with
  | [] => True
  | part :: parts' =>
      exists before after,
        text = before ++ part ++ after /\ in_text_order parts' after
  end.

(** ** Sentiment, in the words of the specification *)

Module SentimentSpec.

(** The number of occurrences of a word in a text as it is written,
    counted from left to right, an occurrence starting no earlier than
    where the one before ended.  [skip] is what is left of the occurrence
    just counted. *)
Fixpoint occurrences_from (w : JStr.t) (skip : nat) (s : JStr.t) : nat :=
  match s with
  | [] => 0
  | _ :: s' =>
      match skip with
      | S k => occurrences_from w k s'
      | 0 =>
          if prefix_here w s then S (occurrences_from w (length w - 1) s')
          else occurrences_from w 0 s'
      end
  end.

Definition occurrences (w s : JStr.t) : nat := occurrences_from w 0 s.

Definition total_occurrences (ws : list string) (s : JStr.t) : nat :=
  sum_list (map (fun w => occurrences (str w) s) ws).

(** The occurrences of the positive words of the source minus those of
    its negative words, in the lower-cased text. *)
Definition net_score (text : JStr.t) : Z :=
  (Z.of_nat (total_occurrences TextProcessor.positiveWords (toLowerCase text))
   - Z.of_nat (total_occurrences TextProcessor.negativeWords (toLowerCase text)))%Z.

(** Where the first occurrence starts. *)
Fixpoint find (w s : JStr.t) : option nat :=
  if prefix_here w s then Some 0
  else match s with
       | [] => None
       | _ :: s' => S <$> find w s'
       end.

(** The two fixed word lists of the specification. *)
Definition positive : list string :=
  ["good"; "great"; "excellent"; "positive"; "success"; "complete"; "done";
   "resolved"].

Definition negative : list string :=
  ["bad"; "problem"; "issue"; "fail"; "block"; "stuck"; "difficult";
   "concern"].

(** A letter of the alphabet, by its code: a capital or a small letter. *)
Definition alphabetic (c : ascii) : bool :=
  let n := nat_of_ascii c in
  ((65 <=? n) && (n <=? 90)) || ((97 <=? n) && (n <=? 122)).

(** The same character, or the same letter in the other case: the codes
    of a capital and of its small letter are 32 apart. *)
Definition same_letter (a b : ascii) : bool :=
  let m := nat_of_ascii a in
  let n := nat_of_ascii b in
  (m =? n) ||
  (alphabetic a && alphabetic b && ((m + 32 =? n) || (n + 32 =? m))).

(** The word is written at the head of the text, in whatever case. *)
Fixpoint starts_with (w s : JStr.t) : bool :=
  match w, s with
  | [], _ => true
  | a :: w', c :: s' => same_letter a c && starts_with w' s'
  | _ :: _, [] => false
  end.

(** The occurrences of a word in a text, case left aside, counted from
    left to right, an occurrence starting no earlier than where the one
    before ended.  [skip] is what is left of the occurrence just
    counted. *)
Fixpoint count_from (w : JStr.t) (skip : nat) (s : JStr.t) : nat :=
  match s with
  | [] => 0
  | _ :: s' =>
      match skip with
      | S k => count_from w k s'
      | 0 =>
          if starts_with w s then S (count_from w (length w - 1) s')
          else count_from w 0 s'
      end
  end.

Definition count (w : string) (s : JStr.t) : nat := count_from (str w) 0 s.

(** Positive occurrences minus negative ones. *)
Definition net (text : JStr.t) : Z :=
  (Z.of_nat (sum_list (map (fun w => count w text) positive))
   - Z.of_nat (sum_list (map (fun w => count w text) negative)))%Z.

(** The words of a text are what its spaces separate: one more than
    there are spaces. *)
Definition word_count (text : JStr.t) : nat :=
  S (length (List.filter (fun c => (nat_of_ascii c =? 32)) text)).

(** The net score over [max(wordCount * 0.1, 1)], clamped to [-1, 1]. *)
Definition sentiment (text : JStr.t) : Q :=
  Qmax (-1)
    (Qmin 1 (inject_Z (net text) / Qmax (Qnat (word_count text) * 0.1) 1)).

End SentimentSpec.

Import SentimentSpec.

(** ** Characters *)

(** The 256 code units. *)
Definition all_chars : list ascii := map ascii_of_nat (List.seq 0 256).

(** ** Loops *)

(** The expressions that drive a [while (exec)] loop, a [replace], a
    [split] or a global [match]. *)
Definition looping_patterns : list pattern :=
  [whitespace_run; sentence_end] ++ ticket_patterns ++ actionPatterns ++
  decisionPatterns ++ namePatterns ++
  map (fun w => Pattern fl_plain (lit_chars w))
    (TextProcessor.positiveWords ++ TextProcessor.negativeWords).

(** ** Worked inputs *)

(** The end-to-end scenario of the specification. *)
Definition standup : JStr.t :=
  str ("We discussed PROJ-45 today. John said he will fix PROJ-45 by Friday. " ++
       "We decided to use the new API. Jane mentioned the tests are failing.").

(** A transcript of 10001 words, each followed by a space and a TAB, after
    a leading space: 60007 characters, and 50004 once the white space is
    collapsed, which is over the limit of the 'basic' tier. *)
Definition long_transcript : JStr.t :=
  " "%char :: concat (replicate 10001 (str "word " ++ ["009"%char])).

(** A transcript of four sentences whose first sentence alone is longer
    than the summary limit of the 'basic' tier.  The first two sentences
    score about 0.3 each, the other two 0 and 0.2, so that the two selected
    are the first two whatever the rounding. *)
Definition long_sentence_transcript : JStr.t :=
  str "We will " ++ replicate 501 "a"%char ++
  str ". Second short sentence. Third short sentence. Fourth short sentence.".

(** A transcript of four sentences, the last of which scores highest in
    both summaries. *)
Definition four_sentences : JStr.t :=
  str "Alpha one is here. Beta two is here. Gamma three is here. We decided four today.".

(** ** Runs of a class of characters *)

(** The text with every maximal run of characters of a class replaced by
    [rep]; [in_run] says that the character before belonged to a run. *)
Fixpoint replace_runs (f : ascii -> bool) (rep : JStr.t) (in_run : bool)
    (s : JStr.t) : JStr.t :=
  match s with
  | [] => []
  | c :: s' =>
      if f c then
        if in_run then replace_runs f rep true s'
        else rep ++ replace_runs f rep true s'
      else c :: replace_runs f rep false s'
  end.

(** The pieces between the maximal runs of characters of a class; [cur]
    is the piece being read, last character first. *)
Fixpoint split_runs (f : ascii -> bool) (in_run : bool) (cur : JStr.t)
    (s : JStr.t) : list JStr.t :=
  match s with
  | [] => [reverse cur]
  | c :: s' =>
      if f c then
        if in_run then split_runs f true [] s'
        else reverse cur :: split_runs f true [] s'
      else split_runs f false (c :: cur) s'
  end.

(** The longest prefix made of characters of a class, and what follows
    it. *)
Fixpoint run_of (f : ascii -> bool) (s : JStr.t) : JStr.t :=
  match s with
  | c :: s' => if f c then c :: run_of f s' else []
  | [] => []
  end.

Fixpoint after_run (f : ascii -> bool) (s : JStr.t) : JStr.t :=
  match s with
  | c :: s' => if f c then after_run f s' else s
  | [] => []
  end.

(** Whether [n] is within the upper bound of a quantifier. *)
Definition within (hi : option nat) (n : nat) : bool :=
  match hi with Some h => n <=? h | None => true end.

(** One match after the other, from left to right. *)
Definition left_to_right (a b : result) : Prop := last a <= index b.

(** ** Texts *)

(** A part of a text. *)
Definition piece_of (part text : JStr.t) : Prop :=
  exists pre post, text = pre ++ part ++ post.

(** No white space at the start; at the end when said of the reversed
    text. *)
Definition starts_clean (s : JStr.t) : Prop :=
  match s with c :: _ => is_space c = false | [] => True end.

(** The white space of the text is single space characters: every white
    space character is a space, and what follows it is not white space. *)
Fixpoint single_spaced (s : JStr.t) : bool :=
  match s with
  | [] => true
  | c :: s' =>
      (negb (is_space c) ||
       (bool_decide (c = " "%char) &&
        match s' with d :: _ => negb (is_space d) | [] => true end))
      && single_spaced s'
  end.

(** The characters that are not white space, in order. *)
Definition ink (s : JStr.t) : JStr.t :=
  List.filter (fun c => negb (is_space c)) s.

(** A word: one character or more, none of them white space. *)
Definition word (w : JStr.t) : Prop :=
  w <> [] /\ Forall (fun c => is_space c = false) w.

(** ** Entries as the loops build them *)

Definition mention_built (transcript : JStr.t) (x : mention) : Prop :=
  m_context x = extractMentionContext transcript (position x) (ticketId x) /\
  m_confidence x = calculateMentionConfidence (m_context x) (ticketId x) /\
  position x < length transcript.

Definition action_built (transcript : JStr.t) (x : action_item) : Prop :=
  10 < length (action x) < 300 /\
  trim (action x) = action x /\
  responsible x = extractResponsiblePerson (action x) /\
  a_confidence x = calculateActionConfidence (action x) /\
  exists position, position < length transcript /\
    a_context x = extractActionContext transcript position.

Definition decision_built (transcript : JStr.t) (x : decision_item) : Prop :=
  10 < length (decision x) < 300 /\
  trim (decision x) = decision x /\
  d_confidence x = calculateDecisionConfidence (decision x) /\
  exists position, position < length transcript /\
    d_context x = extractDecisionContext transcript position.

(** Higher confidence first. *)
Definition by_confidence {A} (confidence : A -> Q) (a b : A) : Prop :=
  (confidence b <= confidence a)%Q.

(** ** The record as an argument *)

(** The record of [processMeeting] passed as [data]. *)
Definition data_of (a : analysis) : meeting_data :=
  MeetingData (Some (transcript a)) (Some (summary a))
    (Some (ticketMentions a)) (Some (actionItems a)) (Some (keyDecisions a))
    (Some (participants a)) (Some (processingTier a)) (Some (processedAt a))
    (Some (wordCount a)).

(** The summary of a text of less than 50 characters. *)
Definition too_short_summary : JStr.t :=
  str "Meeting transcript too short to summarize.".

(** ** Issue keys and ticket ids *)

(** 2 to 10 capital letters, a dash, one digit or more. *)
Definition issue_key_shape (k : JStr.t) : Prop :=
  exists key num,
    k = key ++ str "-" ++ num /\
    2 <= length key <= 10 /\ Forall (fun c => is_upper c = true) key /\
    1 <= length num /\ Forall (fun c => is_digit c = true) num.

(** What [TextProcessor.ticketPattern] matches: a capital letter, capital
    letters and digits, a dash, one digit or more. *)
Definition pattern_ticket_shape (id : JStr.t) : Prop :=
  exists first body num,
    id = first :: body ++ str "-" ++ num /\
    is_upper first = true /\
    Forall (fun c => is_upper c = true \/ is_digit c = true) body /\
    1 <= length num /\ Forall (fun c => is_digit c = true) num.

(** ** Sentences of the text processor *)

(** A sentence that is kept: more than 10 characters, trimmed, a part of
    the transcript without sentence punctuation, holding one of the words
    whatever the case. *)
Definition kept_sentence (ws : list JStr.t) (transcript item : JStr.t) : Prop :=
  10 < length item /\ trim item = item /\ piece_of item transcript /\
  Forall (fun c => c ∉ ["."%char; "!"%char; "?"%char]) item /\
  TextProcessor.some_included ws (toLowerCase item) = true.

(** ** Proof steps used more than once *)

Ltac break :=
  repeat match goal with
    | H : _ /\ _ |- _ => destruct H
    | H : exists _, _ |- _ => destruct H
    | H : _ \/ _ |- _ => destruct H
    end; subst.

Ltac each_char c := destruct c as [[] [] [] [] [] [] [] []]; vm_compute.

(* ===================================================================== *)
(** * Properties of the matcher *)
(* ===================================================================== *)

Section MatcherFacts.
Variable fl : flags.

Lemma rep_greedy_sound cs lo hi after : forall n before caps k res,
  rep_greedy fl cs lo hi n before after caps k = Some res ->
  exists w rest,
    after = w ++ rest /\
    Forall (fun c => cs_match fl cs c = true) w /\
    lo <= n + length w /\
    match hi with Some h => n <= h -> n + length w <= h | None => True end /\
    k (MState (reverse w ++ before) rest caps) = Some res.
Proof.
  induction after as [|c after IH]; intros n before caps k res H.
  - exists [], []. simpl in H.
    assert (Hs : (if (lo <=? n) then k (MState before [] caps) else None) = Some res).
    { destruct hi as [h|]; [destruct (n <? h)|]; exact H. }
    destruct (Nat.leb_spec lo n); [|discriminate].
    repeat split; auto; [simpl; lia|destruct hi; auto; simpl; lia].
  - simpl in H.
    set (stop := if lo <=? n then k (MState before (c :: after) caps) else None) in *.
    assert (Hstop : stop = Some res ->
      exists w rest, c :: after = w ++ rest /\
        Forall (fun c => cs_match fl cs c = true) w /\ lo <= n + length w /\
        match hi with Some h => n <= h -> n + length w <= h | None => True end /\
        k (MState (reverse w ++ before) rest caps) = Some res).
    { unfold stop. intros Hs. destruct (Nat.leb_spec lo n); [|discriminate].
      exists [], (c :: after). repeat split; auto; [simpl; lia|].
      destruct hi; auto; simpl; lia. }
    destruct (match hi with Some h => n <? h | None => true end) eqn:Hhi; [|auto].
    destruct (cs_match fl cs c) eqn:Hc; [|auto].
    destruct (rep_greedy fl cs lo hi (S n) (c :: before) after caps k) eqn:Hrec; [|auto].
    injection H as ->.
    apply IH in Hrec as (w & rest & -> & Hw & Hlo & Hh & Hk).
    exists (c :: w), rest. repeat split; auto.
    + simpl; lia.
    + destruct hi as [h|]; auto. apply Nat.ltb_lt in Hhi. simpl. lia.
    + rewrite reverse_cons, <- app_assoc. exact Hk.
Qed.

Lemma rep_lazy_sound cs lo hi after : forall n before caps k res,
  rep_lazy fl cs lo hi n before after caps k = Some res ->
  exists w rest,
    after = w ++ rest /\
    Forall (fun c => cs_match fl cs c = true) w /\
    lo <= n + length w /\
    match hi with Some h => n <= h -> n + length w <= h | None => True end /\
    k (MState (reverse w ++ before) rest caps) = Some res.
Proof.
  induction after as [|c after IH]; intros n before caps k res H.
  - exists [], []. simpl in H.
    assert (Hs : (lo <=? n) = true /\ k (MState before [] caps) = Some res).
    { destruct (lo <=? n); [destruct (k (MState before [] caps))|];
        destruct hi as [h|]; try destruct (n <? h); try discriminate; auto. }
    destruct Hs as [Hlo Hk]. apply Nat.leb_le in Hlo.
    repeat split; auto; [simpl; lia|destruct hi; auto; simpl; lia].
  - simpl in H.
    set (more := if match hi with Some h => n <? h | None => true end
                 then if cs_match fl cs c
                      then rep_lazy fl cs lo hi (S n) (c :: before) after caps k
                      else None
                 else None) in *.
    assert (Hmore : more = Some res ->
      exists w rest, c :: after = w ++ rest /\
        Forall (fun c => cs_match fl cs c = true) w /\ lo <= n + length w /\
        match hi with Some h => n <= h -> n + length w <= h | None => True end /\
        k (MState (reverse w ++ before) rest caps) = Some res).
    { unfold more. intros Hm.
      destruct (match hi with Some h => n <? h | None => true end) eqn:Hhi;
        [|discriminate].
      destruct (cs_match fl cs c) eqn:Hc; [|discriminate].
      apply IH in Hm as (w & rest & -> & Hw & Hlo & Hh & Hk).
      exists (c :: w), rest. repeat split; auto.
      - simpl; lia.
      - destruct hi as [h|]; auto. apply Nat.ltb_lt in Hhi. simpl. lia.
      - rewrite reverse_cons, <- app_assoc. exact Hk. }
    destruct (Nat.leb_spec lo n); [|auto].
    destruct (k (MState before (c :: after) caps)) eqn:Hk; [|auto].
    injection H as ->.
    exists [], (c :: after). repeat split; auto; [simpl; lia|].
    destruct hi; auto; simpl; lia.
Qed.

(** Soundness of the matcher: a successful run consumed a text the
    expression accepts, recorded the captures that go with it, and handed
    the state after it to the continuation. *)
Lemma rmatch_sound r : forall st k res,
  rmatch fl r st k = Some res ->
  exists w rest new,
    m_after st = w ++ rest /\
    accepts fl r w new /\
    k (MState (reverse w ++ m_before st) rest (new ++ m_caps st)) = Some res.
Proof.
  induction r as [|cs|cs lo hi greedy|r1 IH1 r2 IH2|r1 IH1 r2 IH2|i r1 IH1| | |];
    intros [before after caps] k res H; simpl in *.
  - exists [], after, []. auto.
  - destruct after as [|c rest]; [discriminate|].
    destruct (cs_match fl cs c) eqn:Hc; [|discriminate].
    exists [c], rest, []. repeat split; eauto.
  - assert (Hs : exists w rest, after = w ++ rest /\
        Forall (fun c => cs_match fl cs c = true) w /\ lo <= 0 + length w /\
        match hi with Some h => 0 <= h -> 0 + length w <= h | None => True end /\
        k (MState (reverse w ++ before) rest caps) = Some res).
    { destruct greedy; [apply rep_greedy_sound|apply rep_lazy_sound]; exact H. }
    destruct Hs as (w & rest & -> & Hw & Hlo & Hh & Hk).
    exists w, rest, []. repeat split; auto.
    destruct hi; auto. simpl in Hh. lia.
  - apply IH1 in H as (w1 & rest1 & new1 & Ha & Hl1 & H). simpl in Ha.
    apply IH2 in H as (w2 & rest2 & new2 & Hb & Hl2 & H). simpl in Hb.
    subst. exists (w1 ++ w2), rest2, (new2 ++ new1). repeat split.
    + by rewrite <- app_assoc.
    + exists w1, w2, new1, new2. auto.
    + simpl in H. by rewrite reverse_app, <- !app_assoc.
  - destruct (rmatch fl r1 (MState before after caps) k) eqn:H1.
    + injection H as ->.
      apply IH1 in H1 as (w & rest & new & Ha & Hl & H).
      exists w, rest, new. auto.
    + apply IH2 in H as (w & rest & new & Ha & Hl & H).
      exists w, rest, new. auto.
  - apply IH1 in H as (w & rest & new & Ha & Hl & H). simpl in Ha. subst.
    exists w, rest, ((i, w) :: new). repeat split; eauto.
    revert H. unfold set_cap, consumed, pos. simpl.
    rewrite length_app, length_reverse.
    replace (length w + length before - length before) with (length w) by lia.
    by rewrite take_app_length.
  - destruct (at_word_boundary (MState before after caps)); [|discriminate].
    exists [], after, []. auto.
  - destruct before; [|discriminate]. exists [], after, []. auto.
  - destruct after; [|discriminate]. exists [], [], []. auto.
Qed.

Lemma accepts_minlen r : forall w caps, accepts fl r w caps -> minlen r <= length w.
Proof.
  induction r as [|cs|cs lo hi greedy|r1 IH1 r2 IH2|r1 IH1 r2 IH2|i r1 IH1| | |];
    intros w caps H; simpl in *; try (destruct H; subst; simpl; lia).
  - destruct H as [(c & -> & _) _]. simpl; lia.
  - destruct H as (w1 & w2 & c1 & c2 & -> & _ & H1 & H2).
    apply IH1 in H1. apply IH2 in H2. rewrite length_app. lia.
  - destruct H as [H|H]; [apply IH1 in H|apply IH2 in H]; lia.
  - destruct H as (c1 & _ & H). eauto.
Qed.

Lemma assoc_app_is_Some i (c1 c2 : list (nat * JStr.t)) :
  is_Some (assoc i c1) \/ is_Some (assoc i c2) -> is_Some (assoc i (c1 ++ c2)).
Proof.
  induction c1 as [|[j v] c1 IH]; simpl.
  - intros [[? [=]]|H]; exact H.
  - destruct (decide (i = j)); [eauto|]. exact IH.
Qed.

(** A group that lies on every path is set by every match. *)
Lemma accepts_captures i r : forall w caps,
  accepts fl r w caps -> always_captures i r = true -> is_Some (assoc i caps).
Proof.
  induction r as [|cs|cs lo hi greedy|r1 IH1 r2 IH2|r1 IH1 r2 IH2|j r1 IH1| | |];
    intros w caps H Hc; simpl in *; try discriminate.
  - destruct H as (w1 & w2 & c1 & c2 & -> & -> & H1 & H2).
    apply assoc_app_is_Some.
    apply orb_true_iff in Hc as [Hc|Hc]; [right|left]; eauto.
  - apply andb_true_iff in Hc as [Hc1 Hc2]. destruct H; eauto.
  - destruct H as (c1 & -> & H). simpl.
    destruct (decide (i = j)); [eauto|].
    rewrite bool_decide_false in Hc by done. eauto.
Qed.

End MatcherFacts.

Section ExecFacts.
Variable fl : flags.

Lemma search_sound r after : forall before m,
  search fl r before after = Some m ->
  exists skipped rest,
    after = skipped ++ whole m ++ rest /\
    index m = length before + length skipped /\
    last m = index m + length (whole m) /\
    accepts fl r (whole m) (groups m).
Proof.
  induction after as [|c after IH]; intros before m H; simpl in H.
  - destruct (rmatch fl r (MState before [] []) Some) as [st'|] eqn:Hm;
      [|discriminate].
    injection H as <-.
    apply rmatch_sound in Hm as (w & rest & new & Ha & Hl & Hk).
    simpl in *. injection Hk as <-.
    exists [], rest. unfold consumed, pos; simpl.
    rewrite length_app, length_reverse, Ha.
    replace (length w + length before - length before) with (length w) by lia.
    rewrite take_app_length, app_nil_r. repeat split; auto; lia.
  - destruct (rmatch fl r (MState before (c :: after) []) Some) as [st'|] eqn:Hm.
    + injection H as <-.
      apply rmatch_sound in Hm as (w & rest & new & Ha & Hl & Hk).
      simpl in *. injection Hk as <-.
      exists [], rest. unfold consumed, pos; simpl.
      rewrite length_app, length_reverse, Ha.
      replace (length w + length before - length before) with (length w) by lia.
      rewrite take_app_length, app_nil_r. repeat split; auto; lia.
    + apply IH in H as (skipped & rest & Ha & Hi & Hl & Hw).
      exists (c :: skipped), rest. simpl in *. rewrite Ha.
      repeat split; auto; lia.
Qed.

(** What [exec] promises about a match. *)
Lemma exec_sound r s i m :
  exec fl r s i = Some m ->
  i <= index m /\
  last m = index m + length (whole m) /\
  last m <= length s /\
  accepts fl r (whole m) (groups m).
Proof.
  unfold exec. destruct (Nat.ltb_spec (length s) i); [discriminate|].
  intros Hs. apply search_sound in Hs as (skipped & rest & Ha & Hi & Hl & Hw).
  rewrite length_reverse, length_take in Hi.
  assert (Hlen : length (drop i s) = length skipped + length (whole m) + length rest).
  { rewrite Ha, !length_app. lia. }
  rewrite length_drop in Hlen.
  repeat split; auto; lia.
Qed.

(** The loop over the matches of a global expression ends: when every
    match consumes at least one character, [length s - i + 1] rounds are
    enough, and more fuel changes nothing. *)
Lemma exec_loop_fuel r s : 1 <= minlen r ->
  forall fuel fuel' i,
    length s - i < fuel -> length s - i < fuel' ->
    exec_loop fl fuel r s i = exec_loop fl fuel' r s i.
Proof.
  intros Hmin. induction fuel as [|fuel IH]; intros fuel' i H H'; [lia|].
  destruct fuel' as [|fuel']; [lia|]. simpl.
  destruct (exec fl r s i) as [m|] eqn:He; [|done].
  f_equal. apply exec_sound in He as (Hi & Hl & Hs & Hw).
  apply accepts_minlen in Hw. apply IH; lia.
Qed.

Lemma exec_all_fuel r s fuel : 1 <= minlen r -> length s < fuel ->
  exec_all fl r s = exec_loop fl fuel r s 0.
Proof. intros. apply exec_loop_fuel; auto; lia. Qed.

(** Every match listed by the loop is a match as [exec] promises. *)
Lemma exec_loop_sound r s fuel : forall i m,
  m ∈ exec_loop fl fuel r s i ->
  last m = index m + length (whole m) /\
  last m <= length s /\
  accepts fl r (whole m) (groups m).
Proof.
  induction fuel as [|fuel IH]; intros i m; simpl; [by intros ?%elem_of_nil|].
  destruct (exec fl r s i) as [m'|] eqn:He; [|by intros ?%elem_of_nil].
  intros [->|Hin]%elem_of_cons; [|eauto].
  apply exec_sound in He. tauto.
Qed.

End ExecFacts.

Lemma p_exec_all_sound p s m :
  m ∈ p_exec_all p s -> accepts (p_flags p) (p_re p) (whole m) (groups m).
Proof. intros H. apply exec_loop_sound in H. tauto. Qed.


(* ===================================================================== *)
(** * Loops *)
(* ===================================================================== *)

(** A property that every round of a loop keeps holds when the loop is
    over. *)
Lemma foldl_inv {A B} (P : A -> Prop) (f : A -> B -> A) (l : list B) (a : A) :
  P a -> (forall a x, x ∈ l -> P a -> P (f a x)) -> P (foldl f a l).
Proof.
  revert a. induction l as [|x l IH]; intros a Ha Hf; simpl; [done|].
  apply IH.
  - apply Hf; [left|done].
  - intros a' y Hy. apply Hf. by right.
Qed.

(* ===================================================================== *)
(** * Character classes *)
(* ===================================================================== *)

Lemma match_AZ_letter fl c : cs_match fl AZ c = true -> is_letter c = true.
Proof. destruct fl as [[]]; each_char c; auto. Qed.

Lemma match_az_letter fl c : cs_match fl az c = true -> is_letter c = true.
Proof. destruct fl as [[]]; each_char c; auto. Qed.

Lemma match_digit fl c : cs_match fl CDigit c = true -> is_digit c = true.
Proof. destruct fl as [[]]; auto. Qed.

Lemma match_dash fl c : cs_match fl (CChar "-") c = true -> c = "-"%char.
Proof. destruct fl as [[]]; each_char c; auto; discriminate. Qed.

(* ===================================================================== *)
(** * The loops over the matches end *)
(* ===================================================================== *)

(** Each looping expression consumes at least one character per match. *)
Lemma loops_consume : Forall (fun p => 1 <= minlen (p_re p)) looping_patterns.
Proof. repeat constructor. Qed.

(** So the fuel of [exec_all] is never what ends such a loop: with any
    larger amount the matches are the same. *)
Lemma loops_end :
  Forall (fun p => forall s fuel, length s < fuel ->
            p_exec_all p s = exec_loop (p_flags p) fuel (p_re p) s 0)
    looping_patterns.
Proof.
  eapply Forall_impl; [exact loops_consume|].
  intros p Hp s fuel Hf. by apply exec_all_fuel.
Qed.

(** Group 1 is set by every match of the clause and name patterns, so
    that [match[1]] is a string wherever the loops read it. *)
Lemma group_1_defined p s m :
  p ∈ actionPatterns ++ decisionPatterns ++ namePatterns ->
  m ∈ p_exec_all p s -> is_Some (group 1 m).
Proof.
  intros Hp Hm. apply p_exec_all_sound in Hm.
  eapply accepts_captures; [exact Hm|].
  repeat (apply elem_of_cons in Hp as [->|Hp]); try reflexivity.
  by apply elem_of_nil in Hp.
Qed.

(* ===================================================================== *)
(** * Ticket mentions *)
(* ===================================================================== *)

Section TicketMentions.

Lemma accepts_project_key fl w caps :
  accepts fl project_key w caps ->
  caps = [] /\ 2 <= length w <= 10 /\ Forall (fun c => is_letter c = true) w.
Proof.
  simpl. intros [(Hw & Hlo & Hhi) ->]. repeat split; auto.
  eapply Forall_impl; eauto. apply match_AZ_letter.
Qed.

Lemma accepts_digits fl w caps :
  accepts fl (plus CDigit) w caps ->
  caps = [] /\ 1 <= length w /\ Forall (fun c => is_digit c = true) w.
Proof.
  simpl. intros [(Hw & Hlo & _) ->]. repeat split; auto.
  eapply Forall_impl; eauto. apply match_digit.
Qed.

Lemma accepts_key_dash_number fl w caps :
  accepts fl key_dash_number w caps -> caps = [] /\ ticket_shape w.
Proof.
  intros (key & w' & c1 & c2 & -> & -> & Hk & (d & num & c3 & c4 & -> & -> & Hd & Hn)).
  apply accepts_project_key in Hk as (-> & Hlen & Hk).
  apply accepts_digits in Hn as (-> & Hlen' & Hn).
  destruct Hd as [(c & -> & ->%match_dash) ->].
  split; [done|]. exists key, num. auto.
Qed.

(** The id the loop body computes from a match of one of the four
    patterns has the shape of a ticket id. *)
Lemma match_ticketId_shape p s m id :
  p ∈ ticket_patterns -> m ∈ p_exec_all p s ->
  match_ticketId m = Some id -> ticket_shape id.
Proof.
  intros Hp Hm. apply p_exec_all_sound in Hm. revert Hm.
  unfold match_ticketId, group.
  repeat (apply elem_of_cons in Hp as [->|Hp]); [| | | |by apply elem_of_nil in Hp];
    cbn [p_flags p_re seq lit_chars accepts]; intros Hm; break;
    repeat match goal with
      | H : accepts _ key_dash_number _ _ |- _ =>
          apply accepts_key_dash_number in H as [-> ?]
      | H : accepts _ project_key _ _ |- _ =>
          apply accepts_project_key in H as (-> & ? & ?)
      | H : accepts _ (plus CDigit) _ _ |- _ =>
          apply accepts_digits in H as (-> & ? & ?)
      | H : accepts _ (plus CSpace) _ _ |- _ => destruct H as [_ ->]
      end.
  all: match goal with H : groups _ = _ |- _ => rewrite H end; simpl.
  all: intros Hid; repeat case_match; simplify_eq; auto.
  all: try (simpl in *; lia).
  match goal with
  | |- ticket_shape (?a :: ?k ++ _ :: ?b :: ?n) => exists (a :: k), (b :: n)
  end.
  auto.
Qed.

Variable transcript : JStr.t.

Lemma mention_step_inv st m :
  mentions_inv st -> mentions_inv (mention_step transcript st m).
Proof.
  destruct st as [mentions details]. intros [Hset Hnd]. unfold mention_step.
  destruct (match_ticketId m) as [[|c id]|]; [done| |done].
  destruct (decide (c :: id ∈ mentions)) as [Hin|Hin]; [done|].
  split; simpl in *.
  - intros id'. rewrite map_app, elem_of_union, elem_of_app, elem_of_singleton.
    simpl. rewrite list_elem_of_singleton, Hset. tauto.
  - rewrite map_app. simpl. apply NoDup_app. repeat split; auto.
    + intros id' Hid' ->%list_elem_of_singleton. apply Hin, Hset, Hid'.
    + apply NoDup_singleton.
Qed.

Lemma mention_steps_inv ms : forall st,
  mentions_inv st -> mentions_inv (foldl (mention_step transcript) st ms).
Proof.
  induction ms as [|m ms IH]; intros st H; simpl; auto using mention_step_inv.
Qed.

Lemma mention_steps_from ms : forall done st,
  Forall (from_match (done ++ ms)) st.2 ->
  Forall (from_match (done ++ ms)) (foldl (mention_step transcript) st ms).2.
Proof.
  induction ms as [|m ms IH]; intros done st H; simpl; auto.
  replace (done ++ m :: ms) with ((done ++ [m]) ++ ms) in * by by rewrite <- app_assoc.
  apply IH. destruct st as [mentions details]. unfold mention_step.
  destruct (match_ticketId m) as [[|c id]|] eqn:Hid; [done| |done].
  destruct (decide (c :: id ∈ mentions)); [done|].
  simpl in *. apply Forall_app. split; [done|].
  constructor; [|constructor]. exists m. split; [|done].
  rewrite !elem_of_app, list_elem_of_singleton. auto.
Qed.




Lemma mention_loop_scan patterns :
  mention_loop transcript patterns =
  foldl (mention_step transcript) (∅, []) (scan transcript patterns).
Proof.
  unfold mention_loop, scan. generalize (∅ : gset JStr.t, [] : list mention).
  induction patterns as [|p ps IH]; intros st; simpl; [done|].
  by rewrite foldl_app, IH.
Qed.

Lemma elem_of_scan patterns m :
  m ∈ scan transcript patterns <-> exists p, p ∈ patterns /\ m ∈ p_exec_all p transcript.
Proof.
  unfold scan. rewrite list_elem_of_In, in_concat. split.
  - intros (l & (p & <- & Hp)%in_map_iff & Hm).
    exists p. by rewrite !list_elem_of_In.
  - intros (p & Hp & Hm). exists (p_exec_all p transcript).
    rewrite in_map_iff. rewrite !list_elem_of_In in *. eauto.
Qed.

End TicketMentions.








(** An id that the text holds twice is listed at its first match. *)
Lemma extractTicketMentions_first_position :
  map (fun x => (ticketId x, position x))
    (extractTicketMentions (str "fix AB-1 now and then later see AB-1"))
  = [(str "AB-1", 4)].
Proof. vm_compute. reflexivity. Qed.

(* ===================================================================== *)
(** * Participants *)
(* ===================================================================== *)

Lemma accepts_capitalized fl i w caps :
  accepts fl (capitalized i) w caps ->
  caps = [(i, w)] /\ 2 <= length w /\ Forall (fun c => is_letter c = true) w.
Proof.
  intros (c1 & -> & (w1 & w2 & c2 & c3 & -> & -> & [(c & -> & Hc) ->] & [(Hw & Hlo & _) ->])).
  repeat split; auto.
  - rewrite length_app. simpl. lia.
  - constructor; [by eapply match_AZ_letter|].
    eapply Forall_impl; eauto. apply match_az_letter.
Qed.


Lemma set_add_NoDup x (s : list JStr.t) : NoDup s -> NoDup (Arr.set_add x s).
Proof.
  intros H. unfold Arr.set_add. destruct (decide (x ∈ s)); [done|].
  apply NoDup_app. repeat split; auto.
  - by intros y Hy ->%list_elem_of_singleton.
  - apply NoDup_singleton.
Qed.

Lemma elem_of_set_add x y (s : list JStr.t) :
  y ∈ Arr.set_add x s <-> y = x \/ y ∈ s.
Proof.
  unfold Arr.set_add. destruct (decide (x ∈ s)).
  - split; [auto|]. by intros [->|].
  - rewrite elem_of_app, list_elem_of_singleton. tauto.
Qed.





(* ===================================================================== *)
(** * Sorting *)
(* ===================================================================== *)

Section SortFacts.
Context {A : Type} (before : A -> A -> bool).

Lemma insert_Permutation x l : Arr.insert before x l ≡ₚ x :: l.
Proof.
  induction l as [|y l IH]; simpl; [done|].
  destruct (before x y); [done|]. rewrite IH. apply Permutation_swap.
Qed.

Lemma sort_Permutation l : Arr.sort before l ≡ₚ l.
Proof.
  induction l as [|x l IH]; simpl; [done|].
  rewrite insert_Permutation. by f_equiv.
Qed.

Lemma elem_of_sort x l : x ∈ Arr.sort before l <-> x ∈ l.
Proof. by rewrite sort_Permutation. Qed.

(** With a comparison that orders any two elements one way or the other,
    the outcome is sorted. *)
Hypothesis before_total : forall x y, before x y = false -> before y x = true.

Lemma insert_Sorted x l :
  Sorted (fun a b => before a b = true) l ->
  Sorted (fun a b => before a b = true) (Arr.insert before x l).
Proof.
  induction l as [|y l IH]; intros Hl; simpl.
  - repeat constructor.
  - destruct (before x y) eqn:Hxy.
    + constructor; [done|]. by constructor.
    + apply Sorted_inv in Hl as [Hl Hy]. constructor; [auto|].
      destruct l as [|z l]; simpl.
      * constructor. auto.
      * destruct (before x z); constructor; auto.
        by apply HdRel_inv in Hy.
Qed.

Lemma sort_Sorted l : Sorted (fun a b => before a b = true) (Arr.sort before l).
Proof.
  induction l as [|x l IH]; simpl; [constructor|]. by apply insert_Sorted.
Qed.

End SortFacts.

(* ===================================================================== *)
(** * Confidence *)
(* ===================================================================== *)

Local Open Scope Q_scope.

Lemma Qnat_S n : Qnat (S n) == Qnat n + 1.
Proof.
  unfold Qnat. rewrite Nat2Z.inj_succ, <- Z.add_1_r, inject_Z_plus. reflexivity.
Qed.

Lemma Qnat_nonneg n : 0 <= Qnat n.
Proof.
  unfold Qnat. change 0%Q with (inject_Z 0). rewrite <- Zle_Qle. lia.
Qed.

Lemma confidence_loop step indicators text : forall base,
  foldl (fun confidence indicator =>
           if p_test indicator text then (confidence + step)%Q else confidence)
    base indicators
  == base + step * Qnat (hits indicators text).
Proof.
  unfold hits. induction indicators as [|p ps IH]; intros base; simpl.
  - change (Qnat 0) with 0%Q. ring.
  - rewrite IH. destruct (p_test p text); simpl; [|reflexivity].
    rewrite Qnat_S. ring.
Qed.

(** The rule shared by the three confidence functions. *)
Lemma confidence_of_rule base step indicators text :
  confidence_of base step indicators text
  == Qmin (base + step * Qnat (hits indicators text)) 1.
Proof.
  unfold confidence_of. apply Q.min_compat; [apply confidence_loop|reflexivity].
Qed.

Lemma confidence_of_bounds base step indicators text :
  0 <= base -> 0 <= step ->
  0 <= confidence_of base step indicators text <= 1.
Proof.
  intros Hb Hs. rewrite confidence_of_rule. split.
  - apply Q.min_glb; [|done].
    rewrite <- (Qplus_0_r 0). apply Qplus_le_compat; [done|].
    apply Qmult_le_0_compat; [done|apply Qnat_nonneg].
  - apply Q.le_min_r.
Qed.

(** C4, as the code has it.  The three confidence functions follow one
    rule: a base, plus a step for every indicator of the list that matches,
    capped at 1.  Ticket mentions start at 0.5 and decisions at 0.4, both
    with a step of 0.1; action items start at 0.3 with a step of 0.15. *)
Theorem confidence_rule (text ticketId : JStr.t) :
  calculateMentionConfidence text ticketId
    == Qmin (0.5 + 0.1 * Qnat (hits mention_indicators text)) 1 /\
  calculateActionConfidence text
    == Qmin (0.3 + 0.15 * Qnat (hits action_indicators text)) 1 /\
  calculateDecisionConfidence text
    == Qmin (0.4 + 0.1 * Qnat (hits decision_indicators text)) 1.
Proof. repeat split; apply confidence_of_rule. Qed.

(** C4 fails as stated: an action text with one matching indicator scores
    0.3 + 0.15, not 0.3 + 0.1. *)
Lemma calculateActionConfidence_step_counterexample :
  hits action_indicators (str "we will ship it") = 1%nat /\
  calculateActionConfidence (str "we will ship it") == 0.3 + 0.15 /\
  ~ calculateActionConfidence (str "we will ship it") == Qmin (0.3 + 0.1 * 1) 1.
Proof.
  split; [vm_compute; reflexivity|]. split; [vm_compute; reflexivity|].
  vm_compute. discriminate.
Qed.

Local Close Scope Q_scope.

(* ===================================================================== *)
(** * Confidence of what the extractors produce *)
(* ===================================================================== *)

Lemma mention_confidence_bounds transcript :
  Forall (fun x => unit_interval (m_confidence x))
    (extractTicketMentions transcript).
Proof.
  unfold extractTicketMentions, mention_loop.
  apply (foldl_inv (fun st => Forall (fun x => unit_interval (m_confidence x)) st.2));
    [constructor|].
  intros st p _ Hst.
  apply (foldl_inv (fun st => Forall (fun x => unit_interval (m_confidence x)) st.2));
    [done|].
  clear. intros [mentions details] m _ H. unfold mention_step.
  destruct (match_ticketId m) as [[|c id]|]; [done| |done].
  destruct (decide (c :: id ∈ mentions)); [done|].
  simpl in *. apply Forall_app. split; [done|].
  constructor; [|constructor]. simpl.
  by apply confidence_of_bounds.
Qed.

Lemma action_candidates_bounds transcript :
  Forall (fun x => unit_interval (a_confidence x)) (action_candidates transcript).
Proof.
  unfold action_candidates.
  apply (foldl_inv (Forall (fun x => unit_interval (a_confidence x))));
    [constructor|].
  intros actions p _ H.
  apply (foldl_inv (Forall (fun x => unit_interval (a_confidence x)))); [done|].
  clear. intros actions m _ H.
  destruct (_ && _); [|done].
  apply Forall_app. split; [done|]. constructor; [|constructor]. simpl.
  by apply confidence_of_bounds.
Qed.

Lemma decision_candidates_bounds transcript :
  Forall (fun x => unit_interval (d_confidence x)) (decision_candidates transcript).
Proof.
  unfold decision_candidates.
  apply (foldl_inv (Forall (fun x => unit_interval (d_confidence x))));
    [constructor|].
  intros decisions p _ H.
  apply (foldl_inv (Forall (fun x => unit_interval (d_confidence x)))); [done|].
  clear. intros decisions m _ H.
  destruct (_ && _); [|done].
  apply Forall_app. split; [done|]. constructor; [|constructor]. simpl.
  by apply confidence_of_bounds.
Qed.

Section FuseFacts.

Variable fuse_search :
  forall A : Type, (A -> JStr.t) -> Q -> list A -> JStr.t -> list A.

Hypothesis fuse_ok : fuse_returns_items fuse_search.

Lemma best_of_item {A} (key : A -> JStr.t) (confidence : A -> Q)
    (items similar : list A) item processed :
  item ∈ items -> (forall x, x ∈ similar -> x ∈ items) ->
  (best_of key confidence similar item processed).1 ∈ items.
Proof.
  intros Hitem Hsim. unfold best_of.
  apply (foldl_inv (fun st : A * gset JStr.t => st.1 ∈ items)); [done|].
  intros [best pr] r Hr Hbest. simpl in *.
  destruct (Qltb (confidence best) (confidence r)); auto.
Qed.

(** What survives the removal of duplicates was among the items. *)
Lemma removeDuplicates_items {A} (key : A -> JStr.t) (confidence : A -> Q)
    (items : list A) x :
  x ∈ removeDuplicates fuse_search key confidence items -> x ∈ items.
Proof.
  unfold removeDuplicates. destruct (length items <=? 1); [done|].
  rewrite elem_of_sort. revert x. apply Forall_forall.
  apply (foldl_inv (fun st : gset JStr.t * list A => Forall (fun x => x ∈ items) st.2));
    [constructor|].
  intros [processed unique] item Hitem H. unfold unique_step.
  destruct (decide (key item ∈ processed)); [done|].
  pose proof (best_of_item key confidence items
                (fuse_search A key 0.3%Q items (key item)) item processed Hitem
                (fun x => fuse_ok A key _ items _ x)) as Hbest.
  destruct (best_of _ _ _ _ _) as [best processed']. simpl in *.
  apply Forall_app. split; [done|]. by constructor.
Qed.

Lemma extractActionItems_candidates transcript x :
  x ∈ extractActionItems fuse_search transcript -> x ∈ action_candidates transcript.
Proof.
  unfold extractActionItems, removeDuplicateActions.
  intros Hx%elem_of_take. destruct Hx as (i & Hx%list_elem_of_lookup_2 & _).
  apply list_elem_of_filter in Hx as [_ Hx].
  by apply removeDuplicates_items in Hx.
Qed.

Lemma extractKeyDecisions_candidates transcript x :
  x ∈ extractKeyDecisions fuse_search transcript ->
  x ∈ decision_candidates transcript.
Proof.
  unfold extractKeyDecisions, removeDuplicateDecisions.
  intros Hx%elem_of_take. destruct Hx as (i & Hx%list_elem_of_lookup_2 & _).
  apply list_elem_of_filter in Hx as [_ Hx].
  by apply removeDuplicates_items in Hx.
Qed.

(** C6.  For every transcript, every confidence attached to a ticket
    mention, an action item or a decision that the extractors produce lies
    between 0 and 1, both included. *)
Theorem confidence_in_unit_interval (transcript : JStr.t) :
  Forall (fun x => unit_interval (m_confidence x))
    (extractTicketMentions transcript) /\
  Forall (fun x => unit_interval (a_confidence x))
    (extractActionItems fuse_search transcript) /\
  Forall (fun x => unit_interval (d_confidence x))
    (extractKeyDecisions fuse_search transcript).
Proof.
  split; [apply mention_confidence_bounds|]. split; apply Forall_forall; intros x Hx.
  - apply extractActionItems_candidates in Hx.
    by eapply Forall_forall in Hx; [|apply action_candidates_bounds].
  - apply extractKeyDecisions_candidates in Hx.
    by eapply Forall_forall in Hx; [|apply decision_candidates_bounds].
Qed.

End FuseFacts.

(* ===================================================================== *)
(** * The pipeline *)
(* ===================================================================== *)

Lemma exact_search_returns_items : fuse_returns_items exact_search.
Proof.
  intros A key th items query x. unfold exact_search.
  rewrite !list_elem_of_In, filter_In. tauto.
Qed.

Section Pipeline.

Variable fuse_search :
  forall A : Type, (A -> JStr.t) -> Q -> list A -> JStr.t -> list A.

Lemma processMeeting_run now transcript tier :
  processMeeting fuse_search now transcript tier =
  let tier := default (str "basic") tier in
  let config := config_for tier in
  match cleanTranscript transcript (cfg_maxTranscriptLength config) with
  | Return cleaned =>
      (calls_of tier,
       Return (analysis_of fuse_search now tier cleaned
                 (cfg_summaryLength config)))
  | Throw message =>
      (["cleanTranscript"],
       Throw (str "Meeting processing failed: " ++ message))
  end.
Proof.
  unfold processMeeting, calls_of, analysis_of, generateAISummary.
  cbv [mbind run_bind mret run_ret call try_catch].
  destruct (cleanTranscript _ _); [|done].
  by destruct (decide (_ = str "ai")).
Qed.

(** C2, as the code has it.  [processMeeting] throws exactly when the
    transcript is missing, is not a string, or is the empty string; a string
    that has characters, white space included, is processed.  When it
    throws, [cleanTranscript] is the only method that was called, so no
    extractor ran; in every other case the run returns a record. *)
Theorem processMeeting_throws_iff_invalid (now : JStr.t) (transcript : value)
    (tier : option JStr.t) :
  match transcript with
  | VString (_ :: _) =>
      exists a,
        processMeeting fuse_search now transcript tier
        = (calls_of (default (str "basic") tier), Return a)
  | _ =>
      processMeeting fuse_search now transcript tier
      = (["cleanTranscript"],
         Throw (str "Meeting processing failed: Invalid transcript provided"))
  end.
Proof.
  rewrite processMeeting_run.
  destruct transcript as [| | | |[|c s]|]; simpl; eauto.
Qed.

End Pipeline.

(** C2 fails as stated: a transcript of blanks only is empty after
    trimming, and yet [processMeeting] does not throw: it returns the
    analysis of the empty text. *)
Lemma processMeeting_blank_counterexample :
  trim (str "   ") = [] /\
  exists a,
    processMeeting exact_search (str "now") (VString (str "   ")) None
    = (calls_of (str "basic"), Return a) /\
    transcript a = [].
Proof.
  split; [reflexivity|]. eexists. split; [vm_compute; reflexivity|reflexivity].
Qed.

Section Tiers.

Variable fuse_search :
  forall A : Type, (A -> JStr.t) -> Q -> list A -> JStr.t -> list A.

(** C10, as the code has it.  For a tier that is neither 'basic' nor 'ai'
    nor a name that objects inherit ('constructor', 'toString', ...),
    [processMeeting] applies the configuration of 'basic' and its run is
    the run for 'basic' on the same transcript, except that the record
    carries the tier that was passed in its [processingTier]; a tier left
    out or [undefined] is 'basic' itself. *)
Theorem processMeeting_unknown_tier (now : JStr.t) (transcript : value)
    (tier : JStr.t) :
  tier ∉ (str "basic" :: str "ai" :: object_prototype_names) ->
  config_for tier = OwnTier config_basic /\
  processMeeting fuse_search now transcript (Some tier)
  = with_tier tier (processMeeting fuse_search now transcript (Some (str "basic"))) /\
  processMeeting fuse_search now transcript None
  = processMeeting fuse_search now transcript (Some (str "basic")).
Proof.
  intros Hn.
  apply not_elem_of_cons in Hn as [Hb Hn]. apply not_elem_of_cons in Hn as [Ha Hn].
  assert (Hc : config_for tier = OwnTier config_basic).
  { unfold config_for, config_get, config.
    rewrite lookup_insert_ne, lookup_singleton_ne by done.
    by rewrite decide_False. }
  split; [done|]. split; [|done].
  rewrite !processMeeting_run. cbv zeta.
  change (default (str "basic") (Some tier)) with tier.
  change (default (str "basic") (Some (str "basic"))) with (str "basic").
  rewrite Hc.
  change (config_for (str "basic")) with (OwnTier config_basic).
  destruct (cleanTranscript _ _); [|done].
  unfold with_tier, calls_of, analysis_of. cbn [fst snd]. f_equal.
  rewrite decide_False by done.
  by rewrite (decide_False (P := str "basic" = str "ai")).
Qed.

End Tiers.

(* ===================================================================== *)
(** * The statements at worked inputs *)
(* ===================================================================== *)

(** C6 on the scenario of the specification, with the exact search. *)
Lemma confidence_in_unit_interval_witness :
  fuse_returns_items exact_search /\
  (Forall (fun x => unit_interval (m_confidence x))
     (extractTicketMentions standup) /\
   Forall (fun x => unit_interval (a_confidence x))
     (extractActionItems exact_search standup) /\
   Forall (fun x => unit_interval (d_confidence x))
     (extractKeyDecisions exact_search standup)).
Proof.
  split; [exact exact_search_returns_items|].
  exact (confidence_in_unit_interval exact_search exact_search_returns_items standup).
Defined.

(** C10 for the tier 'enterprise' on the scenario of the specification. *)
Lemma processMeeting_unknown_tier_witness :
  (str "enterprise" ∉ str "basic" :: str "ai" :: object_prototype_names) /\
  (config_for (str "enterprise") = OwnTier config_basic /\
   processMeeting exact_search (str "now") (VString standup)
     (Some (str "enterprise"))
   = with_tier (str "enterprise")
       (processMeeting exact_search (str "now") (VString standup)
          (Some (str "basic"))) /\
   processMeeting exact_search (str "now") (VString standup) None
   = processMeeting exact_search (str "now") (VString standup)
       (Some (str "basic"))).
Proof.
  assert (H : str "enterprise" ∉ (str "basic" :: str "ai" :: object_prototype_names)).
  { apply (bool_decide_eq_false_1 _). vm_compute. reflexivity. }
  split; [exact H|].
  exact (processMeeting_unknown_tier exact_search (str "now") (VString standup)
           (str "enterprise") H).
Defined.

(** C10 fails as stated, in two ways.  The record repeats the tier it was
    given, so the output for 'enterprise' is not the output for 'basic';
    and for a name that [this.config] inherits, such as 'toString', the
    lookup does not fall back to 'basic': no limit applies, and a summary
    of 532 characters that 'basic' cuts to 500 is returned whole. *)
Lemma processMeeting_tier_counterexample :
  (processMeeting exact_search (str "now") (VString standup)
     (Some (str "enterprise"))
   <> processMeeting exact_search (str "now") (VString standup)
        (Some (str "basic"))) /\
  (let summary_length (r : run analysis) :=
     match r.2 with Return a => length (summary a) | Throw _ => 0 end in
   summary_length
     (processMeeting exact_search (str "now") (VString long_sentence_transcript)
        (Some (str "toString"))) = 532 /\
   summary_length
     (processMeeting exact_search (str "now") (VString long_sentence_transcript)
        (Some (str "basic"))) = 500).
Proof.
  split.
  - intros H.
    apply (f_equal (fun r : run analysis =>
             match r.2 with Return a => processingTier a | Throw _ => [] end)) in H.
    vm_compute in H. discriminate H.
  - split; vm_compute; reflexivity.
Qed.

(* ===================================================================== *)
(** * The summary *)
(* ===================================================================== *)

Section Summary.

Lemma StronglySorted_sublist {A} (R : relation A) (l1 l2 : list A) :
  sublist l1 l2 -> StronglySorted R l2 -> StronglySorted R l1.
Proof.
  induction 1 as [|x l1 l2 Hs IH|x l1 l2 Hs IH]; intros H2; [done| |].
  - apply StronglySorted_cons in H2 as [Hx H2]. constructor; [auto|].
    apply Forall_forall. intros y Hy.
    eapply Forall_forall in Hx; [exact Hx|]. by eapply elem_of_sublist.
  - apply StronglySorted_cons in H2 as [Hx H2]. auto.
Qed.

Lemma mapi_earlier (l : list JStr.t) : forall (g : nat -> JStr.t -> scored) off,
  (forall i x, s_index (g i x) = off + i) ->
  StronglySorted earlier (imap g l).
Proof.
  induction l as [|y l IH]; intros g off Hg; [constructor|].
  rewrite imap_cons. constructor.
  - apply (IH _ (S off)). intros i x. simpl. rewrite Hg. lia.
  - apply Forall_forall. intros x (i & z & -> & _)%elem_of_lookup_imap.
    unfold earlier. simpl. rewrite !Hg. lia.
Qed.

Variable sentences : list JStr.t.

Lemma scored_earlier : StronglySorted earlier (scored_of sentences).
Proof. apply (mapi_earlier _ _ 0). done. Qed.

Lemma scored_sentences : map s_sentence (scored_of sentences) = map trim sentences.
Proof.
  unfold scored_of, Arr.mapi.
  change (s_sentence <$> imap (fun i x => score_sentence (length sentences) x i)
                           sentences
          = trim <$> sentences).
  rewrite fmap_imap. rewrite <- imap_const. by apply imap_ext.
Qed.

Lemma earlier_NoDup (l : list scored) : StronglySorted earlier l -> NoDup l.
Proof.
  induction 1 as [|x l Hl IH Hx]; constructor; [|done].
  intros Hin. eapply Forall_forall in Hx; [|exact Hin].
  unfold earlier in Hx. lia.
Qed.

Lemma by_index_total x y : by_index x y = false -> by_index y x = true.
Proof. unfold by_index. intros H%Z.leb_gt. apply Z.leb_le. lia. Qed.

(** The selection is a part of the scored sentences. *)
Lemma topSentences_scored x :
  x ∈ topSentences sentences -> x ∈ (scored_of sentences).
Proof.
  unfold topSentences. rewrite elem_of_sort.
  intros Hx%elem_of_take. destruct Hx as (i & Hx%list_elem_of_lookup_2 & _).
  by apply elem_of_sort in Hx.
Qed.

Lemma topSentences_NoDup : NoDup (topSentences sentences).
Proof.
  unfold topSentences. rewrite sort_Permutation.
  eapply sublist_NoDup; [|apply sublist_take].
  rewrite sort_Permutation. apply earlier_NoDup, scored_earlier.
Qed.

(** Two scored sentences with the same index are the same. *)
Lemma scored_index_inj x y :
  x ∈ (scored_of sentences) -> y ∈ (scored_of sentences) -> s_index x = s_index y -> x = y.
Proof.
  unfold scored_of, Arr.mapi.
  intros (i & a & -> & Ha)%elem_of_lookup_imap (j & b & -> & Hb)%elem_of_lookup_imap.
  simpl. intros ->. congruence.
Qed.

Lemma topSentences_earlier : StronglySorted earlier (topSentences sentences).
Proof.
  pose proof topSentences_NoDup as Hnd.
  pose proof topSentences_scored as Hin.
  assert (Hs : StronglySorted (fun a b => by_index a b = true)
                 (topSentences sentences)).
  { apply Sorted.Sorted_StronglySorted.
    - intros a b c. unfold by_index. rewrite !Z.leb_le. lia.
    - apply sort_Sorted, by_index_total. }
  induction Hs as [|x l Hl IH Hx]; [constructor|].
  apply NoDup_cons in Hnd as [Hx' Hnd].
  constructor; [apply IH; [done|]; intros y Hy; apply Hin; by right|].
  apply Forall_forall. intros y Hy.
  eapply Forall_forall in Hx; [|exact Hy].
  unfold by_index in Hx. apply Z.leb_le in Hx. unfold earlier.
  destruct (decide (s_index x = s_index y)) as [Heq|]; [|lia].
  apply scored_index_inj in Heq; [|apply Hin; by left|apply Hin; by right].
  by subst.
Qed.

Lemma topSentences_sublist : sublist (topSentences sentences) (scored_of sentences).
Proof.
  set (keep := filter (fun x => s_index x ∈ s_index <$> topSentences sentences)
                 (scored_of sentences)).
  assert (Heq : topSentences sentences = keep).
  { apply (StronglySorted_unique_strong earlier).
    - unfold earlier. intros. lia.
    - apply topSentences_earlier.
    - eapply StronglySorted_sublist; [apply sublist_filter|apply scored_earlier].
    - apply NoDup_Permutation.
      + apply topSentences_NoDup.
      + apply NoDup_filter, earlier_NoDup, scored_earlier.
      + intros x. unfold keep. rewrite list_elem_of_filter. split.
        * intros Hx. split; [by apply list_elem_of_fmap_2|].
          by apply topSentences_scored.
        * intros [(y & Hi & Hy)%list_elem_of_fmap Hx].
          apply scored_index_inj in Hi; [by subst|done|].
          by apply topSentences_scored. }
  rewrite Heq. apply sublist_filter.
Qed.

End Summary.

Lemma Sorted_impl {A} (R1 R2 : relation A) (l : list A) :
  (forall a b, R1 a b -> R2 a b) -> Sorted R1 l -> Sorted R2 l.
Proof.
  intros HR. induction 1 as [|x l Hl IH Hx]; constructor; [done|].
  destruct Hx; constructor; auto.
Qed.

(** C7 fails on [TextProcessor.generateSummary], which joins its three
    best sentences as the sort by score left them: as soon as the
    segmentation library yields the four sentences of this transcript, the
    last one, which scores highest, is the first of the summary.
    [generateBasicSummary] puts its selection back in the order of the
    indexes before it joins: on the same transcript it selects the first
    and the last sentence, the last with the higher score, and the first
    comes first. *)
Theorem generateSummary_joins_in_score_order :
  let four := map str ["Alpha one is here."; "Beta two is here.";
                       "Gamma three is here."; "We decided four today."] in
  (TextProcessor.generateSummary (fun _ => four) four_sentences 0).1
  = str "We decided four today. Alpha one is here. Beta two is here." /\
  ~ sublist
      (map TextProcessor.i_sentence
         (TextProcessor.top_three (fun _ => four) four_sentences 0).1)
      four /\
  map s_index (Arr.sort by_score_desc (scored_of (summary_sentences four_sentences)))
  = [3; 0; 1; 2] /\
  generateBasicSummary four_sentences (Some 500)
  = str "Alpha one is here. We decided four today".
Proof.
  split; [vm_compute; reflexivity|]. split; [|split; vm_compute; reflexivity].
  intros H. apply (fmap_sublist length) in H. vm_compute in H.
  repeat match goal with
    | H : sublist _ _ |- _ => inversion H; clear H; simplify_eq
    end.
Qed.

(** The scores are doubles, as in the source.  A first sentence of less
    than 20 characters scores 0.3 - 0.1, which is 0.19999999999999998 and
    below the 0.2 of the last sentence: of the four sentences the second
    and the last are selected.  And 90 * 0.7 is 62.99999999999999, below
    63: the 64th of 90 sentences gets the point for a late position. *)
Lemma scores_round :
  let transcript :=
    str ("Short notes here. The budget plan was reviewed by everyone. " ++
         "Nothing else was said about the roadmap. " ++
         "The last point was about the office") in
  map s_index
    (Arr.sort by_score_desc (scored_of (summary_sentences transcript)))
  = [1; 3; 0; 2] /\
  generateBasicSummary transcript (Some 500)
  = str ("The budget plan was reviewed by everyone. " ++
         "The last point was about the office") /\
  TextProcessor.i_score (TextProcessor.score_item 90 0 (str "Plain text") 63).1
  = Double.of_Z 1.
Proof. repeat split; vm_compute; reflexivity. Qed.

(** C5 fails on the code.  With three qualifying sentences or fewer
    [generateBasicSummary] returns them joined without looking at the
    limit: for a transcript that is one sentence of 501 characters the
    summary is 502 characters long under the limit of 500, in the function
    and in the record of [processMeeting] for the 'basic' tier. *)
Theorem generateBasicSummary_short_branch_exceeds :
  let transcript := replicate 501 "a"%char in
  length (summary_sentences transcript) = 1 /\
  length (generateBasicSummary transcript (Some 500)) = 502 /\
  match (processMeeting exact_search (str "now") (VString transcript)
           (Some (str "basic"))).2 with
  | Return a => length (summary a) = 502
  | Throw _ => False
  end.
Proof. repeat split; vm_compute; reflexivity. Qed.

(** In the branch for more than three sentences the limit is kept, for
    every limit that leaves room for the fallback text. *)
Lemma generateBasicSummary_long_branch_bound transcript limit :
  3 < length (summary_sentences transcript) -> 50 <= length transcript ->
  38 <= limit ->
  length (generateBasicSummary transcript (Some limit)) <= limit.
Proof.
  intros Hn Ht Hl. unfold generateBasicSummary.
  rewrite bool_decide_false by (intros ->; simpl in Ht; lia).
  destruct (Nat.ltb_spec (length transcript) 50); [lia|]. simpl orb. cbv iota.
  destruct (Nat.leb_spec (length (summary_sentences transcript)) 3); [lia|].
  cbv zeta. unfold exceeds.
  set (joined := join (str ". ") _).
  destruct (Nat.ltb_spec limit (length joined)) as [Hlong|Hshort].
  - assert (Hcut : length (substring 0 (default 0 (Some limit) - 3) joined ++ ellipsis)
                   <= limit).
    { rewrite length_app. unfold substring. rewrite length_take. simpl. lia. }
    destruct (substring _ _ _ ++ _); [simpl; lia|done].
  - destruct joined; [simpl; lia|done].
Qed.

(* ===================================================================== *)
(** * Sentiment *)
(* ===================================================================== *)

Section Literal.

Lemma prefix_here_take w : forall s,
  prefix_here w s = true -> take (length w) s = w /\ length w <= length s.
Proof.
  induction w as [|a w IH]; intros [|b s]; simpl; try done.
  - split; [done|lia].
  - destruct (decide (a = b)) as [->|]; [|done].
    intros [-> ?]%IH. split; [done|lia].
Qed.

Lemma lit_rmatch (w : string) : forall before after caps k,
  rmatch fl_plain (lit_chars w) (MState before after caps) k =
  if prefix_here (str w) after
  then k (MState (reverse (str w) ++ before) (drop (length (str w)) after) caps)
  else None.
Proof.
  induction w as [|c w IH]; intros before after caps k; [done|].
  assert (Hstep : forall r,
    (forall b a, rmatch fl_plain r (MState b a caps) k =
       if prefix_here (str w) a
       then k (MState (reverse (str w) ++ b) (drop (length (str w)) a) caps)
       else None) ->
    rmatch fl_plain (RSeq (RSet (CChar c)) r) (MState before after caps) k =
    if prefix_here (str (String c w)) after
    then k (MState (reverse (str (String c w)) ++ before)
              (drop (length (str (String c w))) after) caps)
    else None).
  { intros r Hr. destruct after as [|a rest]; simpl; [done|].
    unfold cs_match. simpl. destruct (decide (c = a)) as [->|Hne].
    - rewrite bool_decide_true, Hr by done.
      by rewrite reverse_cons, <- app_assoc.
    - by rewrite bool_decide_false. }
  destruct w as [|c' w'].
  - destruct after as [|a rest]; simpl; [done|].
    unfold cs_match. simpl. destruct (decide (c = a)) as [->|Hne].
    + by rewrite bool_decide_true.
    + by rewrite bool_decide_false.
  - apply (Hstep (lit_chars (String c' w'))). intros b a. apply IH.
Qed.

Lemma search_lit (w : string) after : forall before,
  search fl_plain (lit_chars w) before after =
  (fun j => Result (length before + j) (length before + j + length (str w))
              (str w) []) <$> find (str w) after.
Proof.
  induction after as [|c after IH]; intros before.
  - simpl. rewrite lit_rmatch.
    destruct (prefix_here (str w) []) eqn:Hp; [|done].
    apply prefix_here_take in Hp as [Hw Hl]. simpl. f_equal.
    unfold consumed, pos. simpl. rewrite length_app, length_reverse.
    replace (length (str w) + length before - length before) with (length (str w)) by lia.
    rewrite Hw. f_equal; lia.
  - simpl. rewrite lit_rmatch.
    destruct (prefix_here (str w) (c :: after)) eqn:Hp.
    + apply prefix_here_take in Hp as [Hw Hl]. simpl. f_equal.
      unfold consumed, pos. simpl m_before. simpl m_after.
      rewrite length_app, length_reverse.
      replace (length (str w) + length before - length before) with (length (str w)) by lia.
      rewrite Hw. f_equal; lia.
    + rewrite IH. destruct (find (str w) after); simpl; [|done].
      f_equal. f_equal; lia.
Qed.

Lemma find_bound w : forall s j, find w s = Some j -> j + length w <= length s.
Proof.
  induction s as [|c s IH]; intros j; simpl.
  - destruct (prefix_here w []) eqn:Hp; [|done].
    apply prefix_here_take in Hp as [_ Hl]. intros [= <-]. simpl in *. lia.
  - destruct (prefix_here w (c :: s)) eqn:Hp.
    + apply prefix_here_take in Hp as [_ Hl]. intros [= <-]. simpl in *. lia.
    + destruct (find w s) as [j'|] eqn:Hf; [|done].
      intros [= <-]. specialize (IH _ eq_refl). simpl. lia.
Qed.

Lemma occurrences_skip w : forall s k,
  occurrences_from w k s = occurrences w (drop k s).
Proof.
  induction s as [|c s IH]; intros [|k]; simpl; auto.
Qed.

Lemma occurrences_none w : forall s, find w s = None -> occurrences w s = 0.
Proof.
  unfold occurrences. induction s as [|c s IH]; simpl; [done|].
  destruct (prefix_here w (c :: s)); [done|].
  destruct (find w s); [done|]. auto.
Qed.

Lemma occurrences_some w : w <> [] -> forall s j,
  find w s = Some j ->
  occurrences w s = S (occurrences w (drop (j + length w) s)).
Proof.
  intros Hw. unfold occurrences at 1. induction s as [|c s IH]; intros j.
  - destruct w; [done|]. simpl. done.
  - simpl find. simpl occurrences_from.
    destruct (prefix_here w (c :: s)).
    + intros [= <-]. rewrite occurrences_skip. f_equal.
      destruct w; [done|]. simpl. by rewrite Nat.sub_0_r.
    + destruct (find w s) as [j'|] eqn:Hf; [|done].
      intros [= <-]. by rewrite (IH j').
Qed.

(** The matches of a global literal pattern are the occurrences. *)
Lemma exec_loop_lit (w : string) s : str w <> [] ->
  forall fuel i, i <= length s -> length s - i < fuel ->
  length (exec_loop fl_plain fuel (lit_chars w) s i) = occurrences (str w) (drop i s).
Proof.
  intros Hw. induction fuel as [|fuel IH]; intros i Hi Hf; [lia|].
  simpl. unfold exec. destruct (Nat.ltb_spec (length s) i); [lia|].
  rewrite search_lit, length_reverse, length_take_le by done.
  destruct (find (str w) (drop i s)) as [j|] eqn:Hfind; simpl.
  - pose proof (find_bound _ _ _ Hfind) as Hb. rewrite length_drop in Hb.
    assert (Hw' : 1 <= length (str w)) by (destruct (str w); [done|simpl; lia]).
    rewrite IH; [|lia..].
    rewrite (occurrences_some _ Hw _ _ Hfind), drop_drop.
    do 3 f_equal. lia.
  - by rewrite occurrences_none.
Qed.

Lemma matches_occurrences (w : string) s :
  str w <> [] -> TextProcessor.matches w s = occurrences (str w) s.
Proof.
  intros Hw. unfold TextProcessor.matches, p_exec_all, exec_all.
  cbn [p_flags p_re].
  rewrite (exec_loop_lit w s Hw) by lia. by rewrite drop_0.
Qed.

End Literal.

Lemma score_loop_plus (ws : list string) s :
  Forall (fun w => str w <> []) ws -> forall z : Z,
  foldl (fun score word => (score + Z.of_nat (TextProcessor.matches word s) * 1)%Z)
    z ws
  = (z + Z.of_nat (total_occurrences ws s))%Z.
Proof.
  unfold total_occurrences.
  induction 1 as [|w ws Hw _ IH]; intros z; simpl; [lia|].
  rewrite IH, matches_occurrences by done. lia.
Qed.

Lemma score_loop_minus (ws : list string) s :
  Forall (fun w => str w <> []) ws -> forall z : Z,
  foldl (fun score word => (score - Z.of_nat (TextProcessor.matches word s) * 1)%Z)
    z ws
  = (z - Z.of_nat (total_occurrences ws s))%Z.
Proof.
  unfold total_occurrences.
  induction 1 as [|w ws Hw _ IH]; intros z; simpl; [lia|].
  rewrite IH, matches_occurrences by done. lia.
Qed.

Lemma raw_score_net text : TextProcessor.raw_score text = net_score text.
Proof.
  unfold TextProcessor.raw_score, net_score. cbv zeta.
  rewrite score_loop_minus, score_loop_plus; [lia|..];
    repeat constructor; discriminate.
Qed.

Lemma all_chars_complete c : In c all_chars.
Proof.
  unfold all_chars. apply in_map_iff. exists (nat_of_ascii c).
  split; [apply ascii_nat_embedding|].
  apply in_seq. pose proof (nat_ascii_bounded c). lia.
Qed.

Lemma same_letter_lower w c :
  is_lower w = true ->
  same_letter w c = bool_decide (w = lower c).
Proof.
  assert (H : forallb (fun w =>
              if is_lower w
              then forallb (fun c =>
                     Bool.eqb (same_letter w c) (bool_decide (w = lower c)))
                     all_chars
              else true) all_chars = true) by (vm_compute; reflexivity).
  rewrite forallb_forall in H. specialize (H w (all_chars_complete w)).
  intros Hw. rewrite Hw, forallb_forall in H.
  by apply Bool.eqb_prop, H, all_chars_complete.
Qed.

Lemma starts_with_lower w : Forall (fun a => is_lower a = true) w -> forall s,
  starts_with w s = prefix_here w (toLowerCase s).
Proof.
  induction 1 as [|a w Ha _ IH]; intros s; [done|].
  destruct s as [|c s]; [done|]. cbn [starts_with toLowerCase map prefix_here].
  rewrite same_letter_lower, IH by done. fold (toLowerCase s).
  case_bool_decide; destruct (decide (a = lower c)); simpl; congruence.
Qed.

Lemma count_from_lower w : Forall (fun a => is_lower a = true) w -> forall s skip,
  count_from w skip s = occurrences_from w skip (toLowerCase s).
Proof.
  intros Hw. induction s as [|c s IH]; intros skip; [done|].
  cbn [count_from toLowerCase map occurrences_from].
  fold (toLowerCase s). destruct skip as [|k]; [|apply IH].
  rewrite (starts_with_lower w Hw (c :: s)). cbn [toLowerCase map].
  fold (toLowerCase s). rewrite !IH. done.
Qed.

Lemma split_on_spaces d s : forall cur,
  length (split_on d cur s)
  = S (length (List.filter (fun c => bool_decide (c = d)) s)).
Proof.
  induction s as [|c s IH]; intros cur; [done|]. cbn [split_on List.filter].
  case_bool_decide; destruct (decide (c = d)); try congruence; simpl; by rewrite IH.
Qed.

Lemma word_count_split text :
  word_count text = length (split_space text).
Proof.
  unfold word_count, split_space. rewrite split_on_spaces. f_equal. f_equal.
  apply List.filter_ext. intros c.
  destruct (bool_decide_reflect (c = " "%char)) as [->|Hn]; [done|].
  apply Nat.eqb_neq. intros Hc. apply Hn.
  rewrite <- (ascii_nat_embedding c), Hc. done.
Qed.

Lemma total_count (ws : list string) text :
  Forall (fun w => Forall (fun a => is_lower a = true) (str w)) ws ->
  sum_list (map (fun w => count w text) ws)
  = total_occurrences ws (toLowerCase text).
Proof.
  unfold total_occurrences, count, occurrences.
  induction 1 as [|w ws Hw _ IH]; [done|]. cbn [map sum_list].
  by rewrite IH, count_from_lower.
Qed.

Lemma net_raw_score text : net text = TextProcessor.raw_score text.
Proof.
  rewrite raw_score_net. unfold net, net_score.
  rewrite !total_count; [done|..]; cbn [str];
    repeat (constructor; try reflexivity).
Qed.

(** C8.  The sentiment score is the number of occurrences of the
    positive words (good, great, excellent, positive, success, complete,
    done, resolved) minus that of the negative words (bad, problem, issue,
    fail, block, stuck, difficult, concern), both counted in the text
    whatever the case of its letters, over [max(wordCount * 0.1, 1)], where
    the words are what the spaces of the text separate, clamped to
    [-1, 1]; it lies between -1 and 1 for every text, and it is 0 on the
    empty string. *)
Theorem analyzeSentiment_rule (text : JStr.t) :
  TextProcessor.analyzeSentiment text = sentiment text /\
  (-1 <= TextProcessor.analyzeSentiment text <= 1)%Q /\
  (TextProcessor.analyzeSentiment [] == 0)%Q.
Proof.
  split; [|split].
  - unfold TextProcessor.analyzeSentiment, sentiment. cbv zeta.
    by rewrite net_raw_score, word_count_split.
  - unfold TextProcessor.analyzeSentiment. cbv zeta. split.
    + apply Q.le_max_l.
    + apply Q.max_lub; [done|apply Q.le_min_l].
  - vm_compute. reflexivity.
Qed.

(* ===================================================================== *)
(** * More of the two services *)
(* ===================================================================== *)

(** * Runs of a class of characters *)

Section Runs.
Variable fl : flags.
Variable cs : cset.

Local Abbreviation f := (cs_match fl cs).

Lemma run_split s : s = run_of f s ++ after_run f s.
Proof. induction s as [|c s IH]; simpl; [done|]. destruct (f c); simpl; congruence. Qed.

Lemma run_of_Forall s : Forall (fun c => f c = true) (run_of f s).
Proof.
  induction s as [|c s IH]; simpl; [constructor|].
  destruct (f c) eqn:Hc; by constructor.
Qed.

Lemma take_run s : take (length (run_of f s)) s = run_of f s.
Proof.
  induction s as [|c s IH]; simpl; [done|]. destruct (f c); simpl; congruence.
Qed.

(** With a continuation that accepts any state, a greedy quantifier
    without upper bound takes the whole run. *)
Lemma rep_greedy_run lo after : forall n before caps,
  rep_greedy fl cs lo None n before after caps Some =
  if lo <=? n + length (run_of f after)
  then Some (MState (reverse (run_of f after) ++ before) (after_run f after) caps)
  else None.
Proof.
  induction after as [|c after IH]; intros n before caps; simpl.
  - rewrite Nat.add_0_r. done.
  -  destruct (f c) eqn:Hc.
    + rewrite IH. simpl. rewrite reverse_cons, <- app_assoc. simpl.
      destruct (Nat.leb_spec lo (S (n + length (run_of f after)))),
               (Nat.leb_spec lo (n + S (length (run_of f after)))); try lia; [done|].
      destruct (Nat.leb_spec lo n); [lia|done].
    + simpl. rewrite Nat.add_0_r. done.
Qed.

Lemma search_plus after : forall before,
  search fl (plus cs) before after =
  match after with
  | [] => None
  | c :: rest =>
      if f c then
        Some (Result (length before) (length before + length (run_of f after))
                (run_of f after) [])
      else search fl (plus cs) (c :: before) rest
  end.
Proof.
  destruct after as [|c rest]; intros before.
  - reflexivity.
  - cbn [search]. unfold plus at 1. cbn [rmatch m_before m_after m_caps].
    rewrite rep_greedy_run. cbn [run_of].  destruct (f c) eqn:Hc.
    + simpl length. rewrite Nat.add_0_l. simpl Nat.leb.
      unfold consumed, pos. cbn [m_before m_after m_caps].
      rewrite length_app, length_reverse. simpl length.
      replace (S (length (run_of f rest)) + length before - length before)
        with (S (length (run_of f rest))) by lia.
      f_equal. f_equal; [lia|].
      rewrite firstn_cons. by rewrite take_run.
    + reflexivity.
Qed.

Lemma after_run_length s : length (after_run f s) <= length s.
Proof. induction s as [|c s IH]; simpl; [done|]. destruct (f c); simpl; lia. Qed.

Lemma replace_runs_in_run rep s :
  replace_runs f rep true s = replace_runs f rep false (after_run f s).
Proof.
  induction s as [|c s IH]; simpl; [done|].
  destruct (f c) eqn:Hc; [done|]. simpl. by rewrite Hc.
Qed.

Lemma split_runs_in_run s :
  split_runs f true [] s = split_runs f false [] (after_run f s).
Proof.
  induction s as [|c s IH]; simpl; [done|].
  destruct (f c) eqn:Hc; [done|]. simpl. by rewrite Hc.
Qed.

Lemma exec_split r before after :
  exec fl r (reverse before ++ after) (length before) = search fl r before after.
Proof.
  unfold exec. rewrite length_app, length_reverse.
  destruct (Nat.ltb_spec (length before + length after) (length before)); [lia|].
  rewrite <- (length_reverse before) at 1 2.
  by rewrite take_app_length, drop_app_length, reverse_involutive.
Qed.

(** The matches of [cs+] from a position on, when the text before the
    position plays no part: the first match found from [before] on. *)
Lemma exec_loop_skip fuel before c rest :
  f c = false ->
  exec_loop fl (S fuel) (plus cs) (reverse before ++ c :: rest) (length before) =
  exec_loop fl (S fuel) (plus cs) (reverse before ++ c :: rest) (S (length before)).
Proof.
  intros Hc. cbn [exec_loop].
  replace (reverse before ++ c :: rest) with (reverse (c :: before) ++ rest)
    by (by rewrite reverse_cons, <- app_assoc).
  rewrite (exec_split _ (c :: before) rest).
  replace (reverse (c :: before) ++ rest) with (reverse before ++ c :: rest)
    by (by rewrite reverse_cons, <- app_assoc).
  rewrite exec_split, search_plus.  by rewrite Hc.
Qed.

Lemma exec_loop_hit fuel before c rest :
  f c = true ->
  exec_loop fl (S fuel) (plus cs) (reverse before ++ c :: rest) (length before) =
  Result (length before) (length before + length (run_of f (c :: rest)))
    (run_of f (c :: rest)) [] ::
  exec_loop fl fuel (plus cs) (reverse before ++ c :: rest)
    (length before + length (run_of f (c :: rest))).
Proof.
  intros Hc. cbn [exec_loop]. rewrite exec_split, search_plus. by rewrite Hc.
Qed.

Lemma exec_loop_first fuel r s i m ms :
  exec_loop fl fuel r s i = m :: ms -> i <= index m.
Proof.
  destruct fuel as [|fuel]; [done|]. simpl.
  destruct (exec fl r s i) as [m'|] eqn:He; [|done].
  intros [= <- _]. by apply exec_sound in He as [? _].
Qed.

End Runs.

Lemma substring_same a s : substring a a s = [].
Proof. unfold substring. by rewrite Nat.sub_diag. Qed.

Lemma drop_at (before : JStr.t) after : drop (length before) (reverse before ++ after) = after.
Proof. rewrite <- (length_reverse before). by rewrite drop_app_length. Qed.

Lemma drop_S_at (before : JStr.t) c rest :
  drop (S (length before)) (reverse before ++ c :: rest) = rest.
Proof.
  replace (reverse before ++ c :: rest) with (reverse (c :: before) ++ rest)
    by (by rewrite reverse_cons, <- app_assoc).
  apply (drop_at (c :: before)).
Qed.

Lemma substring_cons (before : JStr.t) c rest b :
  length before < b ->
  substring (length before) b (reverse before ++ c :: rest) =
  c :: substring (S (length before)) b (reverse before ++ c :: rest).
Proof.
  intros Hb. unfold substring. rewrite drop_at.
  replace (reverse before ++ c :: rest) with (reverse (c :: before) ++ rest)
    by (by rewrite reverse_cons, <- app_assoc).
  change (S (length before)) with (length (c :: before)). rewrite drop_at.
  simpl length. destruct (b - length before) as [|k] eqn:Hk; [lia|].
  simpl. f_equal. f_equal. lia.
Qed.

Lemma substring_snoc (before : JStr.t) c rest p :
  p <= length before ->
  substring p (S (length before)) (reverse before ++ c :: rest) =
  substring p (length before) (reverse before ++ c :: rest) ++ [c].
Proof.
  intros Hp. unfold substring.
  rewrite drop_app_le by (rewrite length_reverse; lia).
  set (d := drop p (reverse before)).
  assert (Hd : length d = length before - p)
    by (unfold d; rewrite length_drop, length_reverse; lia).
  replace (S (length before) - p) with (length d + 1) by lia.
  rewrite <- Hd. by rewrite take_app_add, take_app_length.
Qed.

Section Splice.
Variable fl : flags.
Variable cs : cset.

Local Abbreviation f := (cs_match fl cs).

(** [s.replace(/[cs]+/g, rep)] replaces each maximal run. *)
Lemma splice_runs rep : forall fuel before after,
  length after < fuel ->
  splice (reverse before ++ after) (length before)
    (exec_loop fl fuel (plus cs) (reverse before ++ after) (length before)) rep
  = replace_runs f rep false after.
Proof.
  induction fuel as [|fuel IH]; [intros; lia|].
  intros before after. revert before.
  induction after as [|c rest IHa]; intros before Hlen.
  - cbn [exec_loop]. rewrite exec_split. simpl. by rewrite drop_at.
  - cbn [replace_runs].  destruct (f c) eqn:Hc.
    + rewrite exec_loop_hit by done. cbn [splice index last].
      rewrite substring_same. simpl app. f_equal.
      rewrite (replace_runs_in_run fl cs).
      pose proof (after_run_length fl cs rest) as Hl.
      assert (Heq : reverse before ++ c :: rest =
                reverse (reverse (run_of f (c :: rest)) ++ before) ++
                after_run f (c :: rest)).
      { by rewrite reverse_app, reverse_involutive, <- app_assoc, <- run_split. }
      assert (Hi : length before + length (run_of f (c :: rest)) =
                length (reverse (run_of f (c :: rest)) ++ before))
        by (rewrite length_app, length_reverse; lia).
      change (if f c then c :: run_of f rest else []) with (run_of f (c :: rest)).
      rewrite Hi, Heq.
      rewrite IH; [|simpl; rewrite Hc; simpl in Hlen; lia].
      simpl. by rewrite Hc.
    + rewrite exec_loop_skip by done.
      specialize (IHa (c :: before)).
      rewrite reverse_cons, <- app_assoc in IHa. cbn [app length] in IHa.
      rewrite <- IHa by (simpl in Hlen; lia).
      destruct (exec_loop fl (S fuel) (plus cs) (reverse before ++ c :: rest)
                  (S (length before))) as [|m ms] eqn:Hms.
      * cbn [splice]. by rewrite drop_at, drop_S_at.
      * apply exec_loop_first in Hms. cbn [splice].
        by rewrite substring_cons by lia.
Qed.

Lemma pieces_runs : forall fuel before after p,
  p <= length before -> length after < fuel ->
  pieces (reverse before ++ after) p
    (exec_loop fl fuel (plus cs) (reverse before ++ after) (length before))
  = split_runs f false
      (reverse (substring p (length before) (reverse before ++ after))) after.
Proof.
  induction fuel as [|fuel IH]; [intros; lia|].
  intros before after. revert before.
  induction after as [|c rest IHa]; intros before p Hp Hlen.
  - cbn [exec_loop]. rewrite exec_split. simpl. rewrite reverse_involutive.
    unfold substring. f_equal. rewrite app_nil_r.
    rewrite take_ge; [done|]. rewrite length_drop, length_reverse. lia.
  - cbn [split_runs].  destruct (f c) eqn:Hc.
    + rewrite exec_loop_hit by done. cbn [pieces index last].
      rewrite reverse_involutive. f_equal.
      rewrite (split_runs_in_run fl cs).
      pose proof (after_run_length fl cs rest) as Hl.
      assert (Heq : reverse before ++ c :: rest =
                reverse (reverse (run_of f (c :: rest)) ++ before) ++
                after_run f (c :: rest)).
      { by rewrite reverse_app, reverse_involutive, <- app_assoc, <- run_split. }
      assert (Hi : length before + length (run_of f (c :: rest)) =
                length (reverse (run_of f (c :: rest)) ++ before))
        by (rewrite length_app, length_reverse; lia).
      change (if f c then c :: run_of f rest else []) with (run_of f (c :: rest)).
      rewrite Hi, Heq.
      rewrite IH; [|lia|simpl; rewrite Hc; simpl in Hlen; lia].
      rewrite substring_same. simpl. by rewrite Hc.
    + rewrite exec_loop_skip by done.
      specialize (IHa (c :: before) p).
      rewrite reverse_cons, <- app_assoc in IHa. cbn [app length] in IHa.
      rewrite IHa by (simpl in Hlen; lia).
      by rewrite substring_snoc, reverse_app by done.
Qed.

Lemma replace_all_runs rep s :
  replace_all (Pattern fl (plus cs)) rep s = replace_runs f rep false s.
Proof.
  unfold replace_all, p_exec_all, exec_all. cbn [p_flags p_re].
  apply (splice_runs rep (S (length s)) [] s). lia.
Qed.

Lemma split_re_runs s :
  split_re (Pattern fl (plus cs)) s = split_runs f false [] s.
Proof.
  unfold split_re, p_exec_all, exec_all. cbn [p_flags p_re].
  apply (pieces_runs (S (length s)) [] s 0); simpl; lia.
Qed.

End Splice.

(** * Strings *)

Lemma prefix_here_spec p : forall s, prefix_here p s = true <-> exists b, s = p ++ b.
Proof.
  induction p as [|a p IH]; intros s; simpl.
  - split; eauto.
  - destruct s as [|c s].
    + split; [done|]. by intros [b ?].
    + destruct (decide (a = c)) as [->|Hne].
      * rewrite IH. split; intros [b Hb]; exists b; congruence.
      * split; [done|]. intros [b [= ? _]]. done.
Qed.

Lemma includes_spec p : forall s, includes p s = true <-> piece_of p s.
Proof.
  unfold piece_of. induction s as [|c s IH]; simpl.
  - rewrite orb_false_r, prefix_here_spec. split.
    + intros [b ->]. by exists [], b.
    + intros (a & b & H). destruct a; [by exists b|done].
  - rewrite orb_true_iff, prefix_here_spec, IH. split.
    + intros [[b ->]|(a & b & ->)]; [by exists [], b|by exists (c :: a), b].
    + intros (a & b & H). destruct a as [|c' a]; [left; by exists b|].
      right. injection H as -> ->. eauto.
Qed.

Lemma trimStart_suffix s :
  exists pre, s = pre ++ trimStart s /\ Forall (fun c => is_space c = true) pre.
Proof.
  induction s as [|c s (pre & IH & Hpre)]; simpl.
  - by exists [].
  - destruct (is_space c) eqn:Hc.
    + exists (c :: pre). split; [simpl; congruence|by constructor].
    + by exists [].
Qed.

Lemma trimStart_clean s : starts_clean (trimStart s).
Proof.
  induction s as [|c s IH]; simpl; [done|].
  destruct (is_space c) eqn:Hc; [done|]. simpl. done.
Qed.

Lemma trimStart_id s : starts_clean s -> trimStart s = s.
Proof. destruct s as [|c s]; simpl; [done|]. by intros ->. Qed.

Lemma trimEnd_prefix s :
  exists post, s = trimEnd s ++ post /\ Forall (fun c => is_space c = true) post.
Proof.
  unfold trimEnd. destruct (trimStart_suffix (reverse s)) as (pre & H & Hpre).
  exists (reverse pre). split.
  - rewrite <- reverse_app, <- H. by rewrite reverse_involutive.
  - rewrite Forall_forall in *. intros c Hc. apply Hpre. by apply elem_of_reverse.
Qed.

Lemma trimEnd_clean s : starts_clean (reverse (trimEnd s)).
Proof. unfold trimEnd. rewrite reverse_involutive. apply trimStart_clean. Qed.

Lemma trimEnd_id s : starts_clean (reverse s) -> trimEnd s = s.
Proof. intros H. unfold trimEnd. by rewrite trimStart_id, reverse_involutive. Qed.

Lemma trimStart_snoc c : is_space c = false -> forall l,
  exists l', trimStart (l ++ [c]) = l' ++ [c].
Proof.
  intros Hc. induction l as [|d l [l' IH]]; simpl.
  - rewrite Hc. by exists [].
  - destruct (is_space d); [eauto|]. by exists (d :: l).
Qed.

Lemma trimEnd_starts_clean s : starts_clean s -> starts_clean (trimEnd s).
Proof.
  destruct s as [|c s]; [done|]. simpl. intros Hc. unfold trimEnd.
  rewrite reverse_cons.
  destruct (trimStart_snoc c Hc (reverse s)) as [l' ->].
  by rewrite reverse_app.
Qed.

Lemma trim_piece s :
  exists pre post, s = pre ++ trim s ++ post /\
    Forall (fun c => is_space c = true) pre /\
    Forall (fun c => is_space c = true) post.
Proof.
  unfold trim. destruct (trimStart_suffix s) as (pre & H1 & Hpre).
  destruct (trimEnd_prefix (trimStart s)) as (post & H2 & Hpost).
  exists pre, post. split; [|done]. by rewrite <- H2.
Qed.

Lemma trim_starts_clean s : starts_clean (trim s).
Proof. apply trimEnd_starts_clean, trimStart_clean. Qed.

Lemma trim_ends_clean s : starts_clean (reverse (trim s)).
Proof. apply trimEnd_clean. Qed.

Lemma trim_id s : starts_clean s -> starts_clean (reverse s) -> trim s = s.
Proof. intros H1 H2. unfold trim. rewrite trimStart_id by done. by apply trimEnd_id. Qed.

Lemma trim_trim s : trim (trim s) = trim s.
Proof. apply trim_id; [apply trim_starts_clean|apply trim_ends_clean]. Qed.

Lemma trim_length s : length (trim s) <= length s.
Proof.
  destruct (trim_piece s) as (pre & post & H & _).
  rewrite H at 2. rewrite !length_app. lia.
Qed.

Lemma ink_app a b : ink (a ++ b) = ink a ++ ink b.
Proof. apply List.filter_app. Qed.

Lemma ink_spaces s : Forall (fun c => is_space c = true) s -> ink s = [].
Proof.
  induction 1 as [|c s Hc _ IH]; simpl; [done|]. by rewrite Hc.
Qed.

Lemma ink_trim s : ink (trim s) = ink s.
Proof.
  destruct (trim_piece s) as (pre & post & H & Hpre & Hpost).
  rewrite H at 2. rewrite !ink_app, (ink_spaces pre), (ink_spaces post) by done.
  by rewrite app_nil_r.
Qed.

Lemma single_spaced_app a b : single_spaced (a ++ b) = true ->
  single_spaced a = true /\ single_spaced b = true.
Proof.
  induction a as [|c a IH]; simpl; [done|].
  intros [H1 H2]%andb_true_iff. apply IH in H2 as [Ha Hb]. split; [|done].
  apply andb_true_iff. split; [|done].
  apply orb_true_iff in H1 as [H1|H1]; [by rewrite H1|].
  apply andb_true_iff in H1 as [H1 H3]. rewrite H1. simpl.
  destruct a as [|d a]; simpl in *; [by rewrite orb_true_r|].
  rewrite H3. by rewrite orb_true_r.
Qed.

Lemma single_spaced_trim s : single_spaced s = true -> single_spaced (trim s) = true.
Proof.
  destruct (trim_piece s) as (pre & post & H & _). intros Hs. rewrite H in Hs.
  by apply single_spaced_app in Hs as [_ [Hs _]%single_spaced_app].
Qed.

(** * The cleaned transcript *)

Lemma replace_runs_spaced b : forall s,
  let r := replace_runs is_space (str " ") b s in
  single_spaced r = true /\ (b = true -> starts_clean r).
Proof.
  intros s. revert b. induction s as [|c s IH]; intros b; simpl; [done|].
  destruct (is_space c) eqn:Hc.
  - destruct b.
    + apply IH.
    + destruct (IH true) as [H1 H2]. specialize (H2 eq_refl). split; [|done].
      change (single_spaced (" "%char :: replace_runs is_space (str " ") true s) = true).
      destruct (replace_runs is_space (str " ") true s) as [|d r]; [done|].
      change (is_space d = false) in H2.
      change ((negb (is_space " "%char) ||
               (bool_decide (" "%char = " "%char) && negb (is_space d)))
              && single_spaced (d :: r) = true).
      by rewrite H1, H2.
  - destruct (IH false) as [H1 _]. split; [|done].
    change ((negb (is_space c) ||
             (bool_decide (c = " "%char) &&
              match replace_runs is_space (str " ") false s with
              | d :: _ => negb (is_space d) | [] => true end))
            && single_spaced (replace_runs is_space (str " ") false s) = true).
    by rewrite H1, Hc.
Qed.

Lemma replace_runs_ink b s : ink (replace_runs is_space (str " ") b s) = ink s.
Proof.
  revert b. induction s as [|c s IH]; intros b; simpl; [done|].
  destruct (is_space c) eqn:Hc; simpl.
  - destruct b; simpl; apply IH.
  - rewrite Hc. simpl. by rewrite IH.
Qed.

Lemma replace_runs_length s : forall b,
  length (replace_runs is_space (str " ") b s) <= length s.
Proof.
  induction s as [|c s IH]; intros b; [done|].
  pose proof (IH true). pose proof (IH false).
  cbn [replace_runs]. destruct (is_space c); [destruct b|];
    cbn [str app length] in *; lia.
Qed.

Lemma replace_runs_fixed : forall s,
  single_spaced s = true -> replace_runs is_space (str " ") false s = s.
Proof.
  induction s as [|c s IH]; [done|].
  cbn [single_spaced replace_runs]. intros [H1 H2]%andb_true_iff.
  specialize (IH H2). destruct (is_space c) eqn:Hc; [|by rewrite IH].
  cbn [negb orb] in H1.
  apply andb_true_iff in H1 as [->%bool_decide_eq_true_1 H3].
  cbn [str app]. f_equal. destruct s as [|d s]; [done|].
  apply negb_true_iff in H3. cbn [replace_runs] in *. by rewrite H3 in *.
Qed.

Lemma normalize_runs s :
  normalize s = trim (replace_runs is_space (str " ") false s).
Proof.
  unfold normalize, whitespace_run. by rewrite replace_all_runs.
Qed.

Lemma normalize_clean s :
  single_spaced (normalize s) = true /\ trim (normalize s) = normalize s.
Proof.
  rewrite normalize_runs. destruct (replace_runs_spaced false s) as [Hs _].
  split; [by apply single_spaced_trim|apply trim_trim].
Qed.

(** * White space and truncation *)

Lemma blank_is_space c : blank c = is_space c.
Proof. by destruct c as [[] [] [] [] [] [] [] []]. Qed.

Lemma trimStart_app_one l c :
  trimStart (l ++ [c])
  = match trimStart l with [] => trimStart [c] | r => r ++ [c] end.
Proof.
  induction l as [|a l IH]; [done|]. cbn [app trimStart].
  destruct (is_space a); [exact IH|done].
Qed.

Lemma trimEnd_cons c s :
  trimEnd (c :: s)
  = match trimEnd s with
    | [] => if is_space c then [] else [c]
    | r => c :: r
    end.
Proof.
  unfold trimEnd. rewrite reverse_cons, trimStart_app_one.
  destruct (trimStart (reverse s)) as [|a r] eqn:Hr.
  - rewrite reverse_nil. cbn [trimStart]. by destruct (is_space c).
  - rewrite reverse_app, reverse_singleton. cbn [app].
    destruct (reverse (a :: r)) eqn:Hrev; [|done].
    apply (f_equal reverse) in Hrev. by rewrite reverse_involutive in Hrev.
Qed.

Lemma trimEnd_replace_runs s :
  trimEnd (replace_runs is_space (str " ") false s) = collapse_from true false s /\
  spaced (trimEnd (replace_runs is_space (str " ") true s))
  = collapse_from true true s.
Proof.
  induction s as [|c s [IH1 IH2]]; [done|].
  cbn [replace_runs collapse_from]. rewrite blank_is_space.
  destruct (is_space c) eqn:Hc.
  - split; [|exact IH2]. cbn [str app]. rewrite trimEnd_cons, <- IH2.
    change (str " ") with [" "%char]. destruct (trimEnd (replace_runs is_space [" "%char] true s)); reflexivity.
  - cbn [andb app]. rewrite trimEnd_cons, Hc, IH1.
    by destruct (collapse_from true false s).
Qed.

Lemma trimStart_replace_runs s : forall b,
  trimStart (replace_runs is_space (str " ") b s)
  = replace_runs is_space (str " ") false (trimStart s).
Proof.
  induction s as [|c s IH]; intros b; [done|].
  cbn [replace_runs trimStart]. destruct (is_space c) eqn:Hc.
  - destruct b; cbn [str app trimStart]; by rewrite ?IH.
  - cbn [trimStart replace_runs]. by rewrite Hc.
Qed.

Lemma collapse_from_start s : forall gap,
  collapse_from false gap s = collapse_from true false (trimStart s).
Proof.
  induction s as [|c s IH]; intros gap; [done|].
  cbn [collapse_from trimStart]. rewrite blank_is_space.
  destruct (is_space c) eqn:Hc; [apply IH|].
  cbn [collapse_from]. by rewrite blank_is_space, Hc.
Qed.

(** What [cleanTranscript] does to white space is what the specification
    calls normalization. *)
Lemma normalize_collapse s : normalize s = collapse s.
Proof.
  rewrite normalize_runs. unfold trim, collapse.
  rewrite trimStart_replace_runs, collapse_from_start.
  apply trimEnd_replace_runs.
Qed.

Section Truncation.

Variable fuse_search :
  forall A : Type, (A -> JStr.t) -> Q -> list A -> JStr.t -> list A.

(** C3.  When the transcript with its white space collapsed is longer
    than the tier's [maxTranscriptLength], [cleanTranscript] keeps exactly
    that many characters of it and appends the marker '...'; the record is
    built from this text alone, so every extractor works on it, and the
    length of the [transcript] field is the maximum plus 3, the length of
    the marker.  A transcript at or under the maximum is passed on with its
    white space collapsed and nothing else changed. *)
Theorem processMeeting_truncates (now s : JStr.t) (tier : option JStr.t)
    (c : tier_config) :
  s <> [] ->
  config_for (default (str "basic") tier) = OwnTier c ->
  let limit := maxTranscriptLength c in
  let cleaned := collapse s in
  let text :=
    if decide (limit < length cleaned)
    then take limit cleaned ++ str "..."
    else cleaned in
  cleanTranscript (VString s) (Some limit) = Return text /\
  (limit < length cleaned -> length text = limit + 3) /\
  processMeeting fuse_search now (VString s) tier
  = (calls_of (default (str "basic") tier),
     Return (analysis_of fuse_search now (default (str "basic") tier) text
               (Some (summaryLength c)))).
Proof.
  intros Hs Hc limit cleaned text.
  assert (Hclean : cleanTranscript (VString s) (Some limit) = Return text).
  { unfold cleanTranscript, text, cleaned. simpl falsy.
    rewrite bool_decide_false by done. unfold exceeds, substring. simpl default.
    rewrite drop_0, Nat.sub_0_r, normalize_collapse.
    destruct (decide (limit < length (collapse s))) as [H|H].
    - by apply Nat.ltb_lt in H as ->.
    - by apply Nat.ltb_nlt in H as ->. }
  split; [done|]. split.
  - intros H. unfold text. rewrite decide_True by done.
    rewrite length_app, length_take. change (length (str "...")) with 3. lia.
  - rewrite processMeeting_run. cbv zeta. rewrite Hc.
    cbn [cfg_maxTranscriptLength cfg_summaryLength].
    fold limit. by rewrite Hclean.
Qed.

End Truncation.

(** C3 on a transcript of 60007 characters, 50004 of them left when the
    white space is collapsed, under the 'basic' tier. *)
Lemma processMeeting_truncates_witness :
  long_transcript <> [] /\
  config_for (default (str "basic") None) = OwnTier config_basic /\
  length long_transcript = 60007 /\
  length (collapse long_transcript) = 50004 /\
  (let limit := maxTranscriptLength config_basic in
   let cleaned := collapse long_transcript in
   let text :=
     if decide (limit < length cleaned)
     then take limit cleaned ++ str "..."
     else cleaned in
   cleanTranscript (VString long_transcript) (Some limit) = Return text /\
   (limit < length cleaned -> length text = limit + 3) /\
   processMeeting exact_search (str "now") (VString long_transcript) None
   = (calls_of (default (str "basic") None),
      Return (analysis_of exact_search (str "now") (default (str "basic") None)
                text (Some (summaryLength config_basic))))).
Proof.
  assert (H1 : long_transcript <> []) by discriminate.
  assert (H2 : config_for (default (str "basic") None) = OwnTier config_basic)
    by reflexivity.
  split; [exact H1|]. split; [exact H2|].
  split; [apply Nat.eqb_eq; vm_compute; reflexivity|].
  split; [apply Nat.eqb_eq; vm_compute; reflexivity|].
  exact (processMeeting_truncates exact_search (str "now") long_transcript
           None config_basic H1 H2).
Defined.

(** X1.  The text [cleanTranscript] works on, the transcript with every
    run of white space replaced by one space and then trimmed, has single
    spaces as its only white space and none at either end; its characters
    other than white space are those of the transcript, in order; it is no
    longer than the transcript; and cleaning it again changes nothing. *)
Theorem normalize_canonical (s : JStr.t) :
  let cleaned := normalize s in
  single_spaced cleaned = true /\
  trim cleaned = cleaned /\
  ink cleaned = ink s /\
  length cleaned <= length s /\
  normalize cleaned = cleaned.
Proof.
  intros cleaned. destruct (normalize_clean s) as [H1 H2]. fold cleaned in H1, H2.
  repeat split; try done.
  - unfold cleaned. by rewrite normalize_runs, ink_trim, replace_runs_ink.
  - unfold cleaned. rewrite normalize_runs.
    etrans; [apply trim_length|apply replace_runs_length].
  - by rewrite normalize_runs, replace_runs_fixed, H2.
Qed.

(** * Contexts *)

Lemma piece_of_refl s : piece_of s s.
Proof. exists [], []. by rewrite app_nil_r. Qed.

Lemma piece_of_trans a b c : piece_of a b -> piece_of b c -> piece_of a c.
Proof.
  intros (p1 & q1 & ->) (p2 & q2 & ->). exists (p2 ++ p1), (q1 ++ q2).
  by rewrite <- !app_assoc.
Qed.

Lemma piece_of_substring a b s : piece_of (substring a b s) s.
Proof.
  unfold substring. exists (take a s), (drop (b - a) (drop a s)).
  by rewrite take_drop, take_drop.
Qed.

Lemma piece_of_trim s : piece_of (trim s) s.
Proof. destruct (trim_piece s) as (pre & post & H & _). by exists pre, post. Qed.

Lemma window_length (transcript : JStr.t) a b :
  length (trim (substring a b transcript)) <= b - a.
Proof.
  etrans; [apply trim_length|]. unfold substring. rewrite length_take. lia.
Qed.

Lemma extractMentionContext_window transcript position ticketId :
  let context := extractMentionContext transcript position ticketId in
  length context <= length ticketId + 300 /\
  piece_of context transcript /\ trim context = context.
Proof.
  unfold extractMentionContext. cbv zeta. repeat split.
  - etrans; [apply window_length|]. lia.
  - eapply piece_of_trans; [apply piece_of_trim|apply piece_of_substring].
  - apply trim_trim.
Qed.

Lemma match_in_text p s m :
  p ∈ looping_patterns -> m ∈ p_exec_all p s -> index m < length s.
Proof.
  intros Hp Hm. pose proof loops_consume as Hc.
  rewrite Forall_forall in Hc. specialize (Hc _ Hp).
  apply exec_loop_sound in Hm as (Hl & Hs & Hw).
  apply accepts_minlen in Hw. lia.
Qed.

Lemma extractTicketMentions_built transcript :
  Forall (mention_built transcript) (extractTicketMentions transcript).
Proof.
  unfold extractTicketMentions, mention_loop.
  apply (foldl_inv (fun st => Forall (mention_built transcript) st.2));
    [constructor|].
  intros st p Hp Hst.
  apply (foldl_inv (fun st => Forall (mention_built transcript) st.2)); [done|].
  intros [mentions details] m Hm H. unfold mention_step.
  destruct (match_ticketId m) as [[|c id]|]; [done| |done].
  destruct (decide (c :: id ∈ mentions)); [done|].
  simpl in *. apply Forall_app. split; [done|].
  constructor; [|constructor]. repeat split.
  simpl. eapply match_in_text; [|exact Hm].
  unfold looping_patterns. rewrite !elem_of_app, !elem_of_cons. tauto.
Qed.

(** X2.  Every ticket mention carries as its context the window that
    [extractMentionContext] cuts around the position of its match: a part
    of the transcript, trimmed, at most 300 characters longer than the
    ticket id; and that position lies inside the transcript. *)
Theorem extractTicketMentions_context_window (transcript : JStr.t) :
  Forall (fun x =>
            m_context x
              = extractMentionContext transcript (position x) (ticketId x) /\
            length (m_context x) <= length (ticketId x) + 300 /\
            piece_of (m_context x) transcript /\
            trim (m_context x) = m_context x /\
            position x < length transcript)
    (extractTicketMentions transcript).
Proof.
  eapply Forall_impl; [apply extractTicketMentions_built|].
  intros x (Hc & _ & Hp). rewrite Hc at 2 3 4 5.
  destruct (extractMentionContext_window transcript (position x) (ticketId x))
    as (H1 & H2 & H3).
  auto.
Qed.

Lemma extractActionContext_window (transcript : JStr.t) (position : nat) :
  let context := extractActionContext transcript position in
  extractDecisionContext transcript position = context /\
  length context <= 200 /\
  piece_of context transcript /\
  trim context = context.
Proof.
  unfold extractActionContext, extractDecisionContext. cbv zeta. repeat split.
  - etrans; [apply window_length|]. lia.
  - eapply piece_of_trans; [apply piece_of_trim|apply piece_of_substring].
  - apply trim_trim.
Qed.

Local Open Scope Q_scope.

Lemma hits_le indicators text : (hits indicators text <= length indicators)%nat.
Proof. apply List.filter_length_le. Qed.

Lemma Qnat_le a b : (a <= b)%nat -> Qnat a <= Qnat b.
Proof. intros H. unfold Qnat. rewrite <- Zle_Qle. lia. Qed.

(** When the base and all the steps together stay under 1, the cap of
    [Math.min] plays no part. *)
Lemma confidence_uncapped base step indicators text :
  0 <= step -> base + step * Qnat (length indicators) <= 1 ->
  confidence_of base step indicators text
  == base + step * Qnat (hits indicators text) /\
  confidence_of base step indicators text
  <= base + step * Qnat (length indicators).
Proof.
  intros Hs Hcap. rewrite confidence_of_rule.
  assert (Hh : base + step * Qnat (hits indicators text)
               <= base + step * Qnat (length indicators)).
  { apply Qplus_le_r. rewrite !(Qmult_comm step).
    apply Qmult_le_compat_r; [|done]. apply Qnat_le, hits_le. }
  rewrite Q.min_l by lra. split; [reflexivity|done].
Qed.

(** X3.  None of the three confidence functions reaches the cap of 1.
    Each has four indicators, so a ticket mention scores 0.5 plus 0.1 for
    every indicator that matches and at most 0.9, an action item 0.3 plus
    0.15 each and at most 0.9, a decision 0.4 plus 0.1 each and at most
    0.8. *)
Theorem confidence_below_cap (text ticketId : JStr.t) :
  (calculateMentionConfidence text ticketId
     == 0.5 + 0.1 * Qnat (hits mention_indicators text) /\
   calculateMentionConfidence text ticketId <= 0.9) /\
  (calculateActionConfidence text
     == 0.3 + 0.15 * Qnat (hits action_indicators text) /\
   calculateActionConfidence text <= 0.9) /\
  (calculateDecisionConfidence text
     == 0.4 + 0.1 * Qnat (hits decision_indicators text) /\
   calculateDecisionConfidence text <= 0.8).
Proof.
  unfold calculateMentionConfidence, calculateActionConfidence,
    calculateDecisionConfidence.
  repeat split.
  all: try (apply confidence_uncapped; [done|vm_compute; discriminate]).
  all: eapply Qle_trans; [apply confidence_uncapped; [done|vm_compute; discriminate]|].
  all: vm_compute; discriminate.
Qed.

(** * Rounding *)

Lemma round_integer z : round (inject_Z z) = z.
Proof.
  unfold round.
  pose proof (Qfloor_le (inject_Z z + 0.5)) as H1.
  pose proof (Qlt_floor (inject_Z z + 0.5)) as H2.
  set (f := Qfloor (inject_Z z + 0.5)) in *.
  assert (H3 : inject_Z f < inject_Z (z + 1)).
  { rewrite inject_Z_plus. change (inject_Z 1) with 1. lra. }
  assert (H4 : inject_Z z < inject_Z (f + 1)) by lra.
  rewrite <- Zlt_Qlt in H3, H4. lia.
Qed.

Lemma round_percent q z : q * 100 == inject_Z z -> round (q * 100) = z.
Proof. intros H. unfold round. rewrite H. apply round_integer. Qed.

Lemma percent_of base step h (b s : Z) :
  base * 100 == inject_Z b -> step * 100 == inject_Z s ->
  (base + step * Qnat h) * 100 == inject_Z (b + s * Z.of_nat h).
Proof.
  intros Hb Hs. rewrite inject_Z_plus, inject_Z_mult. unfold Qnat.
  rewrite <- Hb, <- Hs. ring.
Qed.

Lemma confidence_percent (text ticketId : JStr.t) :
  round (calculateMentionConfidence text ticketId * 100)
    = (50 + 10 * Z.of_nat (hits mention_indicators text))%Z /\
  round (calculateActionConfidence text * 100)
    = (30 + 15 * Z.of_nat (hits action_indicators text))%Z /\
  round (calculateDecisionConfidence text * 100)
    = (40 + 10 * Z.of_nat (hits decision_indicators text))%Z.
Proof.
  destruct (confidence_uncapped 0.5 0.1 mention_indicators text) as [H1 _];
    [done|vm_compute; discriminate|].
  destruct (confidence_uncapped 0.3 0.15 action_indicators text) as [H2 _];
    [done|vm_compute; discriminate|].
  destruct (confidence_uncapped 0.4 0.1 decision_indicators text) as [H3 _];
    [done|vm_compute; discriminate|].
  unfold calculateMentionConfidence, calculateActionConfidence,
    calculateDecisionConfidence.
  repeat split; apply round_percent.
  - rewrite H1. by apply percent_of.
  - rewrite H2. by apply percent_of.
  - rewrite H3. by apply percent_of.
Qed.

Local Close Scope Q_scope.

(** * The summary *)

Lemma sort_length {A} (before : A -> A -> bool) l :
  length (Arr.sort before l) = length l.
Proof. apply Permutation_length, sort_Permutation. Qed.

Lemma scored_of_length sentences : length (scored_of sentences) = length sentences.
Proof. unfold scored_of, Arr.mapi. apply length_imap. Qed.

(** [Math.ceil(n * 0.3)] for four sentences or more. *)
Lemma ceil_share n : 4 <= n -> 2 <= ceil_nat (Qnat n * 0.3) <= n.
Proof.
  intros Hn. unfold ceil_nat.
  pose proof (Qle_ceiling (Qnat n * 0.3)) as H1.
  pose proof (Qceiling_lt (Qnat n * 0.3)) as H2.
  set (c := Qceiling (Qnat n * 0.3)) in *.
  assert (Hq : (4 <= Qnat n)%Q).
  { change 4%Q with (Qnat 4). by apply Qnat_le. }
  assert (H3 : (inject_Z 1 < inject_Z c)%Q) by (change (inject_Z 1) with 1%Q; lra).
  assert (H4 : (inject_Z (c - 1) < inject_Z (Z.of_nat n))%Q).
  { fold (Qnat n). lra. }
  rewrite <- Zlt_Qlt in H3, H4. lia.
Qed.

Lemma topSentences_length sentences :
  length (topSentences sentences)
  = min (min 5 (ceil_nat (Qnat (length sentences) * 0.3))) (length sentences).
Proof.
  unfold topSentences. fold (scored_of sentences).
  by rewrite sort_length, length_take, sort_length, scored_of_length.
Qed.

Lemma join_two sep (a b : JStr.t) l : join sep (a :: b :: l) = a ++ sep ++ join sep (b :: l).
Proof. done. Qed.

Lemma join_nonempty (sep : JStr.t) l : sep <> [] -> 2 <= length l -> join sep l <> [].
Proof.
  intros Hsep Hl. destruct l as [|a [|b l]]; simpl in Hl; try lia.
  rewrite join_two. intros H. apply app_eq_nil in H as [_ H].
  by apply app_eq_nil in H as [H _].
Qed.

(** X4.  For a transcript of 50 characters or more with more than three
    qualifying sentences, [generateBasicSummary] selects
    [min(5, ceil(n * 0.3))] sentences, which is between 2 and 5; the text
    they are joined into is not empty, so the fallback 'Unable to generate
    meaningful summary.' is never returned: the summary is the joined
    text, or its first [maxLength - 3] characters followed by '...'. *)
Theorem generateBasicSummary_selection (transcript : JStr.t)
    (maxLength : option nat) :
  50 <= length transcript ->
  3 < length (summary_sentences transcript) ->
  let sentences := summary_sentences transcript in
  let selected := topSentences sentences in
  let joined := join (str ". ") (map s_sentence selected) in
  length selected = min 5 (ceil_nat (Qnat (length sentences) * 0.3)) /\
  2 <= length selected <= 5 /\
  joined <> [] /\
  generateBasicSummary transcript maxLength
  = if exceeds (length joined) maxLength
    then substring 0 (default 0 maxLength - 3) joined ++ ellipsis
    else joined.
Proof.
  intros Ht Hn sentences selected joined.
  pose proof (ceil_share (length sentences) ltac:(unfold sentences; lia)) as Hc.
  assert (Hlen : length selected = min 5 (ceil_nat (Qnat (length sentences) * 0.3))).
  { unfold selected. rewrite topSentences_length. lia. }
  assert (Hj : joined <> []).
  { apply join_nonempty; [done|]. rewrite length_map. lia. }
  split; [done|]. split; [lia|]. split; [done|].
  unfold generateBasicSummary.
  rewrite bool_decide_false by (intros ->; simpl in Ht; lia).
  destruct (Nat.ltb_spec (length transcript) 50); [lia|]. simpl orb. cbv iota.
  destruct (Nat.leb_spec (length (summary_sentences transcript)) 3); [lia|].
  cbv zeta. fold sentences. fold selected. fold joined.
  destruct (exceeds (length joined) maxLength).
  - by destruct (substring 0 (default 0 maxLength - 3) joined).
  - by destruct joined.
Qed.

(** X5.  Whatever the transcript and the limit, [generateBasicSummary]
    does not return the empty string. *)
Theorem generateBasicSummary_never_empty (transcript : JStr.t)
    (maxLength : option nat) :
  generateBasicSummary transcript maxLength <> [].
Proof.
  unfold generateBasicSummary.
  destruct (bool_decide (transcript = []) || (length transcript <? 50)); [done|].
  destruct (length (summary_sentences transcript) <=? 3).
  - intros H. by apply app_eq_nil in H as [_ H].
  - cbv zeta. by destruct (if exceeds _ _ then _ else _).
Qed.

(** * Sentences *)

Section Pieces.
Variable f : ascii -> bool.

Lemma split_runs_pieces s : forall b cur,
  Forall (fun c => f c = false) cur ->
  Forall (fun piece => Forall (fun c => f c = false) piece /\
                       piece_of piece (reverse cur ++ s))
    (split_runs f b cur s).
Proof.
  induction s as [|c s IH]; intros b cur Hcur; simpl.
  - repeat constructor.
    + rewrite Forall_forall in *. intros x Hx. apply Hcur. by apply elem_of_reverse.
    + rewrite app_nil_r. apply piece_of_refl.
  - assert (Hrev : Forall (fun c => f c = false) (reverse cur)).
    { rewrite Forall_forall in *. intros x Hx. apply Hcur. by apply elem_of_reverse. }
    assert (Hrest : Forall (fun piece => Forall (fun c => f c = false) piece /\
                              piece_of piece (reverse cur ++ c :: s))
                      (split_runs f true [] s)).
    { eapply Forall_impl; [apply (IH true []); constructor|].
      intros piece [H1 (pre & post & H2)]. split; [done|].
      exists (reverse cur ++ c :: pre), post. simpl in H2. rewrite H2.
      by rewrite <- app_assoc. }
    destruct (f c) eqn:Hc.
    + destruct b; [done|]. constructor; [|done]. split; [done|].
      exists [], (c :: s). done.
    + eapply Forall_impl; [apply (IH false (c :: cur)); by constructor|].
      intros piece [H1 H2]. split; [done|].
      by rewrite reverse_cons, <- app_assoc in H2.
Qed.

End Pieces.

Lemma sentence_end_class c :
  cs_match fl_plain (COr (CChar ".") (COr (CChar "!") (CChar "?"))) c = false <->
  c ∉ ["."%char; "!"%char; "?"%char].
Proof.
  unfold cs_match. simpl.
  rewrite !orb_false_iff, !bool_decide_eq_false, !not_elem_of_cons.
  pose proof (not_elem_of_nil c). intuition congruence.
Qed.

(** X6.  The sentences that [generateBasicSummary] works with are parts
    of the transcript that hold no '.', '!' or '?', and are longer than 10
    characters once trimmed. *)
Theorem summary_sentences_pieces (transcript : JStr.t) :
  Forall (fun sentence =>
            10 < length (trim sentence) /\
            Forall (fun c => c ∉ ["."%char; "!"%char; "?"%char]) sentence /\
            piece_of sentence transcript)
    (summary_sentences transcript).
Proof.
  unfold summary_sentences, sentence_end. rewrite split_re_runs.
  apply Forall_forall. intros sentence [Hlen Hin]%list_elem_of_filter.
  pose proof (split_runs_pieces
                (cs_match fl_plain (COr (CChar ".") (COr (CChar "!") (CChar "?"))))
                transcript false [] ltac:(constructor)) as H.
  rewrite Forall_forall in H. apply H in Hin as [H1 H2].
  repeat split; [done| |done].
  eapply Forall_impl; [exact H1|]. intros c. apply sentence_end_class.
Qed.

(** * The responsible person *)

Lemma exec_piece fl r s i m :
  exec fl r s i = Some m ->
  piece_of (whole m) s /\ accepts fl r (whole m) (groups m).
Proof.
  unfold exec. destruct (length s <? i); [done|].
  intros (skipped & rest & Ha & _ & _ & Hw)%search_sound. split; [|done].
  exists (take i s ++ skipped), rest.
  rewrite <- (take_drop i s) at 1. rewrite Ha. by rewrite <- !app_assoc.
Qed.

Lemma piece_of_app_l a b c : piece_of a b -> piece_of a (b ++ c).
Proof. intros (p & q & ->). exists p, (q ++ c). by rewrite <- !app_assoc. Qed.

Lemma piece_of_app_r a b c : piece_of a c -> piece_of a (b ++ c).
Proof. intros (p & q & ->). exists (b ++ p), q. by rewrite <- !app_assoc. Qed.

Create HintDb pieces.

#[local] Hint Resolve piece_of_refl piece_of_app_l piece_of_app_r : pieces.

Lemma responsible_match p text m :
  p ∈ responsible_patterns -> p_exec p text = Some m ->
  exists name, group 1 m = Some name /\ 2 <= length name /\
               Forall (fun c => is_letter c = true) name /\
               piece_of name text.
Proof.
  intros Hp [Hpiece Hm]%exec_piece. revert Hm. unfold group.
  repeat (apply elem_of_cons in Hp as [->|Hp]); [| | |by apply elem_of_nil in Hp];
    cbn [p_flags p_re seq words alt map lit_chars accepts]; intros Hm; break;
    repeat match goal with
      | H : accepts _ (capitalized _) _ _ |- _ =>
          apply accepts_capitalized in H as (-> & ? & ?)
      | H : accepts _ (plus CSpace) _ _ |- _ => destruct H as [_ ->]
      end.
  all: match goal with H : groups _ = _ |- _ => rewrite H end.
  all: match goal with H : whole _ = _ |- _ => rewrite H in Hpiece end.
  all: simpl; eexists; split; [reflexivity|]; split; [done|]; split; [done|].
  all: eapply piece_of_trans; [|exact Hpiece]; auto 10 with pieces.
Qed.

Lemma first_group_ok (P : JStr.t -> Prop) patterns text :
  (forall p m name, p ∈ patterns -> p_exec p text = Some m ->
                    group 1 m = Some name -> P name) ->
  match first_group patterns text with
  | Some name => P name
  | None => True
  end.
Proof.
  induction patterns as [|p ps IH]; intros H; simpl; [done|].
  assert (IH' : match first_group ps text with Some name => P name | None => True end).
  { apply IH. intros p' m name Hp'. apply H. by right. }
  destruct (p_exec p text) as [m|] eqn:Hm; [|done].
  destruct (truthy (group 1 m)); [|done].
  destruct (group 1 m) as [name|] eqn:Hg; [|done].
  eapply H; [by left|exact Hm|exact Hg].
Qed.

Lemma extractResponsiblePerson_name (actionText : JStr.t) :
  match extractResponsiblePerson actionText with
  | Some name => 2 <= length name
  | None => True
  end.
Proof.
  unfold extractResponsiblePerson. apply first_group_ok.
  intros p m name Hp Hm Hg.
  destruct (responsible_match p actionText m Hp Hm) as (name' & Hg' & H & _).
  congruence.
Qed.

(** * The order of the summary *)

Lemma in_text_order_app_l parts pre text :
  in_text_order parts text -> in_text_order parts (pre ++ text).
Proof.
  destruct parts as [|part parts]; [done|].
  intros (before & after & -> & H). exists (pre ++ before), after.
  split; [by rewrite <- app_assoc|done].
Qed.

Lemma in_text_order_sublist l1 l2 : sublist l1 l2 -> forall text,
  in_text_order l2 text -> in_text_order l1 text.
Proof.
  induction 1 as [|x l1 l2 _ IH|x l1 l2 _ IH]; intros text; [done|..].
  - intros (before & after & -> & H). exists before, after. auto.
  - intros (before & after & -> & H). rewrite app_assoc.
    apply in_text_order_app_l. auto.
Qed.

Lemma in_text_order_trim l : forall text,
  in_text_order l text -> in_text_order (map trim l) text.
Proof.
  induction l as [|x l IH]; intros text; [done|].
  intros (before & after & -> & H).
  destruct (trim_piece x) as (pre & post & Hx & _).
  exists (before ++ pre), (post ++ after). split.
  - rewrite Hx at 1. by rewrite <- !app_assoc.
  - by apply in_text_order_app_l, IH.
Qed.

Lemma split_runs_in_text_order f s : forall b cur,
  in_text_order (split_runs f b cur s) (reverse cur ++ s).
Proof.
  induction s as [|c s IH]; intros b cur; cbn [split_runs].
  - exists [], []. by rewrite app_nil_r.
  - assert (Hrest : in_text_order (split_runs f true [] s) (c :: s)).
    { apply (in_text_order_app_l _ [c]), (IH true []). }
    destruct (f c).
    + destruct b.
      * by apply in_text_order_app_l.
      * by exists [], (c :: s).
    + specialize (IH false (c :: cur)).
      by rewrite reverse_cons, <- app_assoc in IH.
Qed.

Lemma summary_sentences_in_text_order transcript :
  in_text_order (summary_sentences transcript) transcript.
Proof.
  unfold summary_sentences, sentence_end. rewrite split_re_runs.
  eapply in_text_order_sublist; [apply sublist_filter|].
  apply (split_runs_in_text_order _ transcript false []).
Qed.

Lemma topSentences_selected sentences :
  sublist (map s_sentence (topSentences sentences)) (map trim sentences).
Proof.
  rewrite <- scored_sentences.
  change (sublist (s_sentence <$> topSentences sentences)
            (s_sentence <$> scored_of sentences)).
  apply fmap_sublist, topSentences_sublist.
Qed.

(** X24.  The sentences of the summary of [generateBasicSummary] come in
    the order of the transcript.  For a transcript of 50 characters or
    more with more than three qualifying sentences, the summary is made of
    sentences selected among the trimmed qualifying sentences, in their
    order there, and they are found one after the other in the transcript;
    it is these sentences joined by '. ', or the first [maxLength - 3]
    characters of that and '...' when it is longer than the limit.  With
    three qualifying sentences or fewer the summary is all of them, in the
    order of the transcript, and a shorter transcript gets the fixed
    message. *)
Theorem generateBasicSummary_in_transcript_order (transcript : JStr.t)
    (maxLength : option nat) :
  let sentences := summary_sentences transcript in
  let summary := generateBasicSummary transcript maxLength in
  if decide (length transcript < 50) then
    summary = str "Meeting transcript too short to summarize."
  else if decide (length sentences <= 3) then
    in_text_order sentences transcript /\
    summary = trim (join (str ". ") sentences) ++ str "."
  else
    exists selected,
      sublist selected (map trim sentences) /\
      in_text_order selected transcript /\
      let joined := join (str ". ") selected in
      summary
      = match maxLength with
        | Some limit =>
            if decide (limit < length joined)
            then take (limit - 3) joined ++ str "..."
            else joined
        | None => joined
        end.
Proof.
  intros sentences summary. unfold summary, generateBasicSummary.
  destruct (decide (length transcript < 50)) as [Hshort|Hlong].
  { destruct (Nat.ltb_spec (length transcript) 50); [|lia].
    by rewrite orb_true_r. }
  rewrite bool_decide_false by (intros ->; simpl in Hlong; lia).
  destruct (Nat.ltb_spec (length transcript) 50); [lia|]. cbn [orb].
  fold sentences.
  destruct (decide (length sentences <= 3)) as [Hfew|Hmany].
  { destruct (Nat.leb_spec (length sentences) 3); [|lia].
    split; [apply summary_sentences_in_text_order|done]. }
  destruct (Nat.leb_spec (length sentences) 3); [lia|]. cbv zeta.
  exists (map s_sentence (topSentences sentences)).
  split; [apply topSentences_selected|]. split.
  { eapply in_text_order_sublist; [apply topSentences_selected|].
    apply in_text_order_trim, summary_sentences_in_text_order. }
  set (joined := join (str ". ") (map s_sentence (topSentences sentences))).
  assert (Hj : joined <> []).
  { apply join_nonempty; [done|]. rewrite length_map, topSentences_length.
    pose proof (ceil_share (length sentences) ltac:(lia)). lia. }
  unfold exceeds, substring, ellipsis. rewrite drop_0, Nat.sub_0_r.
  destruct maxLength as [limit|]; cbn [default id].
  - destruct (Nat.ltb_spec limit (length joined)).
    + rewrite decide_True by lia. by destruct (take (limit - 3) joined).
    + rewrite decide_False by lia. by destruct joined.
  - by destruct joined.
Qed.

(** X7.  When [extractResponsiblePerson] finds someone, the name is a run
    of two letters or more taken from the action text; otherwise the
    outcome is [null]. *)
Theorem extractResponsiblePerson_word (actionText : JStr.t) :
  match extractResponsiblePerson actionText with
  | Some name =>
      2 <= length name /\ Forall (fun c => is_letter c = true) name /\
      piece_of name actionText
  | None => True
  end.
Proof.
  unfold extractResponsiblePerson. apply first_group_ok.
  intros p m name Hp Hm Hg.
  destruct (responsible_match p actionText m Hp Hm) as (name' & Hg' & H).
  congruence.
Qed.

(** * Action items and decisions *)

Lemma action_candidates_built transcript :
  Forall (action_built transcript) (action_candidates transcript).
Proof.
  unfold action_candidates.
  apply (foldl_inv (Forall (action_built transcript))); [constructor|].
  intros actions p Hp H.
  apply (foldl_inv (Forall (action_built transcript))); [done|].
  intros actions' m Hm H'.
  destruct (Nat.ltb_spec 10 (length (clause_text m))); [|done].
  destruct (Nat.ltb_spec (length (clause_text m)) 300); [|done]. simpl.
  apply Forall_app. split; [done|]. constructor; [|constructor].
  repeat split; simpl; try done.
  - apply trim_trim.
  - exists (index m). split; [|done].
    eapply match_in_text; [|exact Hm].
    unfold looping_patterns. rewrite !elem_of_app, !elem_of_cons. tauto.
Qed.

Lemma decision_candidates_built transcript :
  Forall (decision_built transcript) (decision_candidates transcript).
Proof.
  unfold decision_candidates.
  apply (foldl_inv (Forall (decision_built transcript))); [constructor|].
  intros decisions p Hp H.
  apply (foldl_inv (Forall (decision_built transcript))); [done|].
  intros decisions' m Hm H'.
  destruct (Nat.ltb_spec 10 (length (clause_text m))); [|done].
  destruct (Nat.ltb_spec (length (clause_text m)) 300); [|done]. simpl.
  apply Forall_app. split; [done|]. constructor; [|constructor].
  repeat split; simpl; try done.
  - apply trim_trim.
  - exists (index m). split; [|done].
    eapply match_in_text; [|exact Hm].
    unfold looping_patterns. rewrite !elem_of_app, !elem_of_cons. tauto.
Qed.

(** ** Order and number, whatever the search returns *)

Section Order.

Variable fuse_search :
  forall A : Type, (A -> JStr.t) -> Q -> list A -> JStr.t -> list A.

Context {A : Type} (key : A -> JStr.t) (confidence : A -> Q).

Lemma unique_steps_length items : forall rest st,
  length (foldl (unique_step fuse_search key confidence items) st rest).2
  <= length st.2 + length rest.
Proof.
  induction rest as [|item rest IH]; intros [processed unique]; simpl; [lia|].
  etrans; [apply IH|]. unfold unique_step.
  destruct (decide (key item ∈ processed)); simpl; [lia|].
  destruct (best_of _ _ _ _ _) as [best processed']. simpl.
  rewrite length_app. simpl. lia.
Qed.

Lemma removeDuplicates_length items :
  length (removeDuplicates fuse_search key confidence items) <= length items.
Proof.
  unfold removeDuplicates. destruct (length items <=? 1); [done|].
  rewrite sort_length. apply (unique_steps_length items items (∅, [])).
Qed.

Lemma removeDuplicates_sorted items :
  StronglySorted (by_confidence confidence)
    (removeDuplicates fuse_search key confidence items).
Proof.
  unfold removeDuplicates. destruct (Nat.leb_spec (length items) 1) as [Hl|Hl].
  - destruct items as [|a [|b items]]; simpl in Hl; try lia; repeat constructor.
  - apply Sorted.Sorted_StronglySorted.
    + intros a b c. unfold by_confidence. intros ??. lra.
    + eapply Sorted_impl; [|apply sort_Sorted].
      * intros a b Hab. apply Qle_bool_iff in Hab. unfold by_confidence. lra.
      * intros a b Hab. apply Qle_bool_iff.
        apply not_true_iff_false in Hab. rewrite Qle_bool_iff in Hab. lra.
Qed.

End Order.

(** X8.  Whatever the fuzzy search returns, [extractActionItems] yields
    at most 10 items and [extractKeyDecisions] at most 8, never more than
    there were candidates, and both list them by descending confidence. *)
Theorem extracted_items_sorted
    (fuse_search : forall A : Type, (A -> JStr.t) -> Q -> list A -> JStr.t -> list A)
    (transcript : JStr.t) :
  let actions := extractActionItems fuse_search transcript in
  let decisions := extractKeyDecisions fuse_search transcript in
  length actions <= 10 /\
  length actions <= length (action_candidates transcript) /\
  StronglySorted (by_confidence a_confidence) actions /\
  length decisions <= 8 /\
  length decisions <= length (decision_candidates transcript) /\
  StronglySorted (by_confidence d_confidence) decisions.
Proof.
  unfold extractActionItems, extractKeyDecisions, removeDuplicateActions,
    removeDuplicateDecisions. cbv zeta.
  repeat split.
  - rewrite length_take. lia.
  - rewrite length_take. etrans; [apply Nat.le_min_r|].
    etrans; [apply length_filter|]. apply removeDuplicates_length.
  - eapply StronglySorted_sublist; [apply sublist_take|].
    eapply StronglySorted_sublist; [apply sublist_filter|].
    apply removeDuplicates_sorted.
  - rewrite length_take. lia.
  - rewrite length_take. etrans; [apply Nat.le_min_r|].
    etrans; [apply length_filter|]. apply removeDuplicates_length.
  - eapply StronglySorted_sublist; [apply sublist_take|].
    eapply StronglySorted_sublist; [apply sublist_filter|].
    apply removeDuplicates_sorted.
Qed.

(** ** What the items are *)

Section Items.

Variable fuse_search :
  forall A : Type, (A -> JStr.t) -> Q -> list A -> JStr.t -> list A.

Hypothesis fuse_ok : fuse_returns_items fuse_search.

Local Open Scope Q_scope.

Lemma above_base base step h :
  Qltb base (Qmin (base + step * Qnat h) 1) = true -> (1 <= h)%nat.
Proof.
  destruct h as [|h]; [|lia]. unfold Qltb. intros H%negb_true_iff.
  apply not_true_iff_false in H. exfalso. apply H, Qle_bool_iff.
  change (Qnat 0) with 0. pose proof (Q.le_min_l (base + step * 0) 1). lra.
Qed.

(** X9.  Every action item that [extractActionItems] returns has a trimmed
    text of more than 10 and less than 300 characters, the responsible
    person that [extractResponsiblePerson] finds in that text, at least one
    matching indicator, the confidence 0.3 plus 0.15 for each of them, and
    as its context a part of the transcript of at most 200 characters. *)
Theorem extractActionItems_items (transcript : JStr.t) :
  Forall (fun x =>
            (10 < length (action x) < 300)%nat /\
            trim (action x) = action x /\
            responsible x = extractResponsiblePerson (action x) /\
            (1 <= hits action_indicators (action x))%nat /\
            a_confidence x == 0.3 + 0.15 * Qnat (hits action_indicators (action x)) /\
            (length (a_context x) <= 200)%nat /\
            piece_of (a_context x) transcript)
    (extractActionItems fuse_search transcript).
Proof.
  apply Forall_forall. intros x Hx.
  assert (Hc : x ∈ action_candidates transcript)
    by by apply (extractActionItems_candidates fuse_search fuse_ok).
  unfold extractActionItems in Hx.
  apply elem_of_take in Hx as (i & Hx%list_elem_of_lookup_2 & _).
  apply list_elem_of_filter in Hx as [Hconf _].
  pose proof (action_candidates_built transcript) as Hb.
  rewrite Forall_forall in Hb.
  destruct (Hb x Hc) as (Hlen & Htrim & Hresp & Hcf & pos & Hpos & Hctx).
  destruct (confidence_uncapped 0.3 0.15 action_indicators (action x)) as [Hrule _];
    [done|vm_compute; discriminate|].
  fold (calculateActionConfidence (action x)) in Hrule.
  destruct (extractActionContext_window transcript pos) as (_ & Hw1 & Hw2 & _).
  repeat split; try done; try lia.
  - apply Is_true_true in Hconf. rewrite Hcf in Hconf.
    unfold calculateActionConfidence, confidence_of in Hconf.
    eapply (above_base 0.3 0.15).
    pose proof (confidence_of_rule 0.3 0.15 action_indicators (action x)) as Hr.
    unfold confidence_of in Hr. unfold Qltb in *.
    apply negb_true_iff, not_true_iff_false in Hconf. apply negb_true_iff, not_true_iff_false.
    rewrite Qle_bool_iff in *. by rewrite <- Hr.
  - by rewrite Hcf.
  - by rewrite Hctx.
  - by rewrite Hctx.
Qed.

End Items.

(** * Configuration *)

Lemma config_for_cases tier :
  config_for tier = OwnTier config_basic \/ config_for tier = OwnTier config_ai \/
  config_for tier = Inherited.
Proof.
  unfold config_for, config_get. destruct (config !! tier) as [c|] eqn:Hc.
  - unfold config in Hc. apply lookup_insert_Some in Hc as [[_ <-]|[_ Hc]]; [auto|].
    apply lookup_singleton_Some in Hc as [_ <-]. auto.
  - destruct (decide (tier ∈ object_prototype_names)); auto.
Qed.

Lemma cleanTranscript_short s tier :
  s <> [] -> length (normalize s) < 50 ->
  cleanTranscript (VString s) (cfg_maxTranscriptLength (config_for tier))
  = Return (normalize s).
Proof.
  intros Hs Hlen. unfold cleanTranscript. simpl falsy.
  rewrite bool_decide_false by done.
  assert (He : exceeds (length (normalize s))
                 (cfg_maxTranscriptLength (config_for tier)) = false).
  { assert (Hb : 50 <= maxTranscriptLength config_basic)
      by (apply Nat.leb_le; vm_compute; reflexivity).
    assert (Ha : 50 <= maxTranscriptLength config_ai)
      by (apply Nat.leb_le; vm_compute; reflexivity).
    destruct (config_for_cases tier) as [-> | [-> | ->]];
      cbn [cfg_maxTranscriptLength exceeds]; [| |done]; apply Nat.ltb_ge; lia. }
  by rewrite He.
Qed.

Lemma generateBasicSummary_short text maxLength :
  length text < 50 -> generateBasicSummary text maxLength = too_short_summary.
Proof.
  intros H. unfold generateBasicSummary.
  apply Nat.ltb_lt in H. by rewrite H, orb_true_r.
Qed.

Lemma too_short_Some text n : 0 < n -> too_short (Some text) n = (length text <? n).
Proof.
  intros Hn. unfold too_short. destruct text as [|c text]; simpl; [|done].
  symmetry. by apply Nat.ltb_lt.
Qed.

Section Display.

Variable fuse_search :
  forall A : Type, (A -> JStr.t) -> Q -> list A -> JStr.t -> list A.

(** X10.  For a transcript whose cleaned text is shorter than 50
    characters, [processMeeting] returns a record whose summary is
    'Meeting transcript too short to summarize.'; [validateProcessedData]
    and [formatForDisplay] reject that record, with the one error
    'Transcript is too short or missing', when the cleaned text is shorter
    than 10 characters, and accept it otherwise. *)
Theorem formatForDisplay_short_transcript (now s : JStr.t) (tier : option JStr.t) :
  s <> [] -> length (normalize s) < 50 ->
  exists a,
    processMeeting fuse_search now (VString s) tier
    = (calls_of (default (str "basic") tier), Return a) /\
    transcript a = normalize s /\
    summary a = too_short_summary /\
    validateProcessedData (data_of a)
    = (if length (normalize s) <? 10
       then Throw (str "Validation failed: Transcript is too short or missing")
       else Return true) /\
    match formatForDisplay (data_of a) with
    | Throw message =>
        length (normalize s) < 10 /\
        message = str "Validation failed: Transcript is too short or missing"
    | Return d =>
        10 <= length (normalize s) /\ dp_summary d = Some too_short_summary
    end.
Proof.
  intros Hs Hlen. rewrite processMeeting_run. cbv zeta.
  rewrite cleanTranscript_short by done.
  eexists. split; [reflexivity|]. unfold analysis_of. cbn [transcript summary].
  rewrite generateBasicSummary_short by done.
  split; [done|]. split; [done|].
  assert (Hv : validateProcessedData
                 (data_of
                    (Analysis (normalize s) (extractTicketMentions (normalize s))
                       too_short_summary
                       (extractActionItems fuse_search (normalize s))
                       (extractKeyDecisions fuse_search (normalize s))
                       (identifyParticipants (normalize s))
                       (default (str "basic") tier) now
                       (length (split_space (normalize s)))))
               = if length (normalize s) <? 10
                 then Throw (str "Validation failed: Transcript is too short or missing")
                 else Return true).
  { unfold validateProcessedData, validation_errors, data_of.
    cbn [data_transcript data_summary data_ticketMentions data_actionItems
         data_keyDecisions transcript summary ticketMentions actionItems
         keyDecisions].
    rewrite !too_short_Some by lia.
    rewrite !bool_decide_true by eauto.
    change (length too_short_summary <? 20) with false. cbn [negb].
    by destruct (length (normalize s) <? 10). }
  split; [exact Hv|].
  unfold formatForDisplay. rewrite Hv.
  destruct (Nat.ltb_spec (length (normalize s)) 10); [done|]. split; [done|]. done.
Qed.

End Display.

Lemma split_on_length d s : forall cur, 1 <= length (split_on d cur s).
Proof.
  induction s as [|c s IH]; intros cur; simpl; [lia|].
  destruct (decide (c = d)); simpl; [lia|apply IH].
Qed.

Lemma extractTicketMentions_NoDup transcript :
  NoDup (map ticketId (extractTicketMentions transcript)).
Proof.
  unfold extractTicketMentions. rewrite mention_loop_scan.
  apply mention_steps_inv. split; [|constructor].
  intros id. simpl. set_solver.
Qed.

(** At most one element has a given key when the keys are all different. *)
Lemma filter_key {A} (key : A -> JStr.t) k (l : list A) :
  NoDup (map key l) ->
  match List.filter (fun x => bool_decide (key x = k)) l with
  | [] => k ∉ map key l
  | [x] => x ∈ l /\ key x = k
  | _ => False
  end.
Proof.
  induction l as [|y l IH]; simpl; [intros _; apply not_elem_of_nil|].
  intros [Hy Hnd]%NoDup_cons. specialize (IH Hnd).
  destruct (decide (key y = k)) as [Hk|Hk].
  - rewrite bool_decide_true by done.
    destruct (List.filter _ l) as [|x [|x' l']] eqn:Hf.
    + split; [left|done].
    + destruct IH as [Hx Hkx]. apply Hy. rewrite Hk, <- Hkx.
      by apply list_elem_of_fmap_2.
    + done.
  - rewrite bool_decide_false by done.
    destruct (List.filter _ l) as [|x [|x' l']] eqn:Hf.
    + by apply not_elem_of_cons.
    + destruct IH. split; [by right|done].
    + done.
Qed.

Lemma sublist_List_filter {A} (f : A -> bool) (l : list A) :
  sublist (List.filter f l) l.
Proof.
  induction l as [|x l IH]; simpl; [constructor|].
  destruct (f x); by constructor.
Qed.

Section TicketContextFacts.

Variable fuse_search :
  forall A : Type, (A -> JStr.t) -> Q -> list A -> JStr.t -> list A.

(** X11.  The statistics [getProcessingStats] computes from a record of
    [processMeeting] give the length of the cleaned transcript, its word
    count, which is at least 1, the number of ticket mentions, at most 10
    action items, 8 decisions and 10 participants, the time stamp, and the
    tier as it was passed, except that the empty tier name is reported as
    'unknown'. *)
Theorem getProcessingStats_of_record (now : JStr.t) (transcript : value)
    (tier : option JStr.t) :
  match (processMeeting fuse_search now transcript tier).2 with
  | Return a =>
      let stats := getProcessingStats (data_of a) in
      transcriptLength stats = length (MeetingProcessor.transcript a) /\
      stats_wordCount stats = wordCount a /\ 1 <= wordCount a /\
      ticketMentionsCount stats = length (ticketMentions a) /\
      actionItemsCount stats <= 10 /\
      keyDecisionsCount stats <= 8 /\
      participantsCount stats <= 10 /\
      stats_processingTier stats
      = (if decide (tier = Some []) then str "unknown"
         else default (str "basic") tier) /\
      stats_processedAt stats = Some now
  | Throw _ => True
  end.
Proof.
  rewrite processMeeting_run. cbv zeta.
  destruct (cleanTranscript _ _) as [cleaned|]; [|done].
  cbn [snd]. unfold getProcessingStats, data_of, analysis_of, length_or_0.
  cbn [transcriptLength stats_wordCount ticketMentionsCount actionItemsCount
       keyDecisionsCount participantsCount stats_processingTier stats_processedAt
       data_transcript data_wordCount data_ticketMentions data_actionItems
       data_keyDecisions data_participants data_processingTier data_processedAt
       MeetingProcessor.transcript wordCount ticketMentions actionItems
       keyDecisions participants processingTier processedAt fmap option_fmap
       option_map default id].
  repeat split.
  - apply split_on_length.
  - unfold extractActionItems. rewrite length_take. lia.
  - unfold extractKeyDecisions. rewrite length_take. lia.
  - unfold identifyParticipants. rewrite length_take. lia.
  - destruct (decide (tier = Some [])) as [->|Hn]; [done|].
    by destruct tier as [[|c tier]|].
Qed.

(** X12.  [processForTicketContext] throws what [processMeeting] throws;
    otherwise it returns the record of [processMeeting] with a
    ticket-specific part whose action items and decisions are taken, in
    order, from those of the record.  That part holds at most one mention.
    With none the ticket id, compared as it is written, is not among the
    ids of the record and the part is the fixed 'not relevant' answer; with
    one, the summary is 'Discussion about <id>: ' followed by the basic
    summary, limited to 300, of the context of that mention. *)
Theorem processForTicketContext_result (now : JStr.t) (transcript : value)
    (ticketId : JStr.t) (tier : option JStr.t) :
  match (processMeeting fuse_search now transcript tier).2,
        (processForTicketContext fuse_search now transcript ticketId tier).2 with
  | Return a, Return (general, specific) =>
      general = a /\
      sublist (ts_actionItems specific) (actionItems a) /\
      sublist (ts_keyDecisions specific) (keyDecisions a) /\
      match ts_mentions specific with
      | [] =>
          (ticketId ∉ map MeetingProcessor.ticketId (ticketMentions a)) /\
          specific
          = TicketSpecific false
              (str "This meeting does not appear to discuss the specified ticket.")
              [] [] []
      | [x] =>
          x ∈ ticketMentions a /\ MeetingProcessor.ticketId x = ticketId /\
          relevant specific = true /\
          ts_summary specific
          = str "Discussion about " ++ ticketId ++ str ": " ++
            generateBasicSummary (m_context x) (Some 300)
      | _ => False
      end
  | Throw message, Throw message' => message' = message
  | _, _ => False
  end.
Proof.
  unfold processForTicketContext. rewrite processMeeting_run. cbv zeta.
  destruct (cleanTranscript _ _) as [cleaned|]; [|done].
  cbv [mbind run_bind mret run_ret]. cbn [snd].
  set (a := analysis_of _ _ _ _ _).
  pose proof (filter_key MeetingProcessor.ticketId ticketId (ticketMentions a)
                (extractTicketMentions_NoDup cleaned)) as Hf.
  destruct (List.filter _ (ticketMentions a)) as [|x [|x' l]] eqn:Hfl;
    cbn [length Nat.eqb snd]; [| |done].
  - repeat split; try done; apply sublist_nil_l.
  - destruct Hf as [Hx Hk]. repeat split; try done; apply sublist_List_filter.
Qed.

End TicketContextFacts.

Section Percentages.

Variable fuse_search :
  forall A : Type, (A -> JStr.t) -> Q -> list A -> JStr.t -> list A.

Hypothesis fuse_ok : fuse_returns_items fuse_search.

Lemma Forall2_map_r {A B} (P : A -> B -> Prop) (f : A -> B) (l : list A) :
  Forall (fun x => P x (f x)) l -> Forall2 P l (map f l).
Proof. induction 1; constructor; auto. Qed.

Lemma shown_mentions (transcript : JStr.t) :
  Forall (fun x =>
            let shown := format_mention x in
            dm_ticketId shown = ticketId x /\
            dm_confidence shown
              = (50 + 10 * Z.of_nat (hits mention_indicators (m_context x)))%Z /\
            dm_context shown
              = if decide (100 < length (m_context x))
                then take 100 (m_context x) ++ str "..."
                else m_context x)
    (extractTicketMentions transcript).
Proof.
  eapply Forall_impl; [apply extractTicketMentions_built|].
  intros x (_ & Hc & _). cbv zeta. unfold format_mention.
  cbn [dm_ticketId dm_confidence dm_context]. rewrite Hc. split; [done|]. split.
  - apply (confidence_percent (m_context x) (ticketId x)).
  - unfold substring. rewrite drop_0, Nat.sub_0_r.
    destruct (Nat.ltb_spec 100 (length (m_context x))).
    + by rewrite decide_True by lia.
    + by rewrite decide_False by lia.
Qed.

Lemma shown_actions (transcript : JStr.t) :
  Forall (fun x =>
            let shown := format_action x in
            da_action shown = action x /\
            da_confidence shown
              = (30 + 15 * Z.of_nat (hits action_indicators (action x)))%Z /\
            da_responsible shown
              = default (str "Unassigned") (responsible x))
    (extractActionItems fuse_search transcript).
Proof.
  apply Forall_forall. intros x Hx.
  apply (extractActionItems_candidates fuse_search fuse_ok) in Hx.
  pose proof (action_candidates_built transcript) as Hb.
  rewrite Forall_forall in Hb.
  destruct (Hb x Hx) as (_ & _ & Hresp & Hcf & _).
  cbv zeta. unfold format_action. cbn [da_action da_confidence da_responsible].
  rewrite Hcf. split; [done|]. split; [apply (confidence_percent (action x) [])|].
  pose proof (extractResponsiblePerson_name (action x)) as Hn.
  rewrite <- Hresp in Hn.
  destruct (responsible x) as [[|c name]|]; simpl in *; try done. lia.
Qed.

Lemma shown_decisions (transcript : JStr.t) :
  Forall (fun x =>
            let shown := format_decision x in
            dd_decision shown = decision x /\
            dd_confidence shown
              = (40 + 10 * Z.of_nat (hits decision_indicators (decision x)))%Z)
    (extractKeyDecisions fuse_search transcript).
Proof.
  apply Forall_forall. intros x Hx.
  apply (extractKeyDecisions_candidates fuse_search fuse_ok) in Hx.
  pose proof (decision_candidates_built transcript) as Hb.
  rewrite Forall_forall in Hb.
  destruct (Hb x Hx) as (_ & _ & Hcf & _).
  cbv zeta. unfold format_decision. cbn [dd_decision dd_confidence].
  rewrite Hcf. split; [done|]. apply (confidence_percent (decision x) []).
Qed.

(** X13.  What [formatForDisplay] returns for a record of
    [processMeeting], when the validation lets the record through: the
    summary of the record, and one entry for each ticket mention, action
    item and decision of the record, in their order.  A ticket mention is
    shown with its id, the confidence 50 plus 10 for every matching
    indicator and its context, of which the first 100 characters and
    '...' are shown when it is longer than 100; an action item with its
    text, 30 plus 15 for every matching indicator and its responsible
    person, or 'Unassigned'; a decision with its text and 40 plus 10 for
    every matching indicator.  Otherwise it throws the error of the
    validation. *)
Theorem formatForDisplay_entries (now : JStr.t) (transcript : value)
    (tier : option JStr.t) :
  match (processMeeting fuse_search now transcript tier).2 with
  | Return a =>
      match formatForDisplay (data_of a) with
      | Return d =>
          dp_summary d = Some (summary a) /\
          Forall2 (fun x shown =>
                     dm_ticketId shown = ticketId x /\
                     dm_confidence shown
                       = (50 + 10 * Z.of_nat
                                  (hits mention_indicators (m_context x)))%Z /\
                     dm_context shown
                       = if decide (100 < length (m_context x))
                         then take 100 (m_context x) ++ str "..."
                         else m_context x)
            (ticketMentions a) (dp_ticketMentions d) /\
          Forall2 (fun x shown =>
                     da_action shown = action x /\
                     da_confidence shown
                       = (30 + 15 * Z.of_nat
                                  (hits action_indicators (action x)))%Z /\
                     da_responsible shown
                       = default (str "Unassigned") (responsible x))
            (actionItems a) (dp_actionItems d) /\
          Forall2 (fun x shown =>
                     dd_decision shown = decision x /\
                     dd_confidence shown
                       = (40 + 10 * Z.of_nat
                                  (hits decision_indicators (decision x)))%Z)
            (keyDecisions a) (dp_keyDecisions d)
      | Throw message => validateProcessedData (data_of a) = Throw message
      end
  | Throw _ => True
  end.
Proof.
  rewrite processMeeting_run. cbv zeta.
  destruct (cleanTranscript _ _) as [cleaned|]; [|done].
  cbn [snd]. unfold formatForDisplay.
  destruct (validateProcessedData _) as [ok|message]; [|done].
  unfold analysis_of, data_of.
  cbn [data_summary data_ticketMentions data_actionItems data_keyDecisions
       default id dp_summary dp_ticketMentions dp_actionItems dp_keyDecisions
       summary ticketMentions actionItems keyDecisions].
  split; [done|].
  split; [apply Forall2_map_r, shown_mentions|].
  split; [apply Forall2_map_r, shown_actions|apply Forall2_map_r, shown_decisions].
Qed.

End Percentages.

(** * Greedy quantifiers that cannot give back *)

Section Determined.
Variable fl : flags.
Variable cs : cset.

Local Abbreviation f := (cs_match fl cs).

(** When what follows the quantifier cannot start with a character of the
    class, the quantifier takes the whole run or fails. *)
Lemma rep_greedy_det lo hi k after :
  (forall before c rest caps,
     f c = true -> k (MState before (c :: rest) caps) = None) ->
  forall n before caps, within hi n = true ->
  rep_greedy fl cs lo hi n before after caps k =
  if (lo <=? n + length (run_of f after)) && within hi (n + length (run_of f after))
  then k (MState (reverse (run_of f after) ++ before) (after_run f after) caps)
  else None.
Proof.
  intros Hk. induction after as [|c after IH]; intros n before caps Hn.
  - cbn [rep_greedy run_of after_run length]. rewrite Nat.add_0_r, Hn, andb_true_r.
    simpl. by destruct hi as [h|]; [destruct (n <? h)|].
  - cbn [rep_greedy run_of after_run]. destruct (f c) eqn:Hc.
    + cbn [length].
      replace (n + S (length (run_of f after))) with (S n + length (run_of f after))
        by lia.
      rewrite reverse_cons, <- app_assoc. cbn [app].
      rewrite (Hk before c after caps Hc).
      assert (Hstop : (if lo <=? n then @None mstate else None) = None)
        by by destruct (lo <=? n).
      rewrite Hstop.
      destruct (match hi with Some h => n <? h | None => true end) eqn:Hlt.
      * rewrite IH.
        -- by destruct (_ && _); [destruct (k _)|].
        -- destruct hi as [h|]; [|done]. cbn [within] in *.
           apply Nat.ltb_lt in Hlt. apply Nat.leb_le. lia.
      * destruct hi as [h|]; [|done]. cbn [within] in *.
        apply Nat.ltb_ge in Hlt. apply Nat.leb_le in Hn.
        replace (S n + length (run_of f after) <=? h) with false
          by (symmetry; apply Nat.leb_gt; lia).
        by rewrite andb_false_r.
    + cbn [length]. rewrite Nat.add_0_r, Hn, andb_true_r. simpl.
      by destruct hi as [h|]; [destruct (n <? h)|].
Qed.

Lemma run_of_app a b :
  Forall (fun c => f c = true) a ->
  match b with c :: _ => f c = false | [] => True end ->
  run_of f (a ++ b) = a /\ after_run f (a ++ b) = b.
Proof.
  intros Ha Hb. induction Ha as [|c a Hc _ [IH1 IH2]]; simpl.
  - destruct b as [|c b]; [done|]. simpl. by rewrite Hb.
  - rewrite Hc. by rewrite IH1, IH2.
Qed.

End Determined.

(** * validateIssueKey *)

Lemma search_anchored fl r after : forall c before,
  search fl (RSeq RBol r) (c :: before) after = None.
Proof.
  induction after as [|d after IH]; intros c before; simpl; [done|]. apply IH.
Qed.

Lemma search_from_start fl r s :
  search fl (RSeq RBol r) [] s =
  match rmatch fl r (MState [] s []) Some with
  | Some st' => Some (Result 0 (pos st') (consumed (MState [] s []) st') (m_caps st'))
  | None => None
  end.
Proof.
  destruct s as [|c s]; simpl.
  - by destruct (rmatch fl r _ _).
  - destruct (rmatch fl r _ _); [done|]. apply search_anchored.
Qed.

(** The test as a scan from left to right. *)
Lemma validateIssueKey_scan issueKey :
  JiraService.validateIssueKey issueKey =
  let key := run_of is_upper issueKey in
  (2 <=? length key) && (length key <=? 10) &&
  match after_run is_upper issueKey with
  | c :: rest =>
      bool_decide (c = "-"%char) && (1 <=? length (run_of is_digit rest)) &&
      bool_decide (after_run is_digit rest = [])
  | [] => false
  end.
Proof.
  unfold JiraService.validateIssueKey, JiraService.issue_key_pattern, p_test, test, exec.
  cbn [p_flags p_re seq]. change (length issueKey <? 0) with false. cbv iota.
  rewrite take_0, drop_0. change (reverse []) with (@nil ascii).
  rewrite search_from_start. cbn [rmatch m_before m_after m_caps].
  rewrite rep_greedy_det; [|intros before c rest caps Hc|done].
  - change (cs_match fl_plain AZ) with is_upper. cbv zeta. cbn [within Nat.add].
    destruct ((2 <=? _) && (_ <=? 10)); [|by apply bool_decide_eq_false_2; intros []].
    cbn [andb rmatch m_before m_after m_caps].
    destruct (after_run is_upper issueKey) as [|c rest];
      [by apply bool_decide_eq_false_2; intros []|].
    destruct (cs_match fl_plain (CChar "-") c) eqn:Hd.
    + apply match_dash in Hd as ->.
      change (bool_decide ("-"%char = "-"%char)) with true.
      cbn [andb]. unfold plus. cbn [rmatch m_before m_after m_caps].
      rewrite rep_greedy_det; [|intros b d r cp Hd; done|done].
      change (cs_match fl_plain CDigit) with is_digit. cbn [within Nat.add andb].
      rewrite andb_true_r.
      destruct (1 <=? _); [|by apply bool_decide_eq_false_2; intros []].
      cbn [andb m_after]. destruct (after_run is_digit rest).
      * apply bool_decide_ext. split; [done|eauto].
      * apply bool_decide_ext. split; [by intros []|done].
    + rewrite (bool_decide_false (c = "-"%char))
        by (intros ->; vm_compute in Hd; discriminate).
      by apply bool_decide_eq_false_2; intros [].
  - cbn [rmatch m_before m_after m_caps].
    destruct (cs_match fl_plain (CChar "-") c) eqn:Hd; [|done].
    apply match_dash in Hd as ->. by vm_compute in Hc.
Qed.

Lemma validateIssueKey_sound issueKey :
  JiraService.validateIssueKey issueKey = true -> issue_key_shape issueKey.
Proof.
  rewrite validateIssueKey_scan. cbv zeta.
  intros [[H1 H2]%andb_true_iff H3]%andb_true_iff.
  apply Nat.leb_le in H1, H2.
  pose proof (run_split fl_plain AZ issueKey) as Hs.
  change (cs_match fl_plain AZ) with is_upper in Hs.
  destruct (after_run is_upper issueKey) as [|c rest]; [done|].
  apply andb_true_iff in H3 as [[->%bool_decide_eq_true_1 H4]%andb_true_iff
                                  H5%bool_decide_eq_true_1].
  apply Nat.leb_le in H4.
  pose proof (run_split fl_plain CDigit rest) as Hr.
  change (cs_match fl_plain CDigit) with is_digit in Hr.
  rewrite H5, app_nil_r in Hr.
  exists (run_of is_upper issueKey), (run_of is_digit rest).
  repeat split; try done.
  - rewrite Hs at 1. by rewrite <- Hr.
  - apply (run_of_Forall fl_plain AZ).
  - apply (run_of_Forall fl_plain CDigit).
Qed.

Lemma validateIssueKey_complete issueKey :
  issue_key_shape issueKey -> JiraService.validateIssueKey issueKey = true.
Proof.
  rewrite validateIssueKey_scan. cbv zeta.
  intros (key & num & -> & Hk & Hup & Hn & Hd).
  destruct (run_of_app fl_plain AZ key (str "-" ++ num) Hup) as [H3 H4]; [done|].
  change (cs_match fl_plain AZ) with is_upper in H3, H4. rewrite H3, H4.
  destruct (run_of_app fl_plain CDigit num [] Hd) as [H1 H2]; [done|].
  rewrite app_nil_r in H1, H2.
  change (cs_match fl_plain CDigit) with is_digit in H1, H2.
  cbn [str app]. rewrite H1, H2.
  rewrite !bool_decide_true by done.
  destruct Hk as [Hk1 Hk2].
  apply Nat.leb_le in Hk1, Hk2, Hn. by rewrite Hk1, Hk2, Hn.
Qed.

(** X14.  [validateIssueKey] accepts exactly the keys made of 2 to 10
    capital letters, a dash and one digit or more. *)
Theorem validateIssueKey_shape (issueKey : JStr.t) :
  JiraService.validateIssueKey issueKey = true <-> issue_key_shape issueKey.
Proof. split; [apply validateIssueKey_sound|apply validateIssueKey_complete]. Qed.

(** * Ticket ids as issue keys *)

Lemma letter_upper c : is_letter c = true -> is_upper (upper c) = true.
Proof. each_char c; auto. Qed.

Lemma digit_upper c : is_digit c = true -> upper c = c.
Proof. each_char c; auto; discriminate. Qed.

Lemma upper_not_lower c : is_upper c = true -> is_lower c = false.
Proof. each_char c; auto. Qed.

Lemma digit_not_lower c : is_digit c = true -> is_lower c = false.
Proof. each_char c; auto. Qed.

Lemma letter_not_lower c : is_letter c = true -> is_lower c = false -> is_upper c = true.
Proof. each_char c; auto. Qed.

Lemma extractTicketMentions_shape transcript :
  Forall (fun x => ticket_shape (ticketId x)) (extractTicketMentions transcript).
Proof.
  unfold extractTicketMentions. rewrite mention_loop_scan.
  pose proof (mention_steps_from transcript (scan transcript ticket_patterns) []
                (∅, []) ltac:(constructor)) as Hfrom.
  eapply Forall_impl; [exact Hfrom|].
  intros x (m & (p & Hp & Hm)%elem_of_scan & Hid & _).
  eapply match_ticketId_shape; eauto.
Qed.

Lemma ticket_shape_upper id : ticket_shape id -> issue_key_shape (toUpperCase id).
Proof.
  intros (key & num & -> & Hlen & Hk & Hn & Hd).
  exists (toUpperCase key), num. unfold toUpperCase.
  rewrite !map_app, length_map. repeat split; try done; try lia.
  - cbn [str map]. change (upper "-"%char) with "-"%char. do 2 f_equal.
    clear -Hd. induction Hd as [|c num Hc _ IH]; simpl; [done|].
    by rewrite digit_upper, IH.
  - clear -Hk. induction Hk as [|c key Hc _ IH]; simpl; constructor; [|done].
    by apply letter_upper.
Qed.

Lemma ticket_shape_valid id :
  ticket_shape id ->
  issue_key_shape id <-> Forall (fun c => is_lower c = false) id.
Proof.
  intros (key & num & -> & Hlen & Hk & Hn & Hd). split.
  - intros (key' & num' & -> & _ & Hk' & _ & Hd').
    apply Forall_app. split; [|apply Forall_app; split].
    + eapply Forall_impl; [exact Hk'|]. apply upper_not_lower.
    + by repeat constructor.
    + eapply Forall_impl; [exact Hd'|]. apply digit_not_lower.
  - intros [Hl _]%Forall_app. exists key, num. repeat split; try done; try lia.
    clear -Hk Hl. induction Hk as [|c key Hc _ IH]; [constructor|].
    apply Forall_cons in Hl as [Hl1 Hl2]. constructor; [|auto].
    by apply letter_not_lower.
Qed.

(** X15.  Every ticket id that [extractTicketMentions] returns passes
    [validateIssueKey] once it is upper-cased, and passes it as it is
    exactly when it holds no small letter. *)
Theorem extractTicketMentions_issue_keys (transcript : JStr.t) :
  Forall (fun x =>
            JiraService.validateIssueKey (toUpperCase (ticketId x)) = true /\
            (JiraService.validateIssueKey (ticketId x) = true <->
             Forall (fun c => is_lower c = false) (ticketId x)))
    (extractTicketMentions transcript).
Proof.
  eapply Forall_impl; [apply extractTicketMentions_shape|].
  intros x Hx. split.
  - by apply validateIssueKey_complete, ticket_shape_upper.
  - rewrite <- (ticket_shape_valid _ Hx).
    split; [apply validateIssueKey_sound|apply validateIssueKey_complete].
Qed.

(** * Matches of a global expression *)

Section LoopFacts.
Variable fl : flags.

Lemma exec_loop_piece r s fuel : forall i m,
  m ∈ exec_loop fl fuel r s i -> i <= index m /\ piece_of (whole m) s.
Proof.
  induction fuel as [|fuel IH]; intros i m; simpl; [by intros ?%elem_of_nil|].
  destruct (exec fl r s i) as [m'|] eqn:He; [|by intros ?%elem_of_nil].
  intros [->|Hin]%elem_of_cons.
  - split; [by apply exec_sound in He as [? _]|by apply exec_piece in He as [? _]].
  - apply IH in Hin as [Hi Hp]. split; [|done].
    apply exec_sound in He as (H1 & H2 & _). lia.
Qed.

Lemma exec_loop_ordered r s fuel : forall i,
  StronglySorted left_to_right (exec_loop fl fuel r s i).
Proof.
  induction fuel as [|fuel IH]; intros i; simpl; [constructor|].
  destruct (exec fl r s i) as [m|] eqn:He; [|constructor].
  constructor; [apply IH|].
  apply Forall_forall. intros m' [Hm' _]%exec_loop_piece. exact Hm'.
Qed.

End LoopFacts.

(** * Sets in insertion order *)

Lemma unique_spec items :
  NoDup (TextProcessor.unique items) /\
  forall x, x ∈ TextProcessor.unique items <-> x ∈ items.
Proof.
  unfold TextProcessor.unique.
  assert (H : forall seen,
            NoDup seen ->
            NoDup (foldl (fun seen item => Arr.set_add item seen) seen items) /\
            forall x, x ∈ foldl (fun seen item => Arr.set_add item seen) seen items
                      <-> x ∈ seen \/ x ∈ items).
  { induction items as [|y items IH]; intros seen Hnd; simpl.
    - split; [done|]. intros x. rewrite elem_of_nil. tauto.
    - destruct (IH (Arr.set_add y seen) (set_add_NoDup _ _ Hnd)) as [H1 H2].
      split; [done|]. intros x. rewrite H2, elem_of_set_add, elem_of_cons. tauto. }
  destruct (H [] (NoDup_nil_2)) as [H1 H2]. split; [done|].
  intros x. rewrite H2, elem_of_nil. tauto.
Qed.

(** * Ticket mentions of the text processor *)

Lemma match_upper_or_digit c :
  cs_match fl_plain (COr AZ (CRange "0" "9")) c = true ->
  is_upper c = true \/ is_digit c = true.
Proof. each_char c; auto. Qed.

Lemma ticketPattern_match transcript m :
  m ∈ p_exec_all TextProcessor.ticketPattern transcript ->
  pattern_ticket_shape (whole m) /\ piece_of (whole m) transcript.
Proof.
  intros Hm. split; [|by apply exec_loop_piece in Hm as [_ ?]].
  apply p_exec_all_sound in Hm. revert Hm.
  unfold TextProcessor.ticketPattern.
  cbn [p_flags p_re seq accepts]. intros Hm. break.
  repeat match goal with
    | H : accepts _ (plus CDigit) _ _ |- _ =>
        apply accepts_digits in H as (-> & ? & ?)
    | H : accepts _ (star _) _ _ |- _ => destruct H as [(? & _ & _) ->]
    | H : cs_match _ (CChar "-") _ = true |- _ => apply match_dash in H as ->
    end.
  match goal with H : whole _ = _ |- _ => rewrite H end.
  cbn [app]. rewrite !app_nil_r.
  match goal with
  | |- pattern_ticket_shape (?a :: ?body ++ _ :: ?num) => exists a, body, num
  end.
  repeat split; try done.
  eapply Forall_impl; [eassumption|]. apply match_upper_or_digit.
Qed.

Local Open Scope Q_scope.

Lemma calculateConfidence_bounds context :
  1 # 20 <= TextProcessor.calculateConfidence context <= 1.
Proof.
  unfold TextProcessor.calculateConfidence. cbv zeta.
  pose proof (split_on_length " "%char context []) as Hw.
  fold (split_space context) in Hw. apply Qnat_le in Hw.
  change (Qnat 1) with 1 in Hw.
  set (base := Qmin (Qnat (length (split_space context)) / 20) 1).
  assert (Hb : 1 # 20 <= base).
  { apply Q.min_glb; [|done]. apply Qle_shift_div_l; [done|]. lra. }
  split; [|apply Q.le_min_r].
  apply Q.min_glb; [|done]. destruct (TextProcessor.some_included _ _); lra.
Qed.

Lemma analyzeSentiment_bounds text : -1 <= TextProcessor.analyzeSentiment text <= 1.
Proof.
  unfold TextProcessor.analyzeSentiment. cbv zeta. split.
  - apply Q.le_max_l.
  - apply Q.max_lub; [done|apply Q.le_min_l].
Qed.

Local Close Scope Q_scope.

(** X16.  [TextProcessor.extractTicketMentions] lists the distinct texts
    matched by its ticket pattern, in the order of their first match from
    left to right; each is a capital letter, capital letters and digits, a
    dash and digits, taken from the transcript, with the context that
    [extractTicketContext] builds for it, a confidence between 1/20 and 1
    and a sentiment between -1 and 1. *)
Theorem text_processor_ticket_mentions (transcript : JStr.t) :
  let found := p_exec_all TextProcessor.ticketPattern transcript in
  let out := TextProcessor.extractTicketMentions transcript in
  StronglySorted left_to_right found /\
  map TextProcessor.t_ticketId out = TextProcessor.unique (map whole found) /\
  NoDup (map TextProcessor.t_ticketId out) /\
  Forall (fun x =>
            pattern_ticket_shape (TextProcessor.t_ticketId x) /\
            piece_of (TextProcessor.t_ticketId x) transcript /\
            TextProcessor.t_context x
              = TextProcessor.extractTicketContext transcript
                  (TextProcessor.t_ticketId x) /\
            (1 # 20 <= TextProcessor.t_confidence x <= 1)%Q /\
            (-1 <= TextProcessor.t_sentiment x <= 1)%Q)
    out.
Proof.
  intros found out.
  assert (Hids : map TextProcessor.t_ticketId out
                 = TextProcessor.unique (map whole found)).
  { unfold out, TextProcessor.extractTicketMentions. cbv zeta.
    rewrite map_map. simpl. apply map_id. }
  destruct (unique_spec (map whole found)) as [Hnd Hin].
  split; [apply exec_loop_ordered|]. split; [done|]. split; [by rewrite Hids|].
  apply Forall_forall. intros x Hx.
  assert (Hid : TextProcessor.t_ticketId x ∈ map whole found).
  { apply Hin. rewrite <- Hids. by apply list_elem_of_fmap_2. }
  apply list_elem_of_fmap in Hid as (m & Hid & Hm).
  apply ticketPattern_match in Hm as [Hshape Hpiece]. rewrite <- Hid in *.
  unfold out, TextProcessor.extractTicketMentions in Hx. cbv zeta in Hx.
  apply list_elem_of_fmap in Hx as (ticket & -> & _). simpl in *.
  repeat split; try done.
  - apply calculateConfidence_bounds.
  - apply calculateConfidence_bounds.
  - apply analyzeSentiment_bounds.
  - apply analyzeSentiment_bounds.
Qed.

(** * Where a part of a text lies *)

Lemma prefix_before (c : ascii) (b post : JStr.t) : forall w a,
  c ∉ w -> w ++ post = a ++ c :: b -> exists rest, a = w ++ rest.
Proof.
  induction w as [|y w IH]; intros a Hc H; [by exists a|].
  apply not_elem_of_cons in Hc as [Hy Hc].
  destruct a as [|x a]; simpl in H; [congruence|].
  injection H as -> H. destruct (IH a Hc H) as [rest ->]. by exists rest.
Qed.

(** A part that does not contain [c] lies on one side of [c]. *)
Lemma piece_of_sides (w : JStr.t) c b : w <> [] -> c ∉ w -> forall a,
  piece_of w (a ++ c :: b) -> piece_of w a \/ piece_of w b.
Proof.
  intros Hw Hc. induction a as [|x a IH]; intros (pre & post & H).
  - destruct pre as [|x pre]; simpl in H.
    + destruct w as [|y w]; [done|]. injection H as -> _.
      exfalso. apply Hc. left.
    + injection H as _ ->. right. by exists pre, post.
  - destruct pre as [|y pre]; simpl in H.
    + symmetry in H. apply (prefix_before c b post w (x :: a)) in H as [rest ->]; [|done].
      left. by exists [], rest.
    + injection H as -> H. destruct IH as [(p & q & ->)|Hb]; [by exists pre, post| |by right].
      left. by exists (y :: p), q.
Qed.

(** * The sentence that holds a part without punctuation *)

Section Holds.
Variable f : ascii -> bool.

Lemma split_runs_holds (w : JStr.t) :
  w <> [] -> Forall (fun c => f c = false) w ->
  forall s b cur,
    (b = true -> cur = []) ->
    piece_of w (reverse cur ++ s) ->
    exists piece, piece ∈ split_runs f b cur s /\ piece_of w piece.
Proof.
  intros Hw Hf. induction s as [|c s IH]; intros b cur Hb Hp; simpl.
  - exists (reverse cur). rewrite app_nil_r in Hp. split; [left|done].
  - destruct (f c) eqn:Hc.
    + assert (Hcw : c ∉ w).
      { intros Hin. rewrite Forall_forall in Hf. apply Hf in Hin. congruence. }
      apply piece_of_sides in Hp as [Hp|Hp]; [| |done|done].
      * destruct b.
        -- rewrite (Hb eq_refl) in Hp. destruct Hp as (p & q & Hp).
           change (reverse []) with (@nil ascii) in Hp.
           destruct p, w; try done; simpl in Hp; discriminate.
        -- exists (reverse cur). split; [left|done].
      * destruct (IH true [] (fun _ => eq_refl) Hp) as (piece & Hin & Hpiece).
        exists piece. split; [|done]. destruct b; [done|by right].
    + apply (IH false (c :: cur)); [done|].
      by rewrite reverse_cons, <- app_assoc.
Qed.

End Holds.

(** * Joining and trimming keep a part *)

Lemma piece_of_join (sep x : JStr.t) l : x ∈ l -> piece_of x (join sep l).
Proof.
  induction l as [|y l IH]; [by intros ?%elem_of_nil|].
  intros [->|Hx]%elem_of_cons.
  - destruct l as [|z l]; [apply piece_of_refl|]. rewrite join_two.
    apply piece_of_app_l, piece_of_refl.
  - destruct l as [|z l]; [by apply elem_of_nil in Hx|]. rewrite join_two.
    by apply piece_of_app_r, piece_of_app_r, IH.
Qed.

Lemma piece_of_trimStart (w s : JStr.t) :
  w <> [] -> starts_clean w -> piece_of w s -> piece_of w (trimStart s).
Proof.
  intros Hw Hc. induction s as [|c s IH]; intros Hp; simpl; [done|].
  destruct (is_space c) eqn:Hs; [|done].
  apply IH. destruct Hp as (pre & post & H).
  destruct pre as [|x pre]; simpl in H.
  - destruct w as [|y w]; [done|]. injection H as -> _. simpl in Hc. congruence.
  - injection H as _ ->. by exists pre, post.
Qed.

Lemma piece_of_reverse (w s : JStr.t) : piece_of w s -> piece_of (reverse w) (reverse s).
Proof.
  intros (pre & post & ->). exists (reverse post), (reverse pre).
  by rewrite !reverse_app, <- app_assoc.
Qed.

Lemma piece_of_trim_keep (w s : JStr.t) :
  w <> [] -> starts_clean w -> starts_clean (reverse w) ->
  piece_of w s -> piece_of w (trim s).
Proof.
  intros Hw H1 H2 Hp. unfold trim, trimEnd.
  rewrite <- (reverse_involutive w). apply piece_of_reverse.
  apply piece_of_trimStart; [|done|].
  - intros H. apply Hw. by rewrite <- (reverse_involutive w), H.
  - by apply piece_of_reverse, piece_of_trimStart.
Qed.

(** * The context of a ticket holds the ticket *)

Lemma pattern_ticket_chars id :
  pattern_ticket_shape id ->
  id <> [] /\ starts_clean id /\ starts_clean (reverse id) /\
  Forall (fun c => is_upper c = true \/ is_digit c = true \/ c = "-"%char) id.
Proof.
  intros (first & body & num & -> & Hf & Hb & Hn & Hd).
  assert (Hup : forall c, is_upper c = true -> is_space c = false)
    by (intros c; each_char c; auto).
  assert (Hdg : forall c, is_digit c = true -> is_space c = false)
    by (intros c; each_char c; auto).
  repeat split.
  - done.
  - simpl. auto.
  - rewrite reverse_cons, reverse_app, reverse_app.
    destruct (reverse num) as [|d rn] eqn:Hr.
    + apply (f_equal length) in Hr. rewrite length_reverse in Hr. simpl in Hr. lia.
    + simpl. apply Hdg. rewrite Forall_forall in Hd. apply Hd.
      apply elem_of_reverse. rewrite Hr. left.
  - constructor; [auto|]. apply Forall_app. split.
    + eapply Forall_impl; [exact Hb|]. intros c; simpl; tauto.
    + constructor; [auto|]. eapply Forall_impl; [exact Hd|]. intros c; simpl; tauto.
Qed.

Lemma ticket_char_no_break c :
  is_upper c = true \/ is_digit c = true \/ c = "-"%char ->
  cs_match fl_plain (COr (CChar ".") (COr (CChar "!") (CChar "?"))) c = false.
Proof. intros [H|[H| ->]]; [| |done]; revert H; each_char c; auto; discriminate. Qed.

Lemma context_holds_sentence sentences ticketId sentence :
  sentence ∈ sentences -> includes ticketId sentence = true ->
  sentence ∈ concat (Arr.mapi (TextProcessor.context_of_sentence sentences ticketId)
                       sentences).
Proof.
  intros (i & Hi)%list_elem_of_lookup_1 Hinc.
  rewrite list_elem_of_In, in_concat.
  exists (TextProcessor.context_of_sentence sentences ticketId sentence i). split.
  - rewrite <- list_elem_of_In. unfold Arr.mapi.
    apply elem_of_lookup_imap. eauto.
  - rewrite <- list_elem_of_In. unfold TextProcessor.context_of_sentence.
    rewrite Hinc. rewrite !elem_of_app, list_elem_of_singleton. auto.
Qed.

(** X17.  The context that [TextProcessor.extractTicketMentions] attaches
    to a ticket holds the id of the ticket. *)
Theorem text_processor_context_holds_ticket (transcript : JStr.t) :
  Forall (fun x =>
            includes (TextProcessor.t_ticketId x) (TextProcessor.t_context x) = true)
    (TextProcessor.extractTicketMentions transcript).
Proof.
  apply Forall_forall. intros x Hx.
  unfold TextProcessor.extractTicketMentions in Hx. cbv zeta in Hx.
  apply list_elem_of_fmap in Hx as (id & -> & Hid). simpl.
  destruct (unique_spec (map whole (p_exec_all TextProcessor.ticketPattern transcript)))
    as [_ Hu].
  apply Hu in Hid. apply list_elem_of_fmap in Hid as (m & -> & Hm).
  apply ticketPattern_match in Hm as [Hshape Hpiece].
  destruct (pattern_ticket_chars _ Hshape) as (Hne & Hs1 & Hs2 & Hchars).
  unfold TextProcessor.extractTicketContext. cbv zeta.
  apply includes_spec, piece_of_trim_keep; try done.
  unfold TextProcessor.sentence_break. rewrite split_re_runs.
  set (f := cs_match fl_plain (COr (CChar ".") (COr (CChar "!") (CChar "?")))).
  destruct (split_runs_holds f (whole m) Hne
              ltac:(eapply Forall_impl; [exact Hchars|apply ticket_char_no_break])
              transcript false [] ltac:(done) Hpiece)
    as (sentence & Hin & Hw).
  eapply piece_of_trans; [exact Hw|].
  apply piece_of_join, context_holds_sentence; [done|]. by apply includes_spec.
Qed.

(** * Lower case and trimming *)

Lemma lower_space c : is_space (lower c) = is_space c.
Proof. each_char c; reflexivity. Qed.

Lemma trimStart_lower s : trimStart (toLowerCase s) = toLowerCase (trimStart s).
Proof.
  induction s as [|c s IH]; simpl; [done|].
  rewrite lower_space. by destruct (is_space c).
Qed.

Lemma lower_reverse s : toLowerCase (reverse s) = reverse (toLowerCase s).
Proof.
  unfold toLowerCase. induction s as [|c s IH]; simpl; [done|].
  by rewrite !reverse_cons, map_app, IH.
Qed.

Lemma trim_lower s : trim (toLowerCase s) = toLowerCase (trim s).
Proof.
  unfold trim, trimEnd.
  by rewrite trimStart_lower, <- lower_reverse, trimStart_lower, <- lower_reverse.
Qed.

Lemma some_included_trim ws text :
  Forall (fun w => w <> [] /\ starts_clean w /\ starts_clean (reverse w)) ws ->
  TextProcessor.some_included ws text = true ->
  TextProcessor.some_included ws (trim text) = true.
Proof.
  unfold TextProcessor.some_included. rewrite !existsb_exists.
  intros Hws (w & Hin & Hw). exists w. split; [done|].
  rewrite Forall_forall in Hws. apply list_elem_of_In in Hin.
  destruct (Hws w Hin) as (H1 & H2 & H3).
  apply includes_spec, piece_of_trim_keep; try done. by apply includes_spec.
Qed.

Lemma actionWords_clean :
  Forall (fun w => w <> [] /\ starts_clean w /\ starts_clean (reverse w))
    TextProcessor.actionWords.
Proof. repeat constructor; done. Qed.

Lemma decisionWords_clean :
  Forall (fun w => w <> [] /\ starts_clean w /\ starts_clean (reverse w))
    TextProcessor.decisionWords.
Proof. repeat constructor; done. Qed.

(** * Sentences that are kept *)

Lemma sentence_break_pieces transcript :
  Forall (fun sentence =>
            Forall (fun c => c ∉ ["."%char; "!"%char; "?"%char]) sentence /\
            piece_of sentence transcript)
    (split_re TextProcessor.sentence_break transcript).
Proof.
  unfold TextProcessor.sentence_break. rewrite split_re_runs.
  eapply Forall_impl;
    [apply (split_runs_pieces
              (cs_match fl_plain (COr (CChar ".") (COr (CChar "!") (CChar "?"))))
              transcript false []); constructor|].
  intros sentence [H1 H2]. split; [|done].
  eapply Forall_impl; [exact H1|]. intros c. apply sentence_end_class.
Qed.

Lemma Forall_piece (P : ascii -> Prop) (a b : JStr.t) :
  piece_of a b -> Forall P b -> Forall P a.
Proof.
  intros (pre & post & ->) H. apply Forall_app in H as [_ H].
  by apply Forall_app in H as [H _].
Qed.

(** What the loop over the sentences collects, for any test on top of the
    word test. *)
Lemma collected_sentences ws (extra : JStr.t -> bool) transcript :
  Forall (fun w => w <> [] /\ starts_clean w /\ starts_clean (reverse w)) ws ->
  Forall (fun item =>
            trim item = item /\ piece_of item transcript /\
            Forall (fun c => c ∉ ["."%char; "!"%char; "?"%char]) item /\
            TextProcessor.some_included ws (toLowerCase item) = true)
    (foldl (fun items sentence =>
              if TextProcessor.some_included ws (toLowerCase sentence) then
                if extra sentence then items ++ [trim sentence] else items
              else items)
       [] (split_re TextProcessor.sentence_break transcript)).
Proof.
  intros Hws.
  apply (foldl_inv (Forall (fun item =>
            trim item = item /\ piece_of item transcript /\
            Forall (fun c => c ∉ ["."%char; "!"%char; "?"%char]) item /\
            TextProcessor.some_included ws (toLowerCase item) = true)));
    [constructor|].
  intros items sentence Hin Hitems.
  destruct (TextProcessor.some_included ws (toLowerCase sentence)) eqn:Hw; [|done].
  destruct (extra sentence); [|done].
  apply Forall_app. split; [done|]. constructor; [|constructor].
  pose proof (sentence_break_pieces transcript) as Hp.
  rewrite Forall_forall in Hp. destruct (Hp sentence Hin) as [Hc Hpiece].
  repeat split.
  - apply trim_trim.
  - eapply piece_of_trans; [apply piece_of_trim|done].
  - eapply Forall_piece; [apply piece_of_trim|done].
  - rewrite <- trim_lower. by apply some_included_trim.
Qed.

Lemma kept_sentences ws transcript (items : list JStr.t) n :
  Forall (fun item =>
            trim item = item /\ piece_of item transcript /\
            Forall (fun c => c ∉ ["."%char; "!"%char; "?"%char]) item /\
            TextProcessor.some_included ws (toLowerCase item) = true) items ->
  let out :=
    take n (List.filter (fun item => 10 <? length item) (TextProcessor.unique items)) in
  length out <= n /\ NoDup out /\ Forall (kept_sentence ws transcript) out.
Proof.
  intros Hitems out. destruct (unique_spec items) as [Hnd Hin].
  split; [unfold out; rewrite length_take; lia|]. split.
  - eapply sublist_NoDup; [|apply sublist_take].
    eapply sublist_NoDup; [exact Hnd|apply sublist_List_filter].
  - apply Forall_take, Forall_forall. intros item Hitem.
    apply list_elem_of_In, filter_In in Hitem as [Hitem Hlen].
    apply list_elem_of_In, Hin in Hitem. apply Nat.ltb_lt in Hlen.
    rewrite Forall_forall in Hitems. destruct (Hitems item Hitem) as (? & ? & ? & ?).
    by repeat split.
Qed.

(** X18.  [TextProcessor.extractKeyDecisions] returns at most 5 sentences
    and [TextProcessor.extractActionItems] at most 10, whatever the
    library says about verbs; the sentences are all different, trimmed,
    longer than 10 characters, parts of the transcript without '.', '!' or
    '?', and each holds a decision word, an action word for the action
    items, whatever the case. *)
Theorem text_processor_kept_sentences (nlp_verbs : JStr.t -> nat)
    (transcript : JStr.t) :
  let decisions := TextProcessor.extractKeyDecisions transcript in
  let actions := TextProcessor.extractActionItems nlp_verbs transcript in
  (length decisions <= 5 /\ NoDup decisions /\
   Forall (kept_sentence TextProcessor.decisionWords transcript) decisions) /\
  (length actions <= 10 /\ NoDup actions /\
   Forall (kept_sentence TextProcessor.actionWords transcript) actions).
Proof.
  split.
  - apply kept_sentences.
    apply (collected_sentences TextProcessor.decisionWords (fun _ => true)
             transcript decisionWords_clean).
  - apply kept_sentences.
    apply (collected_sentences TextProcessor.actionWords
             (fun sentence => 0 <? nlp_verbs sentence)
             transcript actionWords_clean).
Qed.

(** * Sentiment *)

Local Open Scope Q_scope.

Lemma sentiment_divisor text :
  1 <= Qmax (Qnat (length (split_space text)) * 0.1) 1.
Proof. apply Q.le_max_r. Qed.

Lemma clamp_sign q :
  (0 < Qmax (-1) (Qmin 1 q) <-> 0 < q) /\
  (Qmax (-1) (Qmin 1 q) < 0 <-> q < 0) /\
  (Qmax (-1) (Qmin 1 q) == 0 <-> q == 0).
Proof.
  destruct (Qlt_le_dec q (-1)) as [H1|H1].
  - rewrite (Q.min_r 1 q), Q.max_l by lra. split; [|split]; split; intros; lra.
  - destruct (Qlt_le_dec 1 q) as [H2|H2].
    + rewrite (Q.min_l 1 q), Q.max_r by lra. split; [|split]; split; intros; lra.
    + rewrite (Q.min_r 1 q), Q.max_r by lra. split; [|split]; split; intros; lra.
Qed.

Lemma quotient_sign z d :
  1 <= d ->
  (0 < inject_Z z / d <-> (0 < z)%Z) /\
  (inject_Z z / d < 0 <-> (z < 0)%Z) /\
  (inject_Z z / d == 0 <-> z = 0%Z).
Proof.
  intros Hd.
  assert (Hinv : 0 < / d) by (apply Qinv_lt_0_compat; lra).
  unfold Qdiv.
  assert (H0 : (0 < z)%Z -> 0 < inject_Z z * / d).
  { intros H. apply Qmult_lt_0_compat; [|done].
    change 0 with (inject_Z 0). by rewrite <- Zlt_Qlt. }
  assert (H1 : (z < 0)%Z -> inject_Z z * / d < 0).
  { intros H. assert (H' : 0 < inject_Z (- z) * / d).
    { apply Qmult_lt_0_compat; [|done].
      change 0 with (inject_Z 0). rewrite <- Zlt_Qlt. lia. }
    rewrite inject_Z_opp in H'. lra. }
  assert (H2 : z = 0%Z -> inject_Z z * / d == 0).
  { intros ->. change (inject_Z 0) with 0. lra. }
  destruct (Z.lt_trichotomy z 0) as [H|[H|H]].
  - specialize (H1 H). repeat split; intros; try lia; try lra.
  - specialize (H2 H). repeat split; intros; try lia; try lra.
  - specialize (H0 H). repeat split; intros; try lia; try lra.
Qed.

(** X19.  The sentiment is positive exactly when the positive words occur
    more often in the text than the negative ones, negative when they
    occur less often, and 0 when they occur equally often. *)
Theorem analyzeSentiment_sign (text : JStr.t) :
  let positive :=
    total_occurrences TextProcessor.positiveWords (toLowerCase text) in
  let negative :=
    total_occurrences TextProcessor.negativeWords (toLowerCase text) in
  (0 < TextProcessor.analyzeSentiment text <-> (negative < positive)%nat) /\
  (TextProcessor.analyzeSentiment text < 0 <-> (positive < negative)%nat) /\
  (TextProcessor.analyzeSentiment text == 0 <-> positive = negative).
Proof.
  intros positive negative.
  unfold TextProcessor.analyzeSentiment. cbv zeta. rewrite raw_score_net.
  destruct (clamp_sign (inject_Z (net_score text) /
                        Qmax (Qnat (length (split_space text)) * 0.1) 1))
    as (C1 & C2 & C3).
  destruct (quotient_sign (net_score text) _ (sentiment_divisor text))
    as (D1 & D2 & D3).
  rewrite C1, C2, C3, D1, D2, D3. unfold net_score. fold positive negative.
  repeat split; intros; lia.
Qed.

(** X20.  For a text of at most ten words the divisor is 1: the sentiment
    is the number of positive occurrences minus that of negative ones,
    clamped, that is one of -1, 0 and 1. *)
Theorem analyzeSentiment_short_text (text : JStr.t) :
  (length (split_space text) <= 10)%nat ->
  TextProcessor.analyzeSentiment text
  == inject_Z (Z.max (-1) (Z.min 1 (net_score text))).
Proof.
  intros Hw. unfold TextProcessor.analyzeSentiment. cbv zeta. rewrite raw_score_net.
  assert (Hd : Qmax (Qnat (length (split_space text)) * 0.1) 1 == 1).
  { apply Q.max_r. apply Qnat_le in Hw. change (Qnat 10) with 10 in Hw. lra. }
  rewrite Hd. unfold Qdiv. change (/ 1) with 1. rewrite Qmult_1_r.
  set (z := net_score text).
  destruct (Z.le_gt_cases z (-1)) as [H|H].
  - rewrite (Z.min_r 1 z), Z.max_l by lia.
    assert (inject_Z z <= -1) by (change (-1) with (inject_Z (-1)); by rewrite <- Zle_Qle).
    rewrite (Q.min_r 1), Q.max_l by lra. reflexivity.
  - destruct (Z.le_gt_cases 1 z) as [H'|H'].
    + rewrite (Z.min_l 1 z), Z.max_r by lia.
      assert (1 <= inject_Z z) by (change 1 with (inject_Z 1); by rewrite <- Zle_Qle).
      rewrite (Q.min_l 1), Q.max_r by lra. reflexivity.
    + assert (z = 0%Z) as -> by lia. reflexivity.
Qed.

Local Close Scope Q_scope.

(** * The summary of the text processor *)

Lemma score_all_sentences n : forall sentences lastIndex index,
  map TextProcessor.i_sentence
    (TextProcessor.score_all n lastIndex index sentences).1
  = sentences.
Proof.
  induction sentences as [|s rest IH]; intros lastIndex index; simpl; [done|].
  unfold TextProcessor.score_item at 1. cbv zeta.
  destruct (TextProcessor.test_global _ _ _) as [hit lastIndex'].
  specialize (IH lastIndex' (S index)).
  destruct (TextProcessor.score_all n lastIndex' (S index) rest) as [xs lastIndex''].
  simpl in *. by rewrite IH.
Qed.

(** X21.  [TextProcessor.generateSummary] joins with single spaces the
    sentences it selected: three of the sentences the segmentation
    library gave, or all of them when there are fewer, each taken at most
    as often as it occurs among them. *)
Theorem generateSummary_selection (nlp_sentences : JStr.t -> list JStr.t)
    (transcript : JStr.t) (lastIndex : nat) :
  let sentences := nlp_sentences transcript in
  let selected :=
    map TextProcessor.i_sentence
      (TextProcessor.top_three nlp_sentences transcript lastIndex).1 in
  length selected = min 3 (length sentences) /\
  selected ⊆+ sentences /\
  (TextProcessor.generateSummary nlp_sentences transcript lastIndex).1
  = join (str " ") selected.
Proof.
  intros sentences selected. unfold selected, TextProcessor.generateSummary.
  unfold TextProcessor.top_three. fold sentences.
  pose proof (score_all_sentences (length sentences) sentences lastIndex 0) as Hs.
  destruct (TextProcessor.score_all _ _ _ _) as [scoredSentences lastIndex'].
  cbn [fst] in *. clearbody sentences. subst sentences. repeat split.
  - by rewrite !length_map, length_take, sort_length.
  - change (TextProcessor.i_sentence <$>
              take 3 (Arr.sort TextProcessor.by_item_score scoredSentences)
            ⊆+ TextProcessor.i_sentence <$> scoredSentences).
    apply fmap_submseteq. etrans; [apply sublist_submseteq, sublist_take|].
    by rewrite sort_Permutation.
Qed.

Section Items2.

Variable fuse_search :
  forall A : Type, (A -> JStr.t) -> Q -> list A -> JStr.t -> list A.

Hypothesis fuse_ok : fuse_returns_items fuse_search.

Local Open Scope Q_scope.

(** X22.  Every decision that [extractKeyDecisions] returns has a trimmed
    text of more than 10 and less than 300 characters, at least one
    matching indicator, the confidence 0.4 plus 0.1 for each of them, and
    as its context a part of the transcript of at most 200 characters. *)
Theorem extractKeyDecisions_items (transcript : JStr.t) :
  Forall (fun x =>
            (10 < length (decision x) < 300)%nat /\
            trim (decision x) = decision x /\
            (1 <= hits decision_indicators (decision x))%nat /\
            d_confidence x
              == 0.4 + 0.1 * Qnat (hits decision_indicators (decision x)) /\
            (length (d_context x) <= 200)%nat /\
            piece_of (d_context x) transcript)
    (extractKeyDecisions fuse_search transcript).
Proof.
  apply Forall_forall. intros x Hx.
  assert (Hc : x ∈ decision_candidates transcript)
    by by apply (extractKeyDecisions_candidates fuse_search fuse_ok).
  unfold extractKeyDecisions in Hx.
  apply elem_of_take in Hx as (i & Hx%list_elem_of_lookup_2 & _).
  apply list_elem_of_filter in Hx as [Hconf _].
  pose proof (decision_candidates_built transcript) as Hb.
  rewrite Forall_forall in Hb.
  destruct (Hb x Hc) as (Hlen & Htrim & Hcf & pos & Hpos & Hctx).
  destruct (confidence_uncapped 0.4 0.1 decision_indicators (decision x)) as [Hrule _];
    [done|vm_compute; discriminate|].
  fold (calculateDecisionConfidence (decision x)) in Hrule.
  destruct (extractActionContext_window transcript pos) as (He & Hw1 & Hw2 & _).
  rewrite <- He in Hw1, Hw2.
  repeat split; try done; try lia.
  - apply Is_true_true in Hconf. rewrite Hcf in Hconf.
    eapply (above_base 0.4 0.1).
    pose proof (confidence_of_rule 0.4 0.1 decision_indicators (decision x)) as Hr.
    unfold calculateDecisionConfidence in Hconf. unfold Qltb in *.
    apply negb_true_iff, not_true_iff_false in Hconf.
    apply negb_true_iff, not_true_iff_false.
    rewrite Qle_bool_iff in *. by rewrite <- Hr.
  - by rewrite Hcf.
  - by rewrite Hctx.
  - by rewrite Hctx.
Qed.

End Items2.

(** * The statements at more worked inputs *)

(** X4 on the scenario of the specification, with the limit of 'basic'. *)
Lemma generateBasicSummary_selection_witness :
  50 <= length standup /\
  3 < length (summary_sentences standup) /\
  (let sentences := summary_sentences standup in
   let selected := topSentences sentences in
   let joined := join (str ". ") (map s_sentence selected) in
   length selected = min 5 (ceil_nat (Qnat (length sentences) * 0.3)) /\
   2 <= length selected <= 5 /\
   joined <> [] /\
   generateBasicSummary standup (Some 500)
   = if exceeds (length joined) (Some 500)
     then substring 0 (default 0 (Some 500) - 3) joined ++ ellipsis
     else joined).
Proof.
  assert (H1 : 50 <= length standup) by (apply Nat.leb_le; vm_compute; reflexivity).
  assert (H2 : 3 < length (summary_sentences standup))
    by (apply Nat.ltb_lt; vm_compute; reflexivity).
  split; [exact H1|]. split; [exact H2|].
  exact (generateBasicSummary_selection standup (Some 500) H1 H2).
Defined.

(** X9 on the scenario of the specification, with the exact search. *)
Lemma extractActionItems_items_witness :
  fuse_returns_items exact_search /\
  Forall (fun x =>
            (10 < length (action x) < 300)%nat /\
            trim (action x) = action x /\
            responsible x = extractResponsiblePerson (action x) /\
            (1 <= hits action_indicators (action x))%nat /\
            (a_confidence x == 0.3 + 0.15 * Qnat (hits action_indicators (action x)))%Q /\
            (length (a_context x) <= 200)%nat /\
            piece_of (a_context x) standup)
    (extractActionItems exact_search standup).
Proof.
  split; [exact exact_search_returns_items|].
  exact (extractActionItems_items exact_search exact_search_returns_items standup).
Defined.

(** X22 on the scenario of the specification, with the exact search. *)
Lemma extractKeyDecisions_items_witness :
  fuse_returns_items exact_search /\
  Forall (fun x =>
            (10 < length (decision x) < 300)%nat /\
            trim (decision x) = decision x /\
            (1 <= hits decision_indicators (decision x))%nat /\
            (d_confidence x
              == 0.4 + 0.1 * Qnat (hits decision_indicators (decision x)))%Q /\
            (length (d_context x) <= 200)%nat /\
            piece_of (d_context x) standup)
    (extractKeyDecisions exact_search standup).
Proof.
  split; [exact exact_search_returns_items|].
  exact (extractKeyDecisions_items exact_search exact_search_returns_items standup).
Defined.

(** X20 on a text of two words. *)
Lemma analyzeSentiment_short_text_witness :
  length (split_space (str "good work")) <= 10 /\
  (TextProcessor.analyzeSentiment (str "good work")
   == inject_Z (Z.max (-1) (Z.min 1 (net_score (str "good work")))))%Q.
Proof.
  assert (H : length (split_space (str "good work")) <= 10)
    by (apply Nat.leb_le; vm_compute; reflexivity).
  split; [exact H|]. exact (analyzeSentiment_short_text (str "good work") H).
Defined.

(** * The words of the cleaned transcript *)

Lemma single_spaced_join a b :
  single_spaced a = true -> single_spaced b = true -> starts_clean b ->
  single_spaced (a ++ b) = true.
Proof.
  intros Ha Hb Hc. induction a as [|c a IH]; [done|].
  cbn [single_spaced app] in *. apply andb_true_iff in Ha as [H1 H2].
  rewrite IH by done. rewrite andb_true_r.
  apply orb_true_iff in H1 as [H1|[H1 H3]%andb_true_iff]; [by rewrite H1|].
  rewrite H1. cbn [andb]. apply orb_true_iff. right.
  destruct a as [|d a]; [|done]. simpl.
  destruct b as [|d b]; [done|]. simpl in Hc. by rewrite Hc.
Qed.

Lemma ends_clean_tail c (s : JStr.t) :
  s <> [] -> starts_clean (reverse (c :: s)) -> starts_clean (reverse s).
Proof.
  intros Hs. rewrite reverse_cons. destruct (reverse s) as [|d r] eqn:Hr; [|done].
  apply (f_equal length) in Hr. rewrite length_reverse in Hr.
  destruct s; [done|simpl in Hr; lia].
Qed.

Lemma split_space_words : forall s cur,
  single_spaced s = true ->
  Forall (fun c => is_space c = false) cur ->
  (cur = [] -> s <> [] /\ starts_clean s) ->
  (s <> [] -> starts_clean (reverse s)) ->
  Forall word (split_on " "%char cur s).
Proof.
  induction s as [|c s IH]; intros cur Hs Hcur Hstart Hend.
  - simpl. constructor; [|constructor]. split.
    + intros Hr. destruct cur as [|d cur]; [by destruct Hstart|].
      apply (f_equal length) in Hr. rewrite length_reverse in Hr. done.
    + rewrite Forall_forall in *. intros x Hx. apply Hcur. by apply elem_of_reverse.
  - cbn [split_on]. cbn [single_spaced] in Hs.
    apply andb_true_iff in Hs as [H1 H2].
    destruct (decide (c = " "%char)) as [->|Hne].
    + assert (Hs' : s <> []).
      { intros ->. specialize (Hend ltac:(done)). by vm_compute in Hend. }
      constructor.
      * split.
        -- intros Hr. destruct cur as [|d cur].
           ++ destruct Hstart as [_ Hc]; [done|]. by vm_compute in Hc.
           ++ apply (f_equal length) in Hr. rewrite length_reverse in Hr. done.
        -- rewrite Forall_forall in *. intros x Hx. apply Hcur.
           by apply elem_of_reverse.
      * apply IH; [done|constructor| |].
        -- intros _. split; [done|]. simpl in H1.
           destruct s as [|d s]; [done|]. simpl. by apply negb_true_iff in H1.
        -- intros _. apply (ends_clean_tail " "%char); [done|]. by apply Hend.
    + assert (Hc : is_space c = false).
      { destruct (is_space c) eqn:Hc; [|done]. simpl in H1.
        apply andb_true_iff in H1 as [H1%bool_decide_eq_true_1 _]. done. }
      apply IH; [done|by constructor|done|].
      intros Hs'. apply (ends_clean_tail c); [done|]. by apply Hend.
Qed.

(** The text [cleanTranscript] returns under the limits of the tiers. *)
Lemma cleanTranscript_clean s limit cleaned :
  limit <> Some 0 ->
  cleanTranscript (VString s) limit = Return cleaned ->
  single_spaced cleaned = true /\ starts_clean cleaned /\
  starts_clean (reverse cleaned).
Proof.
  intros Hlimit. unfold cleanTranscript.
  destruct (falsy (VString s)); [done|]. intros [= <-].
  destruct (normalize_clean s) as [H1 H2].
  assert (H3 : starts_clean (normalize s)) by (rewrite <- H2; apply trim_starts_clean).
  assert (H4 : starts_clean (reverse (normalize s)))
    by (rewrite <- H2; apply trim_ends_clean).
  destruct (exceeds (length (normalize s)) limit) eqn:He; [|done].
  destruct limit as [n|]; [|done]. simpl in He. apply Nat.ltb_lt in He.
  unfold substring. rewrite drop_0, Nat.sub_0_r. cbn [default]. repeat split.
  - apply single_spaced_join; [|done|done].
    rewrite <- (take_drop n (normalize s)) in H1.
    by apply single_spaced_app in H1 as [H1 _].
  - destruct (normalize s) as [|c t]; [simpl in He; lia|].
    destruct n as [|n]; [done|]. done.
  - by rewrite reverse_app.
Qed.

Section WordCount.

Variable fuse_search :
  forall A : Type, (A -> JStr.t) -> Q -> list A -> JStr.t -> list A.

(** X23.  The [wordCount] of a record is the number of pieces between the
    spaces of its cleaned transcript; unless that transcript is empty,
    when the count is 1, every piece is a word: it is not empty and holds
    no white space. *)
Theorem processMeeting_word_count (now : JStr.t) (transcript : value)
    (tier : option JStr.t) :
  match (processMeeting fuse_search now transcript tier).2 with
  | Return a =>
      let text := MeetingProcessor.transcript a in
      wordCount a = length (split_space text) /\
      (text = [] -> wordCount a = 1) /\
      (text <> [] -> Forall word (split_space text))
  | Throw _ => True
  end.
Proof.
  rewrite processMeeting_run. cbv zeta.
  destruct (cleanTranscript _ _) as [cleaned|] eqn:Hclean; [|done].
  cbn [snd]. unfold analysis_of. cbn [MeetingProcessor.transcript wordCount].
  split; [done|]. split; [by intros ->|]. intros Hne.
  destruct transcript as [| | | |s|]; try discriminate Hclean.
  apply cleanTranscript_clean in Hclean as (H1 & H2 & H3).
  - by apply split_space_words.
  - destruct (config_for_cases (default (str "basic") tier)) as [-> | [-> | ->]];
      discriminate.
Qed.

End WordCount.

(** * The last statements at worked inputs *)

(** X10 on a transcript of 14 characters. *)
Lemma formatForDisplay_short_transcript_witness :
  str "Fix PROJ-1 now" <> [] /\
  length (normalize (str "Fix PROJ-1 now")) < 50 /\
  exists a,
    processMeeting exact_search (str "now") (VString (str "Fix PROJ-1 now")) None
    = (calls_of (default (str "basic") None), Return a) /\
    transcript a = normalize (str "Fix PROJ-1 now") /\
    summary a = too_short_summary /\
    validateProcessedData (data_of a)
    = (if length (normalize (str "Fix PROJ-1 now")) <? 10
       then Throw (str "Validation failed: Transcript is too short or missing")
       else Return true) /\
    match formatForDisplay (data_of a) with
    | Throw message =>
        length (normalize (str "Fix PROJ-1 now")) < 10 /\
        message = str "Validation failed: Transcript is too short or missing"
    | Return d =>
        10 <= length (normalize (str "Fix PROJ-1 now")) /\
        dp_summary d = Some too_short_summary
    end.
Proof.
  assert (H1 : str "Fix PROJ-1 now" <> []) by discriminate.
  assert (H2 : length (normalize (str "Fix PROJ-1 now")) < 50)
    by (apply Nat.ltb_lt; vm_compute; reflexivity).
  split; [exact H1|]. split; [exact H2|].
  exact (formatForDisplay_short_transcript exact_search (str "now")
           (str "Fix PROJ-1 now") None H1 H2).
Defined.

(** X13 on the scenario of the specification, with the exact search:
    the record passes the validation, and the confidences shown are 60 for
    the ticket, 60 for the action item and 50 for the decision. *)
Lemma formatForDisplay_entries_witness :
  fuse_returns_items exact_search /\
  match (processMeeting exact_search (str "now") (VString standup) None).2 with
  | Return a =>
      match formatForDisplay (data_of a) with
      | Return d =>
          map dm_confidence (dp_ticketMentions d) = [60%Z] /\
          map da_confidence (dp_actionItems d) = [60%Z] /\
          map dd_confidence (dp_keyDecisions d) = [50%Z]
      | Throw _ => False
      end
  | Throw _ => False
  end /\
  match (processMeeting exact_search (str "now") (VString standup) None).2 with
  | Return a =>
      match formatForDisplay (data_of a) with
      | Return d =>
          dp_summary d = Some (summary a) /\
          Forall2 (fun x shown =>
                     dm_ticketId shown = ticketId x /\
                     dm_confidence shown
                       = (50 + 10 * Z.of_nat
                                  (hits mention_indicators (m_context x)))%Z /\
                     dm_context shown
                       = if decide (100 < length (m_context x))
                         then take 100 (m_context x) ++ str "..."
                         else m_context x)
            (ticketMentions a) (dp_ticketMentions d) /\
          Forall2 (fun x shown =>
                     da_action shown = action x /\
                     da_confidence shown
                       = (30 + 15 * Z.of_nat
                                  (hits action_indicators (action x)))%Z /\
                     da_responsible shown
                       = default (str "Unassigned") (responsible x))
            (actionItems a) (dp_actionItems d) /\
          Forall2 (fun x shown =>
                     dd_decision shown = decision x /\
                     dd_confidence shown
                       = (40 + 10 * Z.of_nat
                                  (hits decision_indicators (decision x)))%Z)
            (keyDecisions a) (dp_keyDecisions d)
      | Throw message => validateProcessedData (data_of a) = Throw message
      end
  | Throw _ => True
  end.
Proof.
  split; [exact exact_search_returns_items|].
  split; [vm_compute; repeat split; reflexivity|].
  exact (formatForDisplay_entries exact_search exact_search_returns_items
           (str "now") (VString standup) None).
Defined.
